(** * Watch-tower: registry, block processing and health roll-up

    A shallow embedding of the TypeScript sources of the watch-tower:
    the conditional-order registry ([add], [flush]), its persistence
    ([Registry.load], [Registry.write], [replacer], [_reviver]), the
    per-block pipeline ([processBlock], [processBlockAndPersist],
    [persistLastProcessedBlock]), the warm-up paging step, the live
    block handler with its reorg detection, the filter-policy reload
    guard and the static health aggregator; and, around them, the
    handling of the contract's events ([_registerNewOrder],
    [_addContract]), the life of a chain context ([init], [warmUp],
    [runBlockWatcher] with its watchdog), the [run] command,
    [measureTime] and the console logging.

    JavaScript numbers that the code uses as block numbers, counters and
    timestamps are integers and are modelled as [Z]; strings are
    [string]; objects whose identity the code observes carry their
    reference, and the params of an order carry the shape they have at
    run time. *)

From Stdlib Require Import ZArith List Bool Ascii String Lia.
From Stdlib Require Import Decimal DecimalString DecimalZ.
From stdpp Require Import base option list gmap strings.

#[local] Set Warnings "-register-all".

Local Open Scope string_scope.
Local Open Scope list_scope.
Local Open Scope Z_scope.

(* ===================================================================== *)
(** * Part I. Definitions                                                 *)
(* ===================================================================== *)

(** ** JavaScript primitives used by the sources *)

Module JS.

(** A number that is an integer or [NaN]. *)
Inductive number :=
| Int (z : Z)
| NaN.

(** The remainder operator [%] on integers: sign of the dividend, and
    [NaN] when the divisor is zero. *)
Definition rem (a b : Z) : number :=
  if b =? 0 then NaN else Int (Z.rem a b).

(** [x === 0] and [x == 0] on a number: [NaN] is never equal to zero. *)
Definition is_zero (r : number) : bool :=
  match r with
  | Int r => r =? 0
  | NaN => false
  end.

(** The division operator [/] on integers, where its quotient is an
    integer (the only use the sources make of it); a quotient that is
    not an integer has no value here ([None]). *)
Definition div (a b : Z) : option Z :=
  if b =? 0 then None
  else if Z.rem a b =? 0 then Some (Z.quot a b) else None.

(** [Number.prototype.toString] on an integer. *)
Definition toString (n : Z) : string :=
  NilZero.string_of_int (Z.to_int n).

Definition number_toString (n : number) : string :=
  match n with
  | Int z => toString z
  | NaN => "NaN"
  end.

(** [Number(s)] on the decimal integer literals, which are the texts
    [toString] writes; the empty string converts to zero and every
    other text is read as [NaN]. *)
Definition Number (s : string) : number :=
  match s with
  | EmptyString => Int 0
  | _ => match NilZero.int_of_string s with
         | Some d => Int (Z.of_int d)
         | None => NaN
         end
  end.

(** The completion of a call or of an awaited promise: a value, or a
    thrown error (a rejection) with its message. *)
Inductive Completion (A : Type) :=
| Normal (a : A)
| Throw (message : string).
Arguments Normal {A} a.
Arguments Throw {A} message.

(** [p.then(f)] where [f] does not throw. *)
Definition then_ {A B} (p : Completion A) (f : A -> B) : Completion B :=
  match p with
  | Normal a => Normal (f a)
  | Throw e => Throw e
  end.

(** [await p.catch(() => d)] *)
Definition catch {A} (p : Completion A) (d : A) : A :=
  match p with
  | Normal a => a
  | Throw _ => d
  end.

(** Truthiness of a string: every string but the empty one. *)
Definition truthy (s : string) : bool :=
  match s with
  | EmptyString => false
  | _ => true
  end.

(** The default comparison of [Array.prototype.sort]: elements are
    compared as strings, code unit by code unit. *)
Definition sort_le (a b : string) : bool := String.leb a b.

Fixpoint sort_insert (x : string) (l : list string) : list string :=
  match l with
  | [] => [x]
  | y :: l' => if sort_le x y then x :: l else y :: sort_insert x l'
  end.

(** [l.sort()] without a comparison function. *)
Definition sort (l : list string) : list string :=
  foldr sort_insert [] l.

(** Ascending insertion of an integer key: the enumeration order of the
    integer-like keys of an object. *)
Fixpoint key_insert {A} (x : Z * A) (l : list (Z * A)) : list (Z * A) :=
  match l with
  | [] => [x]
  | y :: l' => if x.1 <=? y.1 then x :: l else y :: key_insert x l'
  end.

(** [Object.entries(o)] for an object with integer keys. *)
Definition Object_entries {A} (o : gmap Z A) : list (Z * A) :=
  foldr key_insert [] (map_to_list o).

(** [Object.values(o)]. *)
Definition Object_values {A} (o : gmap Z A) : list A :=
  (Object_entries o).*2.

(** [Object.keys(o)]: the keys are strings. *)
Definition Object_keys {A} (o : gmap Z A) : list string :=
  toString <$> (Object_entries o).*1.

End JS.

(** ** JSON values, [JSON.stringify] with a replacer, [JSON.parse] with a reviver *)

Module JSON.

(** What a JSON text denotes. *)
Inductive json :=
| JNull
| JBool (b : bool)
| JNum (z : Z)
| JStr (s : string)
| JArr (elems : list json)
| JObj (members : list (string * json)).

(** The numbers that are not finite. *)
Inductive NonFinite :=
| NotANumber
| PlusInfinity
| MinusInfinity.

(** The JavaScript values that reach the serialiser: primitives, arrays,
    plain objects (own enumerable properties, in order), [Map]s
    (entries in insertion order) and [Set]s (elements in insertion
    order).  The finite numbers are the integers: block numbers,
    timestamps and the values of the status enum are all the numbers
    that the registry holds. *)
Inductive jsval :=
| VUndefined
| VNull
| VBool (b : bool)
| VNum (z : Z)
| VNonFinite (n : NonFinite)
| VStr (s : string)
| VArr (elems : list jsval)
| VObj (props : list (string * jsval))
| VMap (entries : list (jsval * jsval))
| VSet (elems : list jsval).

(** [o[k]] on the property list of a plain object. *)
Fixpoint get_prop (k : string) (props : list (string * jsval)) : jsval :=
  match props with
  | [] => VUndefined
  | (k', v) :: props' => if String.eqb k' k then v else get_prop k props'
  end.

(** [value.k]: only plain objects carry the properties read here. *)
Definition prop (value : jsval) (k : string) : jsval :=
  match value with
  | VObj props => get_prop k props
  | _ => VUndefined
  end.

(** [value === "s"] *)
Definition is_string (value : jsval) (s : string) : bool :=
  match value with
  | VStr s' => String.eqb s' s
  | _ => false
  end.

(** SameValueZero, the key comparison of [Map] and [Set].  Objects are
    compared by reference, and no two objects of a value share one:
    [JSON.parse] creates every object afresh. *)
Definition same_value_zero (a b : jsval) : bool :=
  match a, b with
  | VUndefined, VUndefined => true
  | VNull, VNull => true
  | VBool x, VBool y => Bool.eqb x y
  | VNum x, VNum y => x =? y
  | VNonFinite NotANumber, VNonFinite NotANumber => true
  | VNonFinite PlusInfinity, VNonFinite PlusInfinity => true
  | VNonFinite MinusInfinity, VNonFinite MinusInfinity => true
  | VStr x, VStr y => String.eqb x y
  | _, _ => false
  end.

(** [m.set(k, v)] on the entries of a [Map]. *)
Fixpoint Map_entries_set (k v : jsval) (entries : list (jsval * jsval))
  : list (jsval * jsval) :=
  match entries with
  | [] => [(k, v)]
  | (k', v') :: entries' =>
      if same_value_zero k' k then (k', v) :: entries'
      else (k', v') :: Map_entries_set k v entries'
  end.

(** [s.add(x)] on the elements of a [Set]. *)
Definition Set_elems_add (x : jsval) (elems : list jsval) : list jsval :=
  if existsb (fun y => same_value_zero y x) elems then elems
  else elems ++ [x].

(** An entry of the iterable given to [new Map]: [e[0]] and [e[1]] of an
    array; anything else the sources never pass ([TypeError]). *)
Definition entry_of (e : jsval) : option (jsval * jsval) :=
  match e with
  | VArr l => Some (nth 0 l VUndefined, nth 1 l VUndefined)
  | _ => None
  end.

(** [new Map(iterable)]; [None] is a thrown [TypeError]. *)
Definition new_Map (iterable : jsval) : option jsval :=
  match iterable with
  | VUndefined | VNull => Some (VMap [])
  | VArr l =>
      es ← mapM entry_of l;
      Some (VMap (foldl (fun m e => Map_entries_set e.1 e.2 m) [] es))
  | _ => None
  end.

(** [new Set(iterable)]. *)
Definition new_Set (iterable : jsval) : option jsval :=
  match iterable with
  | VUndefined | VNull => Some (VSet [])
  | VArr l => Some (VSet (foldl (fun s x => Set_elems_add x s) [] l))
  | _ => None
  end.

(** The elements of an array, each under its index; an element that
    serialises to [undefined] is written as [null]. *)
Definition serialize_elems (serialize : string -> jsval -> option (option json))
  : Z -> list jsval -> option (list json) :=
  fix elems (i : Z) (l : list jsval) : option (list json) :=
    match l with
    | [] => Some []
    | x :: l' =>
        j ← serialize (JS.toString i) x;
        js ← elems (i + 1) l';
        Some (default JNull j :: js)
    end.

(** The properties of an object, each under its name; a property that
    serialises to [undefined] is left out. *)
Definition serialize_members
    (serialize : string -> jsval -> option (option json))
  : list (string * jsval) -> option (list (string * json)) :=
  fix members (props : list (string * jsval)) : option (list (string * json)) :=
    match props with
    | [] => Some []
    | p :: props' =>
        j ← serialize p.1 p.2;
        ms ← members props';
        Some (match j with
              | Some j => (p.1, j) :: ms
              | None => ms
              end)
    end.

(** [SerializeJSONProperty]: the replacer is applied to the value of
    every property and element before it is serialised; a number that
    is not finite is written as [null].  [None] is an exhausted
    recursion budget, [Some None] is [undefined]. *)
Fixpoint SerializeJSONProperty (replacer : string -> jsval -> jsval)
    (budget : nat) (key : string) (value : jsval)
  : option (option json) :=
  match budget with
  | O => None
  | S budget =>
      match replacer key value with
      | VUndefined => Some None
      | VNull => Some (Some JNull)
      | VBool b => Some (Some (JBool b))
      | VNum z => Some (Some (JNum z))
      | VNonFinite _ => Some (Some JNull)
      | VStr s => Some (Some (JStr s))
      | VArr l =>
          js ← serialize_elems (SerializeJSONProperty replacer budget) 0 l;
          Some (Some (JArr js))
      | VObj props =>
          ms ← serialize_members (SerializeJSONProperty replacer budget) props;
          Some (Some (JObj ms))
      | VMap _ | VSet _ => Some (Some (JObj []))
      end
  end.

(** The greatest depth among the values of a list. *)
Definition max_depth {A} (depth : A -> nat) (l : list A) : nat :=
  fold_right (fun x n => Nat.max (depth x) n) O l.

(** The nesting depth [JSON.stringify] reaches on a value when [Map]s
    and [Set]s are replaced by their tagged objects. *)
Fixpoint depth (v : jsval) : nat :=
  match v with
  | VArr l => S (max_depth depth l)
  | VObj props => S (max_depth (fun p => depth p.2) props)
  | VMap entries =>
      3 + max_depth (fun e => Nat.max (depth e.1) (depth e.2)) entries
  | VSet l => 2 + max_depth depth l
  | _ => 1
  end%nat.

(** [JSON.stringify(value, replacer)], as the tree of the text. *)
Definition stringify (replacer : string -> jsval -> jsval) (value : jsval)
  : option (option json) :=
  SerializeJSONProperty replacer (depth value) EmptyString value.

Definition internalize_elems (internalize : string -> json -> option jsval)
  : Z -> list json -> option (list jsval) :=
  fix elems (i : Z) (l : list json) : option (list jsval) :=
    match l with
    | [] => Some []
    | x :: l' =>
        v ← internalize (JS.toString i) x;
        vs ← elems (i + 1) l';
        Some (v :: vs)
    end.

Definition internalize_members (internalize : string -> json -> option jsval)
  : list (string * json) -> option (list (string * jsval)) :=
  fix members (ms : list (string * json)) : option (list (string * jsval)) :=
    match ms with
    | [] => Some []
    | m :: ms' =>
        v ← internalize m.1 m.2;
        ps ← members ms';
        Some (match v with
              | VUndefined => ps
              | _ => (m.1, v) :: ps
              end)
    end.

(** [InternalizeJSONProperty]: the reviver is applied bottom-up, to the
    elements and members first and to their holder afterwards; a member
    revived to [undefined] is deleted.  [None] is an exception thrown by
    the reviver. *)
Fixpoint InternalizeJSONProperty (reviver : string -> jsval -> option jsval)
    (key : string) (j : json) : option jsval :=
  match j with
  | JNull => reviver key VNull
  | JBool b => reviver key (VBool b)
  | JNum z => reviver key (VNum z)
  | JStr s => reviver key (VStr s)
  | JArr l =>
      vs ← internalize_elems (InternalizeJSONProperty reviver) 0 l;
      reviver key (VArr vs)
  | JObj ms =>
      ps ← internalize_members (InternalizeJSONProperty reviver) ms;
      reviver key (VObj ps)
  end.

(** [JSON.parse(text, reviver)] on the tree of the text. *)
Definition parse (reviver : string -> jsval -> option jsval) (j : json)
  : option jsval :=
  InternalizeJSONProperty reviver EmptyString j.

(** The keys of a [Map], or the elements of a [Set], are pairwise
    different for SameValueZero. *)
Fixpoint distinct (l : list jsval) : bool :=
  match l with
  | [] => true
  | x :: l' => forallb (fun y => negb (same_value_zero x y)) l' && distinct l'
  end.

End JSON.

(** ** The platform's text codecs *)

(** [JSON.stringify] and [JSON.parse] go through a text, and a [Date] is
    stored as its ISO-8601 text.  The texts themselves are the
    platform's: the sources only rely on reading back what was written. *)
Class Platform := {
  (** the text [JSON.stringify] writes for a tree *)
  JSON_text : JSON.json -> string;
  (** the tree of a text; [None] is a [SyntaxError] *)
  JSON_tree : string -> option JSON.json;
  (** [Date.prototype.toISOString] of a time value (milliseconds) *)
  toISOString : Z -> string;
  (** the time value of [new Date(text)]; [None] is an invalid date *)
  Date_parse : string -> option Z;
}.

Class PlatformLaws `{Platform} : Prop := {
  JSON_tree_text : forall j, JSON_tree (JSON_text j) = Some j;
  JSON_text_truthy : forall j, JS.truthy (JSON_text j) = true;
  Date_parse_toISOString : forall t, Date_parse (toISOString t) = Some t;
  toISOString_truthy : forall t, JS.truthy (toISOString t) = true;
}.

(** ** The key/value store behind the registry *)

Module DB.

(** Modelled from the spec: the store facade ([DBService], which is not
    among the sources): [get(key)] gives the bytes or nothing, [put],
    [del], and a [batch()] whose writer commits atomically.  Nothing is
    the rejection that the [.catch] handlers of [Registry.load]
    intercept. *)
Definition get (key : string) (db : gmap string string)
  : JS.Completion string :=
  match db !! key with
  | Some value => JS.Normal value
  | None => JS.Throw "NotFound"
  end.

Inductive BatchOp :=
| put (key value : string)
| del (key : string).

Definition apply (db : gmap string string) (op : BatchOp)
  : gmap string string :=
  match op with
  | put key value => <[key := value]> db
  | del key => delete key db
  end.

(** [batch.write()]: all the operations of the batch, in order, at once. *)
Definition batch_write (batch : list BatchOp) (db : gmap string string)
  : gmap string string :=
  foldl apply db batch.

End DB.

(** ** The registry model and its persistence (types) *)

Module Model.
Import JSON.

Definition LAST_NOTIFIED_ERROR_STORAGE_KEY := "LAST_NOTIFIED_ERROR".
Definition LAST_PROCESSED_BLOCK_STORAGE_KEY := "LAST_PROCESSED_BLOCK".
Definition CONDITIONAL_ORDER_REGISTRY_STORAGE_KEY := "CONDITIONAL_ORDER_REGISTRY".
Definition CONDITIONAL_ORDER_REGISTRY_VERSION_KEY :=
  "CONDITIONAL_ORDER_REGISTRY_VERSION".
Definition CONDITIONAL_ORDER_REGISTRY_VERSION : Z := 1.

Definition getNetworkStorageKey (key network : string) : string :=
  (key +:+ "_" +:+ network)%string.

Record Proof := {
  merkleRoot : string;
  path : list string;
}.

Definition OrderUid := string.
Definition Owner := string.

Inductive OrderStatus :=
| SUBMITTED
| FILLED.

(** The numeric value of the enum. *)
Definition OrderStatus_value (s : OrderStatus) : Z :=
  match s with
  | SUBMITTED => 1
  | FILLED => 2
  end.

(** What a params object is at run time.  The declared type is the plain
    struct [{ handler, salt, staticInput }]; what the decoder of ethers
    returns ([decodeEventLog], [defaultAbiCoder.decode]) is a [Result]:
    an array [[handler, salt, staticInput]] that carries its three
    elements under their names as well; and what [JSON.parse] gives for
    the text of an array is a plain array, without the names. *)
Inductive ParamsShape :=
| PlainStruct
| DecodedResult
| PlainArray.

(** [IConditionalOrder.ConditionalOrderParamsStruct]: an object, with
    its reference and its shape.  [handler], [salt] and [staticInput]
    are its three values: the properties of a plain struct, the
    elements of an array. *)
Record ConditionalOrderParamsStruct := {
  params_ref : nat;
  params_shape : ParamsShape;
  handler : string;
  salt : string;
  staticInput : string;
}.

(** [params.handler], [params.salt] and [params.staticInput]: a plain
    array has no such properties. *)
Definition params_prop (p : ConditionalOrderParamsStruct) (k : string)
  : jsval :=
  match params_shape p with
  | PlainArray => VUndefined
  | PlainStruct | DecodedResult =>
      if String.eqb k "handler" then VStr (handler p)
      else if String.eqb k "salt" then VStr (salt p)
      else if String.eqb k "staticInput" then VStr (staticInput p)
      else VUndefined
  end.

(** [pollResult]; the [PollResult] of the SDK is kept as the value it
    is. *)
Record PollResultInfo := {
  lastExecutionTimestamp : Z;
  blockNumber : Z;
  result : jsval;
}.

(** A conditional order: an object, with its reference.  [orders] is a
    [Map], its entries in insertion order. *)
Record ConditionalOrder := {
  ref : nat;
  tx : string;
  params : ConditionalOrderParamsStruct;
  proof : option Proof;
  orders : list (OrderUid * OrderStatus);
  composableCow : string;
  pollResult : option PollResultInfo;
}.

(** A [Date]: its time value, or an invalid date. *)
Inductive Date :=
| ValidDate (t : Z)
| InvalidDate.

(** [Map<Owner, Set<ConditionalOrder>>]: the entries in insertion
    order, each set with its elements in insertion order. *)
Definition OwnerOrders := list (Owner * list ConditionalOrder).

(** The registry.  Its [storage] handle is the store that [load] and
    [write] are given. *)
Record Registry := {
  version : Z;
  ownerOrders : OwnerOrders;
  network : string;
  lastNotifiedError : option Date;
  lastProcessedBlock : option JS.number;
}.

(** The constructor; [version] is initialised by the class field. *)
Definition new_Registry (ownerOrders : OwnerOrders) (network : string)
    (lastNotifiedError : option Date) (lastProcessedBlock : option JS.number)
  : Registry :=
  {| version := CONDITIONAL_ORDER_REGISTRY_VERSION;
     ownerOrders := ownerOrders;
     network := network;
     lastNotifiedError := lastNotifiedError;
     lastProcessedBlock := lastProcessedBlock |}.

(** *** Operations of [Map<Owner, _>] with string keys *)

Definition Map_has {V} (k : string) (m : list (string * V)) : bool :=
  existsb (fun e => String.eqb e.1 k) m.

Fixpoint Map_get {V} (k : string) (m : list (string * V)) : option V :=
  match m with
  | [] => None
  | (k', v) :: m' => if String.eqb k' k then Some v else Map_get k m'
  end.

Fixpoint Map_set {V} (k : string) (v : V) (m : list (string * V))
  : list (string * V) :=
  match m with
  | [] => [(k, v)]
  | (k', v') :: m' =>
      if String.eqb k' k then (k', v) :: m' else (k', v') :: Map_set k v m'
  end.

(** *** Operations of [Set<ConditionalOrder>]: membership is by reference *)

Definition same_order (a b : ConditionalOrder) : bool :=
  Nat.eqb (ref a) (ref b).

Definition Set_add (c : ConditionalOrder) (s : list ConditionalOrder)
  : list ConditionalOrder :=
  if existsb (same_order c) s then s else s ++ [c].

Definition Set_delete (c : ConditionalOrder) (s : list ConditionalOrder)
  : list ConditionalOrder :=
  filter (fun c' => same_order c c' = false) s.

(** *** The registry as the JavaScript value given to [JSON.stringify] *)

(** A [Result] is an array: [JSON.stringify] writes its elements and
    none of its names. *)
Definition params_value (p : ConditionalOrderParamsStruct) : jsval :=
  match params_shape p with
  | PlainStruct =>
      VObj [("handler", VStr (handler p)); ("salt", VStr (salt p));
            ("staticInput", VStr (staticInput p))]
  | DecodedResult | PlainArray =>
      VArr [VStr (handler p); VStr (salt p); VStr (staticInput p)]
  end.

Definition proof_value (p : option Proof) : jsval :=
  match p with
  | None => VNull
  | Some p => VObj [("merkleRoot", VStr (merkleRoot p));
                    ("path", VArr (map VStr (path p)))]
  end.

Definition pollResult_value (r : PollResultInfo) : jsval :=
  VObj [("lastExecutionTimestamp", VNum (lastExecutionTimestamp r));
        ("blockNumber", VNum (blockNumber r));
        ("result", result r)].

Definition orders_value (m : list (OrderUid * OrderStatus)) : jsval :=
  VMap (map (fun e => (VStr e.1, VNum (OrderStatus_value e.2))) m).

Definition order_value (c : ConditionalOrder) : jsval :=
  VObj ([("tx", VStr (tx c)); ("params", params_value (params c));
         ("proof", proof_value (proof c)); ("orders", orders_value (orders c));
         ("composableCow", VStr (composableCow c))]
        ++ match pollResult c with
           | Some r => [("pollResult", pollResult_value r)]
           | None => []
           end).

Definition ownerOrders_value (m : OwnerOrders) : jsval :=
  VMap (map (fun e => (VStr e.1, VSet (map order_value e.2))) m).

(** *** Reading a parsed value at the declared types

    [JSON.parse] returns [any]; [parseConditionalOrders] declares it a
    [Map<Owner, Set<ConditionalOrder>>].  A value of another shape has no
    counterpart at these types ([None]).  Every parsed object is a new
    object: the orders are numbered from the next free reference. *)

Definition as_string (v : jsval) : option string :=
  match v with VStr s => Some s | _ => None end.

Definition as_number (v : jsval) : option Z :=
  match v with VNum z => Some z | _ => None end.

Definition as_OrderStatus (v : jsval) : option OrderStatus :=
  match v with
  | VNum 1 => Some SUBMITTED
  | VNum 2 => Some FILLED
  | _ => None
  end.

Definition as_params (r : nat) (v : jsval)
  : option ConditionalOrderParamsStruct :=
  match v with
  | VObj _ =>
      h ← as_string (prop v "handler");
      s ← as_string (prop v "salt");
      i ← as_string (prop v "staticInput");
      Some {| params_ref := r; params_shape := PlainStruct;
              handler := h; salt := s; staticInput := i |}
  | VArr [e0; e1; e2] =>
      h ← as_string e0;
      s ← as_string e1;
      i ← as_string e2;
      Some {| params_ref := r; params_shape := PlainArray;
              handler := h; salt := s; staticInput := i |}
  | _ => None
  end.

Definition as_proof (v : jsval) : option (option Proof) :=
  match v with
  | VNull => Some None
  | VObj _ =>
      root ← as_string (prop v "merkleRoot");
      path ← match prop v "path" with
             | VArr l => mapM as_string l
             | _ => None
             end;
      Some (Some {| merkleRoot := root; path := path |})
  | _ => None
  end.

Definition as_pollResult (v : jsval) : option (option PollResultInfo) :=
  match v with
  | VUndefined => Some None
  | VObj _ =>
      t ← as_number (prop v "lastExecutionTimestamp");
      b ← as_number (prop v "blockNumber");
      Some (Some {| lastExecutionTimestamp := t; blockNumber := b;
                    result := prop v "result" |})
  | _ => None
  end.

Definition as_orders (v : jsval) : option (list (OrderUid * OrderStatus)) :=
  match v with
  | VMap entries =>
      mapM (fun e => uid ← as_string e.1;
                     status ← as_OrderStatus e.2;
                     Some (uid, status)) entries
  | _ => None
  end.

Definition as_order (r : nat) (v : jsval) : option ConditionalOrder :=
  match v with
  | VObj _ =>
      tx ← as_string (prop v "tx");
      params ← as_params r (prop v "params");
      proof ← as_proof (prop v "proof");
      orders ← as_orders (prop v "orders");
      composableCow ← as_string (prop v "composableCow");
      pollResult ← as_pollResult (prop v "pollResult");
      Some {| ref := r; tx := tx; params := params; proof := proof;
              orders := orders; composableCow := composableCow;
              pollResult := pollResult |}
  | _ => None
  end.

Fixpoint as_order_list (heap : nat) (l : list jsval)
  : option (list ConditionalOrder * nat) :=
  match l with
  | [] => Some ([], heap)
  | v :: l' =>
      c ← as_order heap v;
      r ← as_order_list (S heap) l';
      Some (c :: r.1, r.2)
  end.

Definition as_order_set (heap : nat) (v : jsval)
  : option (list ConditionalOrder * nat) :=
  match v with
  | VSet l => as_order_list heap l
  | _ => None
  end.

Fixpoint as_owner_entries (heap : nat) (entries : list (jsval * jsval))
  : option (OwnerOrders * nat) :=
  match entries with
  | [] => Some ([], heap)
  | e :: entries' =>
      owner ← as_string e.1;
      s ← as_order_set heap e.2;
      r ← as_owner_entries s.2 entries';
      Some ((owner, s.1) :: r.1, r.2)
  end.

Definition as_ownerOrders (heap : nat) (v : jsval)
  : option (OwnerOrders * nat) :=
  match v with
  | VMap entries => as_owner_entries heap entries
  | _ => None
  end.

(** *** [_reviver], [replacer], [parseConditionalOrders] *)

Definition _reviver (_key : string) (value : jsval) : option jsval :=
  match value with
  | VObj _ =>
      if is_string (prop value "dataType") "Map" then
        new_Map (prop value "value")
      else if is_string (prop value "dataType") "Set" then
        new_Set (prop value "value")
      else Some value
  | _ => Some value
  end.

Definition replacer (_key : string) (value : jsval) : jsval :=
  match value with
  | VMap entries =>
      VObj [("dataType", VStr "Map");
            ("value", VArr (map (fun e => VArr [e.1; e.2]) entries))]
  | VSet elems =>
      VObj [("dataType", VStr "Set"); ("value", VArr elems)]
  | _ => value
  end.

Section WithPlatform.
Context `{Platform}.

(** [new Date(text)] *)
Definition new_Date (text : string) : Date :=
  match Date_parse text with
  | Some t => ValidDate t
  | None => InvalidDate
  end.

(** [serializedConditionalOrders] is [undefined] ([None]) or a string;
    [_version] is not consulted.  The result carries the next free
    reference. *)
Definition parseConditionalOrders
    (serializedConditionalOrders : option string)
    (_version : option JS.number) (heap : nat)
  : JS.Completion (OwnerOrders * nat) :=
  match serializedConditionalOrders with
  | None => JS.Normal ([], heap)
  | Some text =>
      if negb (JS.truthy text) then JS.Normal ([], heap)
      else
        match JSON_tree text with
        | None => JS.Throw "SyntaxError"
        | Some tree =>
            match parse _reviver tree with
            | None => JS.Throw "TypeError"
            | Some value =>
                match as_ownerOrders heap value with
                | Some r => JS.Normal r
                | None => JS.Throw "not a Map<Owner, Set<ConditionalOrder>>"
                end
            end
        end
  end.

(** [Registry.load] *)
Definition load (storage : gmap string string) (network : string)
    (genesisBlockNumber : JS.number) (heap : nat)
  : JS.Completion (Registry * nat) :=
  match DB.get (getNetworkStorageKey
                  CONDITIONAL_ORDER_REGISTRY_STORAGE_KEY network) storage with
  | JS.Throw e => JS.Throw e
  | JS.Normal str =>
      let lastNotifiedError :=
        JS.catch
          (JS.then_
             (DB.get (getNetworkStorageKey
                        LAST_NOTIFIED_ERROR_STORAGE_KEY network) storage)
             (fun isoDate =>
                if JS.truthy isoDate then Some (new_Date isoDate) else None))
          None in
      let lastProcessedBlock :=
        JS.catch
          (JS.then_
             (DB.get (getNetworkStorageKey
                        LAST_PROCESSED_BLOCK_STORAGE_KEY network) storage)
             (fun blockNumber =>
                Some (if JS.truthy blockNumber then JS.Number blockNumber
                      else genesisBlockNumber)))
          None in
      let version :=
        JS.catch
          (JS.then_
             (DB.get (getNetworkStorageKey
                        CONDITIONAL_ORDER_REGISTRY_VERSION_KEY network) storage)
             (fun versionString => Some (JS.Number versionString)))
          None in
      match parseConditionalOrders
              (if JS.truthy str then Some str else None) version heap with
      | JS.Throw e => JS.Throw e
      | JS.Normal (ownerOrders, heap') =>
          JS.Normal (new_Registry ownerOrders network
                       lastNotifiedError lastProcessedBlock, heap')
      end
  end.

(** [stringifyOrders]; [undefined] and an exhausted budget have no
    text. *)
Definition stringifyOrders (r : Registry) : option string :=
  match stringify replacer (ownerOrders_value (ownerOrders r)) with
  | Some (Some tree) => Some (JSON_text tree)
  | _ => None
  end.

(** [Registry.write]: one batch, written atomically. *)
Definition write (r : Registry) (storage : gmap string string)
  : JS.Completion (gmap string string) :=
  match stringifyOrders r with
  | None => JS.Throw "TypeError"
  | Some text =>
      let batch :=
        [DB.put (getNetworkStorageKey
                   CONDITIONAL_ORDER_REGISTRY_VERSION_KEY (network r))
                (JS.toString (version r));
         DB.put (getNetworkStorageKey
                   CONDITIONAL_ORDER_REGISTRY_STORAGE_KEY (network r))
                text] in
      let lastNotifiedErrorOp :=
        match lastNotifiedError r with
        | Some (ValidDate t) =>
            JS.Normal
              (DB.put (getNetworkStorageKey
                         LAST_NOTIFIED_ERROR_STORAGE_KEY (network r))
                      (toISOString t))
        | Some InvalidDate => JS.Throw "RangeError"
        | None =>
            JS.Normal
              (DB.del (getNetworkStorageKey
                         LAST_NOTIFIED_ERROR_STORAGE_KEY (network r)))
        end in
      let lastProcessedBlockOp :=
        match lastProcessedBlock r with
        | Some n =>
            DB.put (getNetworkStorageKey
                      LAST_PROCESSED_BLOCK_STORAGE_KEY (network r))
                   (JS.number_toString n)
        | None =>
            DB.del (getNetworkStorageKey
                      LAST_PROCESSED_BLOCK_STORAGE_KEY (network r))
        end in
      match lastNotifiedErrorOp with
      | JS.Throw e => JS.Throw e
      | JS.Normal op =>
          JS.Normal (DB.batch_write (batch ++ [op; lastProcessedBlockOp]) storage)
      end
  end.

End WithPlatform.

(** *** Valid registries, and equality of registries by value *)

(** The values that [JSON.stringify] with [replacer] followed by
    [JSON.parse] with [_reviver] can give back as they were: no
    [undefined], no number that is not finite, no plain object tagged as
    a [Map] or a [Set], and [Map] keys and [Set] elements pairwise
    different. *)
Fixpoint stable (v : jsval) : bool :=
  match v with
  | VUndefined | VNonFinite _ => false
  | VNull | VBool _ | VNum _ | VStr _ => true
  | VArr l => forallb stable l
  | VObj props =>
      negb (is_string (get_prop "dataType" props) "Map")
      && negb (is_string (get_prop "dataType" props) "Set")
      && forallb (fun p => stable p.2) props
  | VMap entries =>
      distinct (map fst entries)
      && forallb (fun e => stable e.1 && stable e.2) entries
  | VSet l => distinct l && forallb stable l
  end.

(** A value comes back at a budget: it is serialised to some tree under every key,
    and the tree is internalised to the value. *)
Definition comes_back (n : nat) (v : jsval) : Prop :=
  forall key, exists j,
    SerializeJSONProperty replacer n key v = Some (Some j) /\
    InternalizeJSONProperty _reviver key j = Some v.

(** The [orders] map has one entry per order UID, and the poll result is
    plain data. *)
Definition valid_order (c : ConditionalOrder) : Prop :=
  NoDup (orders c).*1 /\
  match pollResult c with
  | Some r => stable (result r) = true
  | None => True
  end.

(** A valid registry: it is at the schema version of the class, its map
    has one entry per owner, its orders are valid and its date, if any, is
    a date. *)
Definition valid (r : Registry) : Prop :=
  version r = CONDITIONAL_ORDER_REGISTRY_VERSION /\
  NoDup (ownerOrders r).*1 /\
  Forall (fun e => Forall valid_order e.2) (ownerOrders r) /\
  lastNotifiedError r <> Some InvalidDate.

(** Two params objects hold the same three values. *)
Definition params_value_eq (a b : ConditionalOrderParamsStruct) : Prop :=
  handler a = handler b /\ salt a = salt b /\ staticInput a = staticInput b.

(** Two orders are equal by value when they agree on everything but the
    references of the objects and the shape of the params, of which the
    three values are compared. *)
Definition order_value_eq (a b : ConditionalOrder) : Prop :=
  tx a = tx b /\
  params_value_eq (params a) (params b) /\
  proof a = proof b /\
  orders a = orders b /\
  composableCow a = composableCow b /\
  pollResult a = pollResult b.

Definition ownerOrders_value_eq (m m' : OwnerOrders) : Prop :=
  Forall2 (fun e e' => e.1 = e'.1 /\ Forall2 order_value_eq e.2 e'.2) m m'.

Definition registry_value_eq (r r' : Registry) : Prop :=
  version r = version r' /\
  ownerOrders_value_eq (ownerOrders r) (ownerOrders r') /\
  network r = network r' /\
  lastNotifiedError r = lastNotifiedError r' /\
  lastProcessedBlock r = lastProcessedBlock r'.

(** The shape in which a params object that was written is read back:
    what was an array, with or without names, is a plain array. *)
Definition read_back_shape (s : ParamsShape) : ParamsShape :=
  match s with
  | PlainStruct => PlainStruct
  | DecodedResult | PlainArray => PlainArray
  end.

(** [c'] is what is read back for the order [c] that was written: the
    same values, with the params in the shape in which they are read
    back. *)
Definition order_read_back (c' c : ConditionalOrder) : Prop :=
  order_value_eq c' c /\
  params_shape (params c') = read_back_shape (params_shape (params c)).

Definition ownerOrders_read_back (m' m : OwnerOrders) : Prop :=
  Forall2 (fun e' e => e'.1 = e.1 /\ Forall2 order_read_back e'.2 e.2) m' m.

End Model.

(** ** A platform whose texts are numerals *)

(** The laws of the platform can be met: here the text of a JSON tree is
    the numeral of a code of the tree, and the text of a date is the
    numeral of its time value. *)
Module Numerals.
Import JSON.

Fixpoint to_tree (j : json) : gen_tree (bool + Z + string) :=
  match j with
  | JNull => GenNode 0 []
  | JBool b => GenLeaf (inl (inl b))
  | JNum z => GenLeaf (inl (inr z))
  | JStr s => GenLeaf (inr s)
  | JArr l => GenNode 1 (map to_tree l)
  | JObj ms =>
      GenNode 2 (map (fun m => GenNode 3 [GenLeaf (inr m.1); to_tree m.2]) ms)
  end.

Fixpoint of_tree (t : gen_tree (bool + Z + string)) : option json :=
  match t with
  | GenLeaf (inl (inl b)) => Some (JBool b)
  | GenLeaf (inl (inr z)) => Some (JNum z)
  | GenLeaf (inr s) => Some (JStr s)
  | GenNode 0 _ => Some JNull
  | GenNode 1 ts =>
      option_map JArr
        ((fix go ts := match ts with
                       | [] => Some []
                       | t :: ts' =>
                           match of_tree t, go ts' with
                           | Some j, Some js => Some (j :: js)
                           | _, _ => None
                           end
                       end) ts)
  | GenNode 2 ts =>
      option_map JObj
        ((fix go ts := match ts with
                       | [] => Some []
                       | GenNode 3 [GenLeaf (inr k); t] :: ts' =>
                           match of_tree t, go ts' with
                           | Some j, Some ms => Some ((k, j) :: ms)
                           | _, _ => None
                           end
                       | _ => None
                       end) ts)
  | _ => None
  end.

Definition JSON_text (j : json) : string :=
  JS.toString (Z.pos (encode (to_tree j))).

Definition JSON_tree (text : string) : option json :=
  match text with
  | EmptyString => None
  | _ => match JS.Number text with
         | JS.Int (Z.pos p) => decode p ≫= of_tree
         | _ => None
         end
  end.

Definition toISOString (t : Z) : string := JS.toString t.

Definition Date_parse (text : string) : option Z :=
  match text with
  | EmptyString => None
  | _ => match JS.Number text with
         | JS.Int t => Some t
         | JS.NaN => None
         end
  end.

#[export] Instance platform : Platform :=
  Build_Platform JSON_text JSON_tree toISOString Date_parse.

End Numerals.

(** ** Registering and flushing conditional orders (addContract.ts) *)

Module AddContract.
Import Model.

(** [a === b] on two params objects: the same reference. *)
Definition params_strict_equal (a b : ConditionalOrderParamsStruct) : bool :=
  Nat.eqb (params_ref a) (params_ref b).

(** [registry.ownerOrders] after [f] has worked on the registry's map. *)
Definition with_ownerOrders (registry : Registry) (m : OwnerOrders)
  : Registry :=
  {| version := version registry;
     ownerOrders := m;
     network := network registry;
     lastNotifiedError := lastNotifiedError registry;
     lastProcessedBlock := lastProcessedBlock registry |}.

(** [add].  The object literal it inserts is a new object: it takes the
    next free reference [heap]; the result carries the next one. *)
Definition add (tx : string) (owner : Owner)
    (params : ConditionalOrderParamsStruct) (proof : option Proof)
    (composableCow : string) (registry : Registry) (heap : nat)
  : Registry * nat :=
  let conditionalOrder :=
    {| ref := heap; tx := tx; params := params; proof := proof;
       orders := []; composableCow := composableCow; pollResult := None |} in
  if Map_has owner (ownerOrders registry) then
    match Map_get owner (ownerOrders registry) with
    | Some conditionalOrders =>
        let exists_ :=
          existsb (fun conditionalOrder =>
                     params_strict_equal (Model.params conditionalOrder) params)
                  conditionalOrders in
        if negb exists_ then
          (with_ownerOrders registry
             (Map_set owner (Set_add conditionalOrder conditionalOrders)
                (ownerOrders registry)),
           S heap)
        else (registry, heap)
    | None => (registry, heap)
    end
  else
    (with_ownerOrders registry
       (Map_set owner [conditionalOrder] (ownerOrders registry)),
     S heap).

(** The test of [flush]: [proof !== null && proof.merkleRoot !== root]. *)
Definition stale (root : string) (conditionalOrder : ConditionalOrder) : bool :=
  match Model.proof conditionalOrder with
  | Some proof => negb (String.eqb (merkleRoot proof) root)
  | None => false
  end.

(** [flush]: the loop runs over the elements of the set and deletes
    from the set it runs over; only the element in hand is deleted, so
    every element of the set at the start is visited. *)
Definition flush (owner : Owner) (root : string) (registry : Registry)
  : Registry :=
  if Map_has owner (ownerOrders registry) then
    match Map_get owner (ownerOrders registry) with
    | Some conditionalOrders =>
        with_ownerOrders registry
          (Map_set owner
             (foldl (fun s conditionalOrder =>
                       if stale root conditionalOrder
                       then Set_delete conditionalOrder s else s)
                    conditionalOrders conditionalOrders)
             (ownerOrders registry))
    | None => registry
    end
  else registry.

End AddContract.

(** ** The chain context: blocks, warm-up, block watcher, health *)

Module ChainContext.

Inductive ChainSync :=
| SYNCING
| IN_SYNC
| UNKNOWN.

(** [providers.Block], the fields the sources read. *)
Record Block := {
  number : Z;
  timestamp : Z;
  hash : string;
}.

(** The persisted block cursor. *)
Record RegistryBlock := {
  rb_number : Z;
  rb_timestamp : Z;
  rb_hash : string;
}.

(** Modelled from the spec: [blockToRegistryBlock] (types, not among the
    sources) gives the cursor [{ number, hash, timestamp }] of a block. *)
Definition blockToRegistryBlock (block : Block) : RegistryBlock :=
  {| rb_number := number block;
     rb_timestamp := timestamp block;
     rb_hash := hash block |}.

(** The registry of this version: the cursor is a [RegistryBlock]. *)
Record Registry := {
  ownerOrders : Model.OwnerOrders;
  lastProcessedBlock : option RegistryBlock;
}.

(** A log and the [ConditionalOrderCreatedEvent] decoded from it. *)
Record ConditionalOrderCreatedEvent := {
  blockNumber : Z;
  logIndex : Z;
  transactionHash : string;
  address : string;
  owner : string;
}.

Inductive BlockTag :=
| latest
| at_number (n : Z).

Record ChainContext := {
  deploymentBlock : Z;
  pageSize : Z;
  processEveryNumBlocks : Z;
  addresses : option (list string);
  chainId : Z;
  sync : ChainSync;
  registry : Registry;
}.

Definition with_registry (context : ChainContext) (r : Registry)
  : ChainContext :=
  {| deploymentBlock := deploymentBlock context;
     pageSize := pageSize context;
     processEveryNumBlocks := processEveryNumBlocks context;
     addresses := addresses context;
     chainId := chainId context;
     sync := sync context;
     registry := r |}.

(** The gauges, counters and histogram the chain context reports to. *)
Record Metrics := {
  blockHeight : Z;
  blockProducingRate : Z;
  reorgsTotal : Z;
  reorgDepth : Z;
  eventsProcessedTotal : Z;
  processBlockDurationSeconds : Z;
}.

(** What a run does to the outside, in order. *)
Inductive Effect :=
| addContract_called (event : ConditionalOrderCreatedEvent) (ok : bool)
| checkForAndPlaceOrder_called (block : Block)
    (blockNumberOverride blockTimestampOverride : option Z) (ok : bool)
| registry_written (r : Registry)
| error_logged (message : string)
| error_thrown (message : string).

Record World := {
  context : ChainContext;
  metrics : Metrics;
  effects : list Effect;
}.

(** The collaborators of the chain context that are not among the
    sources: the provider, the event handler, the order poller and the
    registry's store. *)
Record Env := {
  (** [provider.getBlock(tag)] *)
  getBlock : BlockTag -> JS.Completion Block;
  (** [provider.getTransactionReceipt(hash)]: is there a receipt? *)
  getTransactionReceipt : string -> JS.Completion bool;
  (** [provider.getLogs] for the topic of the event *)
  getLogs : Z -> BlockTag -> JS.Completion (list ConditionalOrderCreatedEvent);
  (** [decodeEventLog]: does the log decode? *)
  decodes : ConditionalOrderCreatedEvent -> bool;
  (** [addContract(context, event)]: the registry after it, and whether
      its promise was fulfilled *)
  addContract : ConditionalOrderCreatedEvent -> Registry -> Registry * bool;
  (** [checkForAndPlaceOrder(context, block, overrides)] *)
  checkForAndPlaceOrder :
    Block -> option Z -> option Z -> Registry -> Registry * bool;
  (** [registry.write()] *)
  registry_write : Registry -> JS.Completion unit;
}.

Definition emit (e : Effect) (w : World) : World :=
  {| context := context w; metrics := metrics w;
     effects := effects w ++ [e] |}.

Definition set_registry (r : Registry) (w : World) : World :=
  {| context := with_registry (context w) r; metrics := metrics w;
     effects := effects w |}.

Definition set_metrics (m : Metrics) (w : World) : World :=
  {| context := context w; metrics := m; effects := effects w |}.

Definition inc_eventsProcessedTotal (m : Metrics) : Metrics :=
  {| blockHeight := blockHeight m;
     blockProducingRate := blockProducingRate m;
     reorgsTotal := reorgsTotal m;
     reorgDepth := reorgDepth m;
     eventsProcessedTotal := eventsProcessedTotal m + 1;
     processBlockDurationSeconds := processBlockDurationSeconds m |}.

Definition observe_processBlockDuration (m : Metrics) : Metrics :=
  {| blockHeight := blockHeight m;
     blockProducingRate := blockProducingRate m;
     reorgsTotal := reorgsTotal m;
     reorgDepth := reorgDepth m;
     eventsProcessedTotal := eventsProcessedTotal m;
     processBlockDurationSeconds := processBlockDurationSeconds m + 1 |}.

Definition set_blockHeight (n : Z) (m : Metrics) : Metrics :=
  {| blockHeight := n;
     blockProducingRate := blockProducingRate m;
     reorgsTotal := reorgsTotal m;
     reorgDepth := reorgDepth m;
     eventsProcessedTotal := eventsProcessedTotal m;
     processBlockDurationSeconds := processBlockDurationSeconds m |}.

Definition set_blockProducingRate (t : Z) (m : Metrics) : Metrics :=
  {| blockHeight := blockHeight m;
     blockProducingRate := t;
     reorgsTotal := reorgsTotal m;
     reorgDepth := reorgDepth m;
     eventsProcessedTotal := eventsProcessedTotal m;
     processBlockDurationSeconds := processBlockDurationSeconds m |}.

Definition record_reorg (depth : Z) (m : Metrics) : Metrics :=
  {| blockHeight := blockHeight m;
     blockProducingRate := blockProducingRate m;
     reorgsTotal := reorgsTotal m + 1;
     reorgDepth := depth;
     eventsProcessedTotal := eventsProcessedTotal m;
     processBlockDurationSeconds := processBlockDurationSeconds m |}.

Definition block_error := "Errors found in processing block".

Section WithEnv.
Variable env : Env.

(** The loop of [processBlock] over the events: [addContract] for
    every event whose transaction has a receipt.  The result is
    [hasErrors], or the rejection of the provider. *)
Fixpoint addContracts (events : list ConditionalOrderCreatedEvent)
    (hasErrors : bool) (w : World) : World * JS.Completion bool :=
  match events with
  | [] => (w, JS.Normal hasErrors)
  | event :: events' =>
      match getTransactionReceipt env (transactionHash event) with
      | JS.Throw e => (w, JS.Throw e)
      | JS.Normal receipt =>
          if receipt then
            let '(r, result) :=
              addContract env event (registry (context w)) in
            let w := set_registry r w in
            let w := emit (addContract_called event result) w in
            let w := if result then w
                     else emit (error_logged
                                  "Error running addContract action for TX:") w in
            let w := set_metrics (inc_eventsProcessedTotal (metrics w)) w in
            addContracts events' (hasErrors || negb result) w
          else addContracts events' hasErrors w
      end
  end.

(** [processBlock] *)
Definition processBlock (block : Block)
    (events : list ConditionalOrderCreatedEvent)
    (blockNumberOverride blockTimestampOverride : option Z) (w : World)
  : World * JS.Completion unit :=
  match addContracts events false w with
  | (w, JS.Throw e) => (w, JS.Throw e)
  | (w, JS.Normal hasErrors) =>
      let shouldProcessBlock :=
        JS.is_zero (JS.rem (number block)
                      (processEveryNumBlocks (context w))) in
      let '(w, hasErrors) :=
        if shouldProcessBlock then
          let '(r, result) :=
            checkForAndPlaceOrder env block blockNumberOverride
              blockTimestampOverride (registry (context w)) in
          let w := set_registry r w in
          let w := emit (checkForAndPlaceOrder_called block
                           blockNumberOverride blockTimestampOverride
                           result) w in
          let w := if result then w
                   else emit (error_logged
                                "Error running checkForAndPlaceOrder action") w in
          (w, hasErrors || negb result)
        else (w, hasErrors) in
      let w := set_metrics (observe_processBlockDuration (metrics w)) w in
      if hasErrors then (emit (error_thrown block_error) w, JS.Throw block_error)
      else (w, JS.Normal tt)
  end.

(** [persistLastProcessedBlock] *)
Definition persistLastProcessedBlock (block : Block) (w : World)
  : World * JS.Completion (option RegistryBlock) :=
  let blockNumber := number block in
  let r := {| ownerOrders := ownerOrders (registry (context w));
              lastProcessedBlock := Some (blockToRegistryBlock block) |} in
  let w := set_registry r w in
  match registry_write env r with
  | JS.Throw e => (w, JS.Throw e)
  | JS.Normal _ =>
      let w := emit (registry_written r) w in
      let w := set_metrics (set_blockHeight blockNumber (metrics w)) w in
      (w, JS.Normal (lastProcessedBlock (registry (context w))))
  end.

(** [processBlockAndPersist] *)
Definition processBlockAndPersist (blockNumber : Z)
    (events : list ConditionalOrderCreatedEvent)
    (currentBlock : option Block) (w : World)
  : World * JS.Completion (option RegistryBlock) :=
  match getBlock env (at_number blockNumber) with
  | JS.Throw e => (w, JS.Throw e)
  | JS.Normal block =>
      let '(w, completion) :=
        processBlock block events
          (number <$> currentBlock) (timestamp <$> currentBlock) w in
      let w :=
        match completion with
        | JS.Throw err => emit (error_logged "Error processing block") w
        | JS.Normal _ => w
        end in
      persistLastProcessedBlock block w
  end.

(** The [TypeError] of reading [owner] of [undefined]. *)
Definition ARGS_TYPE_ERROR :=
  "TypeError: Cannot read properties of undefined (reading 'owner')".

(** [pollContractForEvents]: the logs that decode.  The last filter
    reads [e.args.owner] when the context has a list of owners, and the
    objects it is given, [{ ...decoded, ...event }], have the decoded
    [owner] and the fields of the log but no [args]: with a list, empty
    or not, the filter throws at the first log that decoded. *)
Definition pollContractForEvents (fromBlock : Z) (toBlock : BlockTag)
    (context : ChainContext)
  : JS.Completion (list ConditionalOrderCreatedEvent) :=
  match getLogs env fromBlock toBlock with
  | JS.Throw e => JS.Throw e
  | JS.Normal logs =>
      let decoded := List.filter (decodes env) logs in
      match addresses context with
      | None => JS.Normal decoded
      | Some _ =>
          match decoded with
          | [] => JS.Normal []
          | _ :: _ => JS.Throw ARGS_TYPE_ERROR
          end
      end
  end.

(** The [reduce] of [warmUp] that groups the events of a page by
    block number. *)
Definition eventsByBlock (events : list ConditionalOrderCreatedEvent)
  : gmap Z (list ConditionalOrderCreatedEvent) :=
  foldl (fun acc event =>
           match acc !! blockNumber event with
           | Some events => <[blockNumber event := events ++ [event]]> acc
           | None => <[blockNumber event := [event]]> acc
           end) ∅ events.

(** The loop of [warmUp] over the sorted keys. *)
Fixpoint processBlocks (keys : list string)
    (eventsByBlock : gmap Z (list ConditionalOrderCreatedEvent))
    (currentBlock : Block) (w : World) : World * JS.Completion unit :=
  match keys with
  | [] => (w, JS.Normal tt)
  | blockNumberKey :: keys' =>
      match JS.Number blockNumberKey with
      | JS.NaN => (w, JS.Throw "invalid block number")
      | JS.Int blockNumber =>
          match processBlockAndPersist blockNumber
                  (default [] (eventsByBlock !! blockNumber))
                  (Some currentBlock) w with
          | (w, JS.Throw e) => (w, JS.Throw e)
          | (w, JS.Normal _) =>
              processBlocks keys' eventsByBlock currentBlock w
          end
      end
  end.

(** One page of [warmUp], from the fetch of its events to the
    persisting of [toBlock]. *)
Definition warmUpPage (fromBlock : Z) (toBlock : BlockTag)
    (currentBlock : Block) (w : World)
  : World * JS.Completion (option RegistryBlock) :=
  match pollContractForEvents fromBlock toBlock (context w) with
  | JS.Throw e => (w, JS.Throw e)
  | JS.Normal events =>
      let eventsByBlock := eventsByBlock events in
      match processBlocks (JS.sort (JS.Object_keys eventsByBlock))
              eventsByBlock currentBlock w with
      | (w, JS.Throw e) => (w, JS.Throw e)
      | (w, JS.Normal _) =>
          match getBlock env toBlock with
          | JS.Throw e => (w, JS.Throw e)
          | JS.Normal block => persistLastProcessedBlock block w
          end
      end
  end.

(** The listener of [runBlockWatcher]: the world and
    [lastBlockReceived] after a block number has arrived. *)
Definition onBlock (blockNumber : Z) (lastBlockReceived : Block) (w : World)
  : World * Block :=
  match getBlock env (at_number blockNumber) with
  | JS.Throw e =>
      (emit (error_logged "Error in pollContractForEvents for block") w,
       lastBlockReceived)
  | JS.Normal block =>
      let _blockTime := timestamp block - timestamp lastBlockReceived in
      let w := set_metrics (set_blockProducingRate _blockTime (metrics w)) w in
      let w :=
        if (blockNumber <=? number lastBlockReceived)
           && negb (String.eqb (hash block) (hash lastBlockReceived))
        then set_metrics
               (record_reorg (number lastBlockReceived - blockNumber + 1)
                  (metrics w)) w
        else w in
      match pollContractForEvents blockNumber (at_number blockNumber)
              (context w) with
      | JS.Throw e =>
          (emit (error_logged "Error in pollContractForEvents for block") w,
           block)
      | JS.Normal events =>
          match processBlockAndPersist blockNumber events None w with
          | (w, JS.Throw e) =>
              (emit (error_logged
                       "Error in pollContractForEvents for block") w,
               block)
          | (w, JS.Normal _) => (w, block)
          end
      end
  end.

End WithEnv.

(** *** Health *)

Record ChainHealth := {
  health_sync : ChainSync;
  health_chainId : Z;
  health_lastProcessedBlock : option RegistryBlock;
  isHealthy_ : bool;
}.

Record ChainWatcherHealth := {
  overallHealth : bool;
  chains : gmap Z ChainHealth;
}.

(** [isHealthy()] of a chain *)
Definition isHealthy (chain : ChainContext) : bool :=
  match sync chain with
  | IN_SYNC => true
  | _ => false
  end.

(** [get health()] of a chain *)
Definition health (chain : ChainContext) : ChainHealth :=
  {| health_sync := sync chain;
     health_chainId := chainId chain;
     health_lastProcessedBlock := lastProcessedBlock (registry chain);
     isHealthy_ := isHealthy chain |}.

(** [static get health()]: the reduction over
    [Object.values(ChainContext.chains)]. *)
Definition static_health (chains_ : gmap Z ChainContext) : ChainWatcherHealth :=
  foldl (fun acc chain =>
           {| chains := <[chainId chain := health chain]> (chains acc);
              overallHealth := overallHealth acc && isHealthy chain |})
        {| chains := ∅; overallHealth := true |}
        (JS.Object_values chains_).

(** [static isHealthy()] *)
Definition static_isHealthy (chains_ : gmap Z ChainContext) : bool :=
  overallHealth (static_health chains_).

(** *** Reading a run's effects *)

(** The events handed to [addContract], in order. *)
Definition ingested (effects : list Effect)
  : list ConditionalOrderCreatedEvent :=
  omap (fun e => match e with
                 | addContract_called event _ => Some event
                 | _ => None
                 end) effects.

(** How many times the Order Poller ([checkForAndPlaceOrder]) ran. *)
Definition poller_calls (effects : list Effect) : nat :=
  length (List.filter (fun e => match e with
                                | checkForAndPlaceOrder_called _ _ _ _ => true
                                | _ => false
                                end) effects).

(** Did a sub-step report an error? *)
Definition sub_step_failed (effects : list Effect) : bool :=
  existsb (fun e => match e with
                    | addContract_called _ false => true
                    | checkForAndPlaceOrder_called _ _ _ false => true
                    | _ => false
                    end) effects.

(** How many block-level errors were thrown. *)
Definition block_errors_thrown (effects : list Effect) : nat :=
  length (List.filter (fun e => match e with
                                | error_thrown _ => true
                                | _ => false
                                end) effects).

(** The cursors written to the store, in order. *)
Definition cursors_written (effects : list Effect)
  : list (option RegistryBlock) :=
  omap (fun e => match e with
                 | registry_written r => Some (lastProcessedBlock r)
                 | _ => None
                 end) effects.

(** The block numbers of the cursors written to the store, in order. *)
Definition cursor_numbers (effects : list Effect) : list Z :=
  omap (fun e => match e with
                 | registry_written r => rb_number <$> lastProcessedBlock r
                 | _ => None
                 end) effects.

(** Does the transaction of an event have a receipt? *)
Definition has_receipt (env : Env) (event : ConditionalOrderCreatedEvent)
  : bool :=
  match getTransactionReceipt env (transactionHash event) with
  | JS.Normal receipt => receipt
  | JS.Throw _ => false
  end.

(** The provider answers the receipt lookups of these events. *)
Definition receipts_answered (env : Env)
    (events : list ConditionalOrderCreatedEvent) : Prop :=
  Forall (fun event =>
            exists receipt,
              getTransactionReceipt env (transactionHash event)
              = JS.Normal receipt) events.

(** What block processing leaves alone: the configuration of the context
    and the reorg metrics. *)
Definition frame (w w' : World) : Prop :=
  processEveryNumBlocks (context w') = processEveryNumBlocks (context w) /\
  addresses (context w') = addresses (context w) /\
  reorgsTotal (metrics w') = reorgsTotal (metrics w) /\
  reorgDepth (metrics w') = reorgDepth (metrics w) /\
  blockProducingRate (metrics w') = blockProducingRate (metrics w).

(** The gate of the Order Poller in [processBlock]. *)
Definition shouldProcessBlock (context : ChainContext) (block : Block) : bool :=
  JS.is_zero (JS.rem (number block) (processEveryNumBlocks context)).

End ChainContext.

(** ** The filter-policy reload guard of [processBlock] (domain/chainContext.ts) *)

Module FilterReload.

Definition FILTER_FREQUENCY_SECS : Z := 60 * 60.

(** [SupportedChainId.GNOSIS_CHAIN] of the SDK. *)
Definition GNOSIS_CHAIN : Z := 100.
Definition MAINNET : Z := 1.

(** [FILTER_FREQUENCY_SECS / (chainId === GNOSIS_CHAIN ? 5 : 12)] *)
Definition blocksPerFilterFrequency (chainId : Z) : option Z :=
  JS.div FILTER_FREQUENCY_SECS (if chainId =? GNOSIS_CHAIN then 5 else 12).

(** [FILTER_FREQUENCY_SECS / blocksPerFilterFrequency] *)
Definition reloadModulus (chainId : Z) : option Z :=
  b ← blocksPerFilterFrequency chainId;
  JS.div FILTER_FREQUENCY_SECS b.

(** [block.number % (FILTER_FREQUENCY_SECS / blocksPerFilterFrequency)] *)
Definition reloadRemainder (chainId blockNumber : Z) : option JS.number :=
  m ← reloadModulus chainId;
  Some (JS.rem blockNumber m).

(** The guard of [filterPolicy.reloadPolicies()]:
    [filterPolicy && block.number % (...) == 0]. *)
Definition shouldReloadPolicies
    (hasFilterPolicy : bool) (chainId blockNumber : Z) : bool :=
  hasFilterPolicy &&
  match reloadRemainder chainId blockNumber with
  | Some r => JS.is_zero r
  | None => false
  end.

End FilterReload.

(** ** Sample chains, blocks and events *)

Module Sample.
Import ChainContext.

Definition block (n : Z) : Block :=
  {| number := n; timestamp := 1700000000 + 12 * n;
     hash := ("0xb" +:+ JS.toString n)%string |}.

(** The same height after a reorganisation: another hash. *)
Definition reorged_block (n : Z) : Block :=
  {| number := n; timestamp := 1700000000 + 12 * n;
     hash := ("0xc" +:+ JS.toString n)%string |}.

Definition event (n : Z) (tx : string) : ConditionalOrderCreatedEvent :=
  {| blockNumber := n; logIndex := 0; transactionHash := tx;
     address := "0xfdaFc9d1902f4e0b84f65F49f244b32b31013b74";
     owner := "0x0000000000000000000000000000000000000a11" |}.

(** A provider and a store that answer, an event handler and an order
    poller that succeed or fail as told, and the logs of a page. *)
Definition env (blocks : Z -> Block) (logs : list ConditionalOrderCreatedEvent)
    (addContract_ok checkForAndPlaceOrder_ok : bool) : Env :=
  {| getBlock := fun tag => match tag with
                            | at_number n => JS.Normal (blocks n)
                            | latest => JS.Normal (blocks 10000000)
                            end;
     getTransactionReceipt := fun _ => JS.Normal true;
     getLogs := fun _ _ => JS.Normal logs;
     decodes := fun _ => true;
     addContract := fun _ r => (r, addContract_ok);
     checkForAndPlaceOrder := fun _ _ _ r => (r, checkForAndPlaceOrder_ok);
     registry_write := fun _ => JS.Normal tt |}.

Definition world (processEveryNumBlocks_ : Z) : World :=
  {| context := {| deploymentBlock := 0; pageSize := 5000;
                   processEveryNumBlocks := processEveryNumBlocks_;
                   addresses := None; chainId := 1; sync := SYNCING;
                   registry := {| ownerOrders := [];
                                  lastProcessedBlock := None |} |};
     metrics := {| blockHeight := 0; blockProducingRate := 0;
                   reorgsTotal := 0; reorgDepth := 0;
                   eventsProcessedTotal := 0;
                   processBlockDurationSeconds := 0 |};
     effects := [] |}.

End Sample.

(** ** Sample owners, orders and registries *)

Module SampleRegistry.
Import Model.

Definition alice : Owner := "0x0000000000000000000000000000000000000a11".
Definition bob : Owner := "0x0000000000000000000000000000000000000b0b".

Definition twap : string := "0x6cF1e9cA41f7611dEf408122793c358a3d11E5a5".
Definition root1 : string :=
  "0x1111111111111111111111111111111111111111111111111111111111111111".
Definition root2 : string :=
  "0x2222222222222222222222222222222222222222222222222222222222222222".

(** The params object that the decoder creates at reference [r]. *)
Definition params_at (r : nat) (salt_ : string) : ConditionalOrderParamsStruct :=
  {| params_ref := r; params_shape := DecodedResult; handler := twap;
     salt := salt_; staticInput := "0x00" |}.

Definition order (r : nat) (salt_ : string) (proof_ : option Proof)
  : ConditionalOrder :=
  {| ref := r; tx := "0xaa"; params := params_at r salt_; proof := proof_;
     orders := []; composableCow := "0xfdaFc9d1902f4e0b84f65F49f244b32b31013b74";
     pollResult := None |}.

Definition merkle (root : string) : option Proof :=
  Some {| merkleRoot := root; path := ["0x01"; "0x02"] |}.

Definition registry (m : OwnerOrders) : Registry :=
  new_Registry m "1" None None.

(** Alice has one single order, created from the params at reference 0. *)
Definition one_order : Registry := registry [(alice, [order 0 "0x01" None])].

(** Alice has a single order and merkle orders under two roots; Bob has a
    merkle order under the first root. *)
Definition merkle_orders : Registry :=
  registry [(alice, [order 0 "0x01" None; order 1 "0x02" (merkle root1);
                     order 2 "0x03" (merkle root2);
                     order 3 "0x04" (merkle root1)]);
            (bob, [order 4 "0x05" (merkle root1)])].

(** Alice has an order that was polled and has a discrete order; Bob's
    set is empty; an error was notified and block 150 was processed. *)
Definition polled : Registry :=
  {| version := CONDITIONAL_ORDER_REGISTRY_VERSION;
     ownerOrders :=
       [(alice,
         [{| ref := 0; tx := "0xaa"; params := params_at 0 "0x01";
             proof := merkle root1;
             orders := [("0x5b1d", SUBMITTED); ("0x77aa", FILLED)];
             composableCow := "0xfdaFc9d1902f4e0b84f65F49f244b32b31013b74";
             pollResult :=
               Some {| lastExecutionTimestamp := 1700001800;
                       blockNumber := 150;
                       result :=
                         JSON.VObj [("result", JSON.VStr "TRY_NEXT_BLOCK");
                                    ("reason", JSON.VStr "too early")] |} |}]);
        (bob, [])];
     network := "1";
     lastNotifiedError := Some (ValidDate 1700000000000);
     lastProcessedBlock := Some (JS.Int 150) |}.

End SampleRegistry.

(** ** Sample stores *)

Module SampleStore.
Import Model.

Definition version_key : string :=
  getNetworkStorageKey CONDITIONAL_ORDER_REGISTRY_VERSION_KEY "1".

(** The store that [write] leaves for the registry in which Alice has one
    order. *)
Definition written : gmap string string :=
  match write (H := Numerals.platform) SampleRegistry.one_order ∅ with
  | JS.Normal storage => storage
  | JS.Throw _ => ∅
  end.

(** The same store without its version key, and with a lower version. *)
Definition without_version : gmap string string := delete version_key written.
Definition lower_version : gmap string string := <[version_key := "0"]> written.

End SampleStore.

(** ** Timing an action (utils/metrics) *)

Module Metrics.

(** What [measureTime] does to its metrics and with its callbacks, in
    order. *)
Inductive Call :=
| timer_started
| action_called
| errorMetric_inc
| errorHandler_called (err : string)
| timer_stopped
| totalRunsMetric_inc.

Definition MISSING_ERROR_METRIC :=
  "errorMetric must be defined if errorHandler is defined".

(** [measureTime].  [action] is the completion of [action()];
    [errorHandler] is [undefined] ([None]) or the handler; [errorMetric]
    says whether the error counter was given. *)
Definition measureTime {T} (action : JS.Completion T)
    (errorHandler : option (string -> JS.Completion T)) (errorMetric : bool)
  : list Call * JS.Completion T :=
  let calls := [timer_started] in
  (* try { result = action() } catch (err) { ... } *)
  let '(calls, completion) :=
    match action with
    | JS.Normal result => (calls ++ [action_called], JS.Normal result)
    | JS.Throw err =>
        let calls := calls ++ [action_called] in
        match errorHandler with
        | None => (calls, JS.Throw err)
        | Some errorHandler =>
            if negb errorMetric then (calls, JS.Throw MISSING_ERROR_METRIC)
            else
              let calls := calls ++ [errorMetric_inc] in
              (calls ++ [errorHandler_called err], errorHandler err)
        end
    end in
  (* finally { timer() } *)
  let calls := calls ++ [timer_stopped] in
  match completion with
  | JS.Throw err => (calls, JS.Throw err)
  | JS.Normal result => (calls ++ [totalRunsMetric_inc], JS.Normal result)
  end.

(** How many of the calls are of a kind. *)
Definition times (kind : Call -> bool) (calls : list Call) : nat :=
  length (List.filter kind calls).

Definition is_timer_started (c : Call) : bool :=
  match c with timer_started => true | _ => false end.

Definition is_timer_stopped (c : Call) : bool :=
  match c with timer_stopped => true | _ => false end.

Definition is_totalRunsMetric_inc (c : Call) : bool :=
  match c with totalRunsMetric_inc => true | _ => false end.

Definition is_errorMetric_inc (c : Call) : bool :=
  match c with errorMetric_inc => true | _ => false end.

Definition is_errorHandler_called (c : Call) : bool :=
  match c with errorHandler_called _ => true | _ => false end.

End Metrics.

(** ** Console logging with a Loggly buffer (actions/utils/logging.ts) *)

Module Logging.

Inductive LogLevel :=
| warn
| info
| error
| debug.

(** The functions of [console] that [initLogging] saves and overrides. *)
Inductive ConsoleMethod :=
| console_log
| console_warn
| console_error
| console_debug
| console_info.

Section WithData.
(** What is logged: the arguments of a [console] call are values of any
    kind. *)
Variable any : Type.

Record LogMessage := {
  level : LogLevel;
  message : any;
  meta : option (list any);
}.

(** [getLoggingMessage] *)
Definition getLoggingMessage (level : LogLevel) (data : list any)
  : option LogMessage :=
  match data with
  | message :: ((_ :: _) as meta) =>
      Some {| level := level; message := message; meta := Some meta |}
  | [message] => Some {| level := level; message := message; meta := None |}
  | [] => None
  end.

(** The state of the module and of what it talks to: the [initialized]
    flag, the mode and the buffer that the closure of [initLogging]
    holds, the transports added to winston, the messages given to
    [winston.log], and the calls of the original console functions. *)
Record Logger := {
  initialized : bool;
  logOnlyIfError : bool;
  transports : list (string * list string);
  buffer : list LogMessage;
  winston_log : list LogMessage;
  console : list (ConsoleMethod * list any);
}.

Definition start : Logger :=
  {| initialized := false; logOnlyIfError := false; transports := [];
     buffer := []; winston_log := []; console := [] |}.

(** [initLogging(logglyToken, tags, logOnlyIfError = false)] *)
Definition initLogging (logglyToken : string) (tags : list string)
    (logOnlyIfError_ : option bool) (st : Logger) : Logger :=
  if initialized st then st
  else
    {| initialized := true;
       logOnlyIfError := default false logOnlyIfError_;
       transports := transports st ++ [(logglyToken, tags)];
       buffer := [];
       winston_log := winston_log st;
       console := console st |}.

(** [consoleOriginal[level]] *)
Definition consoleOriginal (level : LogLevel) : ConsoleMethod :=
  match level with
  | warn => console_warn
  | info => console_info
  | error => console_error
  | debug => console_debug
  end.

Definition is_error (level : LogLevel) : bool :=
  match level with
  | error => true
  | _ => false
  end.

(** [logWithLoggly(level)(...data)] *)
Definition logWithLoggly (level : LogLevel) (data : list any) (st : Logger)
  : Logger :=
  let console_ := console st ++ [(consoleOriginal level, data)] in
  match getLoggingMessage level data with
  | None =>
      {| initialized := initialized st; logOnlyIfError := logOnlyIfError st;
         transports := transports st; buffer := buffer st;
         winston_log := winston_log st; console := console_ |}
  | Some loggingMessage =>
      if logOnlyIfError st then
        if is_error level then
          (* printAndClearBuffer(); winston.log(loggingMessage) *)
          {| initialized := initialized st;
             logOnlyIfError := logOnlyIfError st;
             transports := transports st;
             buffer := [];
             winston_log := (winston_log st ++ buffer st) ++ [loggingMessage];
             console := console_ |}
        else
          {| initialized := initialized st;
             logOnlyIfError := logOnlyIfError st;
             transports := transports st;
             buffer := buffer st ++ [loggingMessage];
             winston_log := winston_log st;
             console := console_ |}
      else
        {| initialized := initialized st;
           logOnlyIfError := logOnlyIfError st;
           transports := transports st;
           buffer := buffer st;
           winston_log := winston_log st ++ [loggingMessage];
           console := console_ |}
  end.

(** The level that [initLogging] gives to a function of [console]:
    [console.log] is overridden by [logWithLoggly("info")]. *)
Definition overriding_level (method : ConsoleMethod) : LogLevel :=
  match method with
  | console_info | console_log => info
  | console_warn => warn
  | console_error => error
  | console_debug => debug
  end.

(** What the program does with the module: it initialises it, or calls
    a function of [console]. *)
Inductive Action :=
| init (logglyToken : string) (tags : list string)
    (logOnlyIfError_ : option bool)
| call (method : ConsoleMethod) (data : list any).

(** A call of a function of [console]: the original function before
    [initLogging], its override afterwards. *)
Definition step (st : Logger) (a : Action) : Logger :=
  match a with
  | init logglyToken tags logOnlyIfError_ =>
      initLogging logglyToken tags logOnlyIfError_ st
  | call method data =>
      if initialized st then logWithLoggly (overriding_level method) data st
      else
        {| initialized := initialized st;
           logOnlyIfError := logOnlyIfError st;
           transports := transports st; buffer := buffer st;
           winston_log := winston_log st;
           console := console st ++ [(method, data)] |}
  end.

Definition run (actions : list Action) (st : Logger) : Logger :=
  foldl step st actions.

(** The messages of the calls of a run, in order: one for every call
    that has arguments. *)
Definition messages (actions : list Action) : list LogMessage :=
  omap (fun a => match a with
                 | call method data =>
                     getLoggingMessage (overriding_level method) data
                 | init _ _ _ => None
                 end) actions.

End WithData.

Arguments level {any} _.
Arguments message {any} _.
Arguments meta {any} _.
Arguments initialized {any} _.
Arguments logOnlyIfError {any} _.
Arguments transports {any} _.
Arguments buffer {any} _.
Arguments winston_log {any} _.
Arguments console {any} _.
Arguments start {any}.
Arguments init {any} _ _ _.
Arguments call {any} _ _.

End Logging.

(** ** The [numOrders] getter of the registry (types) *)

Module RegistryClass.
Import Model.

(** [Array.prototype.flatMap]: what the callback returns is spread into
    the result when it is an array, and is one element of the result
    when it is anything else. *)
Definition Array_flatMap {A U} (callback : A -> list U + U) (l : list A)
  : list U :=
  concat (map (fun x => match callback x with
                        | inl elems => elems
                        | inr u => [u]
                        end) l).

(** [Array.from(m.values())] of a [Map]. *)
Definition Map_values {V} (m : list (string * V)) : list V := m.*2.

(** [get numOrders()]: the callback of [flatMap] returns the [Set] it is
    given, and a [Set] is not an array. *)
Definition numOrders (r : Registry) : nat :=
  length (Array_flatMap (fun o : list ConditionalOrder => inr o)
            (Map_values (ownerOrders r))).

End RegistryClass.

(** ** Handling the events of the contract (addContract.ts) *)

Module Events.
Import Model AddContract.

(** A log, as the provider gives it. *)
Record Log := {
  log_topics : list string;
  log_data : string;
  log_transactionHash : string;
  log_address : string;
}.

(** [ComposableCoW.ProofStruct].  [location] is declared a
    [BigNumberish] and is a number here; the decoder of ethers returns
    a [BigNumber] for it, which [===] tells from every number, so that
    what holds below of a location other than 1 is what holds of a
    decoded log. *)
Record ProofStruct := {
  location : Z;
  proof_data : string;
}.

(** The fields of a decoded [ConditionalOrderParamsStruct]. *)
Record DecodedParams := {
  decoded_handler : string;
  decoded_salt : string;
  decoded_staticInput : string;
}.

(** [{ error, added }] *)
Record Registered := {
  error : bool;
  added : bool;
}.

Section WithCodec.
(** An element of the [bytes[]] decoded from the data of a proof. *)
Variable ProofItem : Type.

(** The interface of the contract and the ABI coder, which are not among
    the sources.  A decoder throws on what it cannot decode. *)
Record Codec := {
  (** [composableCow.getEventTopic(name)] *)
  getEventTopic : string -> string;
  (** [decodeEventLog("ConditionalOrderCreated", data, topics)] *)
  decode_ConditionalOrderCreated :
    string -> list string -> JS.Completion (Owner * DecodedParams);
  (** [decodeEventLog("MerkleRootSet", data, topics)] *)
  decode_MerkleRootSet :
    string -> list string -> JS.Completion (Owner * string * ProofStruct);
  (** [defaultAbiCoder.decode(["bytes[]"], proof.data)], as the loop
      iterates it *)
  decode_proof_data : string -> JS.Completion (list ProofItem);
  (** [defaultAbiCoder.decode(["bytes32[]", "tuple(...)"], order)] *)
  decode_proof_order :
    ProofItem -> JS.Completion (list string * DecodedParams);
}.

(** The collaborators of [_addContract] that are not among the sources. *)
Record Services := {
  (** [provider.getCode(address)] *)
  getCode : string -> JS.Completion string;
  isComposableCowCompatible : string -> bool;
  (** [writeRegistry()]: did the write succeed? *)
  writeRegistry : JS.Completion bool;
  handleExecutionError : string -> JS.Completion unit;
}.

Variable composableCow : Codec.
Variable services : Services.

(** [event.topics[0] === topic]; without a first topic the comparison
    is with [undefined]. *)
Definition topic0_is (event : Log) (topic : string) : bool :=
  match log_topics event with
  | topic0 :: _ => String.eqb topic0 topic
  | [] => false
  end.

(** The params object that a decoder creates, at the next free
    reference. *)
Definition decoded_at (heap : nat) (d : DecodedParams)
  : ConditionalOrderParamsStruct :=
  {| params_ref := heap; params_shape := DecodedResult;
     handler := decoded_handler d; salt := decoded_salt d;
     staticInput := decoded_staticInput d |}.

(** The loop of [_registerNewOrder] over the decoded proof data. *)
Fixpoint add_proof_orders (event : Log) (owner : Owner) (root : string)
    (proofData : list ProofItem) (registry : Registry) (heap : nat)
    (added : bool) : Registry * nat * Registered :=
  match proofData with
  | [] => (registry, heap, {| error := false; added := added |})
  | order :: proofData' =>
      match decode_proof_order composableCow order with
      | JS.Throw _ => (registry, heap, {| error := true; added := added |})
      | JS.Normal (path, decodedOrder1) =>
          let '(registry, heap) :=
            add (log_transactionHash event) owner
              (decoded_at heap decodedOrder1)
              (Some {| merkleRoot := root; path := path |})
              (log_address event) registry (S heap) in
          add_proof_orders event owner root proofData' registry heap true
      end
  end.

(** [_registerNewOrder]: the registry is changed in place, so what was
    done before a decoder throws stays done. *)
Definition _registerNewOrder (event : Log) (registry : Registry) (heap : nat)
  : Registry * nat * Registered :=
  if topic0_is event (getEventTopic composableCow "ConditionalOrderCreated")
  then
    match decode_ConditionalOrderCreated composableCow
            (log_data event) (log_topics event) with
    | JS.Throw _ => (registry, heap, {| error := true; added := false |})
    | JS.Normal (owner, params) =>
        let '(registry, heap) :=
          add (log_transactionHash event) owner (decoded_at heap params) None
            (log_address event) registry (S heap) in
        (registry, heap, {| error := false; added := true |})
    end
  else if topic0_is event (getEventTopic composableCow "MerkleRootSet")
  then
    match decode_MerkleRootSet composableCow
            (log_data event) (log_topics event) with
    | JS.Throw _ => (registry, heap, {| error := true; added := false |})
    | JS.Normal (owner, root, proof) =>
        let registry := flush owner root registry in
        if location proof =? 1 then
          match decode_proof_data composableCow (proof_data proof) with
          | JS.Throw _ =>
              (registry, heap, {| error := true; added := false |})
          | JS.Normal proofData =>
              add_proof_orders event owner root proofData registry heap false
          end
        else (registry, heap, {| error := false; added := false |})
    end
  else (registry, heap, {| error := false; added := false |}).

Definition ADD_CONTRACT_ERROR :=
  "[addContract] Error adding conditional order. Event: ".

(** [_addContract]: the registry and the heap after it, whether
    [writeRegistry] was called, and its completion. *)
Definition _addContract (event : Log) (registry : Registry) (heap : nat)
  : Registry * nat * bool * JS.Completion unit :=
  match getCode services (log_address event) with
  | JS.Throw e => (registry, heap, false, JS.Throw e)
  | JS.Normal code =>
      if negb (isComposableCowCompatible services code) then
        (registry, heap, false, JS.Normal tt)
      else
        let '(registry, heap, registered) :=
          _registerNewOrder event registry heap in
        let hasErrors := false in
        (* hasErrors ||= error *)
        let hasErrors := if hasErrors then hasErrors else error registered in
        (* hasErrors ||= !(await writeRegistry()) *)
        if hasErrors then
          (registry, heap, false, JS.Throw ADD_CONTRACT_ERROR)
        else
          match writeRegistry services with
          | JS.Throw e => (registry, heap, true, JS.Throw e)
          | JS.Normal written =>
              if negb written then
                (registry, heap, true, JS.Throw ADD_CONTRACT_ERROR)
              else (registry, heap, true, JS.Normal tt)
          end
  end.

(** [addContract]: [_addContract(...).catch(handleExecutionError)] *)
Definition addContract (event : Log) (registry : Registry) (heap : nat)
  : Registry * nat * bool * JS.Completion unit :=
  match _addContract event registry heap with
  | (registry, heap, written, JS.Throw e) =>
      (registry, heap, written, handleExecutionError services e)
  | done => done
  end.

End WithCodec.

Arguments getEventTopic {ProofItem} _ _.
Arguments decode_ConditionalOrderCreated {ProofItem} _ _ _.
Arguments decode_MerkleRootSet {ProofItem} _ _ _.
Arguments decode_proof_data {ProofItem} _ _.
Arguments decode_proof_order {ProofItem} _ _.
Arguments add_proof_orders {ProofItem} _ _ _ _ _ _ _ _.
Arguments _registerNewOrder {ProofItem} _ _ _ _.
Arguments _addContract {ProofItem} _ _ _ _ _.
Arguments addContract {ProofItem} _ _ _ _ _.

(** Every object of the registry was created before the next free
    reference. *)
Definition fresh (heap : nat) (registry : Registry) : Prop :=
  Forall (fun e =>
            Forall (fun c => (ref c < heap)%nat
                             /\ (params_ref (params c) < heap)%nat) e.2)
         (ownerOrders registry).

(** The orders of an owner; none when the owner is not in the map. *)
Definition orders_of (owner : Owner) (registry : Registry)
  : list ConditionalOrder :=
  default [] (Map_get owner (ownerOrders registry)).

(** The orders of an owner that carry a proof all carry this root. *)
Definition all_under_root (owner : Owner) (root : string)
    (registry : Registry) : Prop :=
  forall s c p, Map_get owner (ownerOrders registry) = Some s ->
                c ∈ s -> proof c = Some p -> merkleRoot p = root.

End Events.

(** ** A registry of another chain *)

Module SampleTwoChains.

(** The registry of Gnosis chain (chain 100): Bob has one order, and
    block 77 was processed. *)
Definition gnosis : Model.Registry :=
  Model.new_Registry
    [(SampleRegistry.bob, [SampleRegistry.order 0 "0x07" None])]
    "100" None (Some (JS.Int 77)).

End SampleTwoChains.

(** ** The keys of a network in the store *)

Module StorageKeys.
Import Model.

(** The four keys under which [Registry.write] stores a registry. *)
Definition keys_of (network : string) : list string :=
  [getNetworkStorageKey CONDITIONAL_ORDER_REGISTRY_VERSION_KEY network;
   getNetworkStorageKey CONDITIONAL_ORDER_REGISTRY_STORAGE_KEY network;
   getNetworkStorageKey LAST_NOTIFIED_ERROR_STORAGE_KEY network;
   getNetworkStorageKey LAST_PROCESSED_BLOCK_STORAGE_KEY network].

End StorageKeys.

(** ** The life of a chain context: creation, warm-up, block watcher *)

Module Lifecycle.
Import ChainContext.

Definition WATCHDOG_TIMEOUT_DEFAULT_SECS : Z := 30.
Definition PAGE_SIZE_DEFAULT : Z := 5000.

(** [ContextOptions], the options that the constructor reads; an option
    that is not given is [undefined] ([None]). *)
Record ContextOptions := {
  opt_deploymentBlock : Z;
  opt_pageSize : option Z;
  opt_processEveryNumBlocks : option Z;
  opt_watchdogTimeout : option Z;
  opt_owners : option (list string);
}.

(** The constructor; [sync] is initialised by the class field. *)
Definition new_ChainContext (options : ContextOptions) (chainId_ : Z)
    (registry_ : Registry) : ChainContext :=
  {| deploymentBlock := opt_deploymentBlock options;
     pageSize := default PAGE_SIZE_DEFAULT (opt_pageSize options);
     processEveryNumBlocks := default 1 (opt_processEveryNumBlocks options);
     addresses := opt_owners options;
     chainId := chainId_;
     sync := SYNCING;
     registry := registry_ |}.

(** [this.watchdogTimeout] *)
Definition watchdogTimeout (options : ContextOptions) : Z :=
  default WATCHDOG_TIMEOUT_DEFAULT_SECS (opt_watchdogTimeout options).

(** [ChainContext.init].  [getNetwork] is the completion of
    [provider.getNetwork()] (its [chainId]) and [Registry_load] is
    [Registry.load] on the store; the context is saved in the static map
    [ChainContext.chains]. *)
Definition init (getNetwork : JS.Completion Z)
    (Registry_load : string -> Z -> JS.Completion Registry)
    (options : ContextOptions) (chains_ : gmap Z ChainContext)
  : gmap Z ChainContext * JS.Completion ChainContext :=
  match getNetwork with
  | JS.Throw e => (chains_, JS.Throw e)
  | JS.Normal chainId_ =>
      match Registry_load (JS.toString chainId_)
              (opt_deploymentBlock options) with
      | JS.Throw e => (chains_, JS.Throw e)
      | JS.Normal registry_ =>
          let context := new_ChainContext options chainId_ registry_ in
          (<[chainId_ := context]> chains_, JS.Normal context)
      end
  end.

Definition with_sync (context : ChainContext) (s : ChainSync)
  : ChainContext :=
  {| deploymentBlock := deploymentBlock context;
     pageSize := pageSize context;
     processEveryNumBlocks := processEveryNumBlocks context;
     addresses := addresses context;
     chainId := chainId context;
     sync := s;
     registry := registry context |}.

(** [this.sync = s] *)
Definition set_sync (s : ChainSync) (w : World) : World :=
  {| context := with_sync (context w) s; metrics := metrics w;
     effects := effects w |}.

(** *** [warmUp] *)

(** How [warmUp] ends: warmed up, with the block it hands to the block
    watcher; rejected; or still syncing when the allowance of pages is
    used up. *)
Inductive Outcome :=
| warmed_up (w : World) (currentBlock : Block) (clock : nat)
| rejected (w : World) (e : string)
| still_syncing (w : World).

(** The variables of the loops of [warmUp]: the number of times
    [provider.getBlock("latest")] has been asked, [fromBlock],
    [currentBlock], [lastProcessedBlock] and the world. *)
Definition Loop : Type :=
  nat * Z * Block * option RegistryBlock * World.

Section WithProvider.
(** The provider, the handlers and the store change while the chain
    grows: [envs k] is what they answer once the loops of [warmUp] have
    asked [provider.getBlock("latest")] [k] times; a page is processed
    against the answers at its start. *)
Variable envs : nat -> Env.

(** The end of the outer loop: the current block is refreshed, and the
    chain is in sync when the last processed block is the current one. *)
Definition syncCheck (clock : nat) (lastProcessedBlock_ : option RegistryBlock)
    (w : World) : Outcome + Loop :=
  match getBlock (envs (S clock)) latest with
  | JS.Throw e => inl (rejected w e)
  | JS.Normal currentBlock =>
      let lastProcessedBlockNumber :=
        match lastProcessedBlock_ with
        | Some b => rb_number b
        | None => 0
        end in
      if number currentBlock =? lastProcessedBlockNumber then
        inl (warmed_up (set_sync IN_SYNC w) currentBlock (S clock))
      else
        let fromBlock := lastProcessedBlockNumber + 1 in
        match sync (context w) with
        | SYNCING =>
            inr (S clock, fromBlock, currentBlock, lastProcessedBlock_, w)
        | _ => inl (warmed_up w currentBlock (S clock))
        end
  end.

(** One turn of the inner loop, with the end of the outer loop when the
    inner loop ends. *)
Definition page (clock : nat) (fromBlock : Z) (currentBlock : Block)
    (lastProcessedBlock_ : option RegistryBlock) (w : World)
  : Outcome + Loop :=
  let pageSize := pageSize (context w) in
  let toBlock :=
    if pageSize =? 0 then latest else at_number (fromBlock + (pageSize - 1)) in
  let refreshed : JS.Completion (nat * Block * BlockTag * bool) :=
    match toBlock with
    | at_number n =>
        if number currentBlock <? n then
          match getBlock (envs (S clock)) latest with
          | JS.Throw e => JS.Throw e
          | JS.Normal currentBlock =>
              JS.Normal
                (S clock, currentBlock,
                 at_number (if number currentBlock <? n
                            then number currentBlock else n),
                 number currentBlock <? fromBlock)
          end
        else JS.Normal (clock, currentBlock, toBlock, false)
    | latest => JS.Normal (clock, currentBlock, toBlock, false)
    end in
  match refreshed with
  | JS.Throw e => inl (rejected w e)
  | JS.Normal (clock, currentBlock, toBlock, break) =>
      if break then
        syncCheck clock lastProcessedBlock_ (set_sync IN_SYNC w)
      else
        match warmUpPage (envs clock) fromBlock toBlock currentBlock w with
        | (w, JS.Throw e) => inl (rejected w e)
        | (w, JS.Normal lastProcessedBlock_) =>
            match toBlock with
            | at_number n =>
                let fromBlock := n + 1 in
                if negb (n =? number currentBlock) then
                  inr (clock, fromBlock, currentBlock, lastProcessedBlock_, w)
                else syncCheck clock lastProcessedBlock_ w
            | latest => syncCheck clock lastProcessedBlock_ w
            end
        end
  end.

(** The loops of [warmUp], for at most [fuel] pages. *)
Fixpoint pages (fuel : nat) (clock : nat) (fromBlock : Z)
    (currentBlock : Block) (lastProcessedBlock_ : option RegistryBlock)
    (w : World) : Outcome :=
  match fuel with
  | O => still_syncing w
  | S fuel =>
      match page clock fromBlock currentBlock lastProcessedBlock_ w with
      | inl outcome => outcome
      | inr (clock, fromBlock, currentBlock, lastProcessedBlock_, w) =>
          pages fuel clock fromBlock currentBlock lastProcessedBlock_ w
      end
  end.

(** [warmUp], up to the point where it returns (one-shot) or hands
    [currentBlock] to [runBlockWatcher]. *)
Definition warmUp (fuel : nat) (w : World) : Outcome :=
  let lastProcessedBlock_ := lastProcessedBlock (registry (context w)) in
  let w :=
    set_metrics
      (set_blockHeight (match lastProcessedBlock_ with
                        | Some b => rb_number b
                        | None => 0
                        end) (metrics w)) w in
  let fromBlock :=
    match lastProcessedBlock_ with
    | Some b => rb_number b + 1
    | None => deploymentBlock (context w)
    end in
  match getBlock (envs 1) latest with
  | JS.Throw e => rejected w e
  | JS.Normal currentBlock =>
      pages fuel 1 fromBlock currentBlock lastProcessedBlock_ w
  end.

End WithProvider.

(** *** [runBlockWatcher] *)

(** What wakes the block watcher: a block of the provider, with the
    provider, the handlers and the store as they are when it arrives,
    or the end of a sleep of the watchdog, with the time in
    milliseconds. *)
Inductive Signal :=
| block_arrived (env : Env) (blockNumber : Z)
| watchdog_woke (time : Z) (isRunningInKubernetesPod : bool).

Record Watcher := {
  watcher_world : World;
  lastBlockReceived : Block;
  (** the code of [process.exit], once the process has exited *)
  exit_code : option Z;
}.

Definition WATCHDOG_ERROR := "Chain watcher last processed a block".

(** One turn of the watchdog, after its sleep. *)
Definition watchdog (watchdogTimeout_ : Z) (time : Z)
    (isRunningInKubernetesPod : bool) (st : Watcher) : Watcher :=
  let now := time / 1000 in
  let timeElapsed := now - timestamp (lastBlockReceived st) in
  if watchdogTimeout_ <=? timeElapsed then
    let w := emit (error_logged WATCHDOG_ERROR) (watcher_world st) in
    if isRunningInKubernetesPod then
      {| watcher_world := set_sync UNKNOWN w;
         lastBlockReceived := lastBlockReceived st;
         exit_code := None |}
    else
      (* await registry.storage.close(); process.exit(1) *)
      {| watcher_world := w;
         lastBlockReceived := lastBlockReceived st;
         exit_code := Some 1 |}
  else st.

Definition signal (watchdogTimeout_ : Z) (st : Watcher) (s : Signal)
  : Watcher :=
  match exit_code st with
  | Some _ => st
  | None =>
      match s with
      | block_arrived env blockNumber =>
          let '(w, block) :=
            onBlock env blockNumber (lastBlockReceived st)
              (watcher_world st) in
          {| watcher_world := w; lastBlockReceived := block;
             exit_code := None |}
      | watchdog_woke time isRunningInKubernetesPod =>
          watchdog watchdogTimeout_ time isRunningInKubernetesPod st
      end
  end.

(** [runBlockWatcher(lastProcessedBlock)] over what wakes it. *)
Definition runBlockWatcher (watchdogTimeout_ : Z) (lastProcessedBlock_ : Block)
    (signals : list Signal) (w : World) : Watcher :=
  foldl (signal watchdogTimeout_)
    {| watcher_world := w; lastBlockReceived := lastProcessedBlock_;
       exit_code := None |} signals.

(** Block processing changes nothing of the context but its registry. *)
Definition only_registry_changed (w w' : World) : Prop :=
  context w' = with_registry (context w) (registry (context w')).

End Lifecycle.

(** ** A provider that stands still *)

Module SampleChain.
Import ChainContext.

(** The logs of the chain: two events, in the blocks 9995000 and
    9999999. *)
Definition logs : list ConditionalOrderCreatedEvent :=
  [Sample.event 9995000 "0xa1"; Sample.event 9999999 "0xa2"].

(** The provider of a chain whose tip stays at block 10000000; it
    returns the logs of the blocks that are asked for. *)
Definition envs (k : nat) : Env :=
  {| getBlock := fun tag => match tag with
                            | at_number n => JS.Normal (Sample.block n)
                            | latest => JS.Normal (Sample.block 10000000)
                            end;
     getTransactionReceipt := fun _ => JS.Normal true;
     getLogs :=
       fun fromBlock toBlock =>
         JS.Normal
           (List.filter
              (fun e => (fromBlock <=? blockNumber e)
                        && match toBlock with
                           | at_number n => blockNumber e <=? n
                           | latest => true
                           end) logs);
     decodes := fun _ => true;
     addContract := fun _ r => (r, true);
     checkForAndPlaceOrder := fun _ _ _ r => (r, true);
     registry_write := fun _ => JS.Normal tt |}.

(** A context that processed block [n] last. *)
Definition world_at (n : Z) : World :=
  {| context := {| deploymentBlock := 0; pageSize := 5000;
                   processEveryNumBlocks := 1;
                   addresses := None; chainId := 1; sync := SYNCING;
                   registry :=
                     {| ownerOrders := [];
                        lastProcessedBlock :=
                          Some (blockToRegistryBlock (Sample.block n)) |} |};
     metrics := {| blockHeight := 0; blockProducingRate := 0;
                   reorgsTotal := 0; reorgDepth := 0;
                   eventsProcessedTotal := 0;
                   processBlockDurationSeconds := 0 |};
     effects := [] |}.

End SampleChain.

(** ** Providers and stores that fail *)

Module SampleFailures.
Import ChainContext.

(** The provider has no answer for the receipt of transaction [0xbad]. *)
Definition lost_receipt : Env :=
  {| getBlock := fun tag => match tag with
                            | at_number n => JS.Normal (Sample.block n)
                            | latest => JS.Normal (Sample.block 10000000)
                            end;
     getTransactionReceipt :=
       fun tx => if String.eqb tx "0xbad" then JS.Throw "timeout"
                 else JS.Normal true;
     getLogs := fun _ _ => JS.Normal [];
     decodes := fun _ => true;
     addContract := fun _ r => (r, true);
     checkForAndPlaceOrder := fun _ _ _ r => (r, true);
     registry_write := fun _ => JS.Normal tt |}.

(** The store rejects every write. *)
Definition store_down : Env :=
  {| getBlock := fun tag => match tag with
                            | at_number n => JS.Normal (Sample.block n)
                            | latest => JS.Normal (Sample.block 10000000)
                            end;
     getTransactionReceipt := fun _ => JS.Normal true;
     getLogs := fun _ _ => JS.Normal [];
     decodes := fun _ => true;
     addContract := fun _ r => (r, true);
     checkForAndPlaceOrder := fun _ _ _ r => (r, true);
     registry_write := fun _ => JS.Throw "IO error" |}.

End SampleFailures.

(** ** Running and stopping the watch-tower (commands/run) *)

Module Commands.

(** What [run] and [stop] do to the services and to the process, in
    order. *)
Inductive Step :=
| api_start_called
| init_called
| warmUp_called
| api_stop_called
| db_close_called
| error_logged (message : string)
| info_logged (message : string)
| process_exit (code : Z).

(** The services that [run] drives, which are not among the sources:
    how each of their promises settles. *)
Record Services := {
  (** [ApiService.getInstance(apiPort).start()] *)
  api_start : JS.Completion unit;
  (** [ChainContext.init(options, storage)] *)
  ChainContext_init : JS.Completion unit;
  (** [chainContext.warmUp(...)]; [None] when it never settles: it
      returns in one-shot mode only, and otherwise ends in the block
      watcher, whose loop goes on until the process exits or something
      is rejected *)
  chainContext_warmUp : option (JS.Completion unit);
  (** [ApiService.getInstance().stop()] *)
  api_stop : JS.Completion unit;
  (** [DBService.getInstance().close()] *)
  db_close : JS.Completion unit;
}.

Definition STOP_ERROR := "Error stopping service".
Definition RUN_ERROR := "Unexpected error thrown when running watchtower".

(** What [Promise.allSettled(...).then(...)] logs for a service. *)
Definition settled (result : JS.Completion unit) : list Step :=
  match result with
  | JS.Throw _ => [error_logged STOP_ERROR]
  | JS.Normal _ => []
  end.

(** [stop(exitCode)]; [exitCode] is optional. *)
Definition stop (services : Services) (exitCode : option Z) : list Step :=
  [api_stop_called; db_close_called]
  ++ settled (api_stop services) ++ settled (db_close services)
  ++ [info_logged "Exiting watchtower...";
      (* process.exit(exitCode || 0) *)
      process_exit (match exitCode with
                    | Some code => if code =? 0 then 0 else code
                    | None => 0
                    end)].

(** The handlers that [run] installs once the API has started: of an
    unhandled rejection and of the interrupt signal. *)
Definition on_unhandledRejection (services : Services) : list Step :=
  error_logged "Unhandled promise rejection" :: stop services (Some 1).

Definition on_SIGINT (services : Services) : list Step :=
  info_logged "Caught interrupt signal." :: stop services None.

(** [run(options)]: what it does, and how its promise ends: [None] when
    it never settles.  When the API does not start, [run] is rejected
    before its [try]; when [warmUp] never settles, neither does the
    [try], and [finally] is not reached. *)
Definition run (services : Services) (disableApi : bool)
  : list Step * option (JS.Completion unit) :=
  let '(steps, started) :=
    if negb disableApi then
      ([info_logged "Starting Rest API server..."; api_start_called],
       api_start services)
    else ([], JS.Normal tt) in
  match started with
  | JS.Throw e => (steps, Some (JS.Throw e))
  | JS.Normal _ =>
      (* try { init; warmUp } catch { exitCode = 1 } finally { stop } *)
      let '(steps, exitCode) :=
        match ChainContext_init services with
        | JS.Throw _ =>
            (steps ++ [init_called; error_logged RUN_ERROR], Some 1)
        | JS.Normal _ =>
            match chainContext_warmUp services with
            | Some (JS.Throw _) =>
                (steps ++ [init_called; warmUp_called; error_logged RUN_ERROR],
                 Some 1)
            | Some (JS.Normal _) =>
                (steps ++ [init_called; warmUp_called], Some 0)
            | None => (steps ++ [init_called; warmUp_called], None)
            end
        end in
      match exitCode with
      | Some exitCode =>
          (* process.exit ends the process *)
          (steps ++ stop services (Some exitCode), Some (JS.Normal tt))
      | None => (steps, None)
      end
  end.

Definition is_process_exit (s : Step) : bool :=
  match s with
  | process_exit _ => true
  | _ => false
  end.

End Commands.

(** ** Sample logs and a codec for them *)

Module SampleEvents.
Import Model Events.

Definition contract : string := "0xfdaFc9d1902f4e0b84f65F49f244b32b31013b74".

(** A codec whose topics are the names of the events: the data of a
    [ConditionalOrderCreated] log are the salt of Alice's order, the data
    of a [MerkleRootSet] log are the root, with two orders in its proof
    data; empty data do not decode. *)
Definition codec : Codec string :=
  {| getEventTopic := fun name => name;
     decode_ConditionalOrderCreated :=
       fun data _ =>
         match data with
         | EmptyString => JS.Throw "data out-of-bounds"
         | _ => JS.Normal
                  (SampleRegistry.alice,
                   {| decoded_handler := SampleRegistry.twap;
                      decoded_salt := data;
                      decoded_staticInput := "0x00" |})
         end;
     decode_MerkleRootSet :=
       fun data _ =>
         match data with
         | EmptyString => JS.Throw "data out-of-bounds"
         | _ => JS.Normal
                  (SampleRegistry.alice, data,
                   {| location := 1; proof_data := "0x0506" |})
         end;
     decode_proof_data := fun _ => JS.Normal ["0x05"; "0x06"];
     decode_proof_order :=
       fun order =>
         JS.Normal (["0x01"; "0x02"],
                    {| decoded_handler := SampleRegistry.twap;
                       decoded_salt := order;
                       decoded_staticInput := "0x00" |}) |}.

Definition created (salt_ : string) : Log :=
  {| log_topics := ["ConditionalOrderCreated"]; log_data := salt_;
     log_transactionHash := "0xbb"; log_address := contract |}.

Definition merkleRootSet (root : string) : Log :=
  {| log_topics := ["MerkleRootSet"]; log_data := root;
     log_transactionHash := "0xcc"; log_address := contract |}.

End SampleEvents.

(** ** Sample chains for the health report *)

Module SampleHealth.
Import ChainContext.

Definition options : Lifecycle.ContextOptions :=
  {| Lifecycle.opt_deploymentBlock := 17883049;
     Lifecycle.opt_pageSize := None;
     Lifecycle.opt_processEveryNumBlocks := None;
     Lifecycle.opt_watchdogTimeout := None;
     Lifecycle.opt_owners := None |}.

Definition empty_registry : Registry :=
  {| ownerOrders := []; lastProcessedBlock := None |}.

(** Mainnet is in sync at block 150, Gnosis chain is syncing. *)
Definition mainnet : ChainContext :=
  {| deploymentBlock := 17883049; pageSize := 5000;
     processEveryNumBlocks := 1; addresses := None; chainId := 1;
     sync := IN_SYNC;
     registry := {| ownerOrders := [];
                    lastProcessedBlock :=
                      Some (blockToRegistryBlock (Sample.block 150)) |} |}.

Definition gnosis : ChainContext :=
  Lifecycle.new_ChainContext options 100 empty_registry.

Definition chains_ : gmap Z ChainContext :=
  <[100 := gnosis]> {[1 := mainnet]}.

End SampleHealth.

(** ** A store with a date that does not parse *)

Module SampleCorruptStore.
Import Model.

Definition storage : gmap string string :=
  <[getNetworkStorageKey LAST_NOTIFIED_ERROR_STORAGE_KEY "1" := "yesterday"]>
    {[getNetworkStorageKey CONDITIONAL_ORDER_REGISTRY_STORAGE_KEY "1"
      := EmptyString]}.

End SampleCorruptStore.

(* ===================================================================== *)
(** * Part II. Theorems                                                   *)
(* ===================================================================== *)

(** ** Numbers and their texts *)

Lemma to_int_not_nil (z : Z) : Z.to_int z <> Pos Nil /\ Z.to_int z <> Neg Nil.
Proof.
  destruct z as [|p|p]; simpl; split; try discriminate;
    intros [= H]; by apply (DecimalPos.Unsigned.to_uint_nonnil p).
Qed.

Lemma toString_truthy (z : Z) : JS.truthy (JS.toString z) = true.
Proof.
  unfold JS.toString.
  destruct (to_int_not_nil z) as [Hpos Hneg].
  destruct (Z.to_int z) as [d|d]; simpl; [|done].
  by destruct d.
Qed.

Lemma Number_toString (z : Z) : JS.Number (JS.toString z) = JS.Int z.
Proof.
  pose proof (toString_truthy z) as Htruthy.
  unfold JS.Number. destruct (JS.toString z) eqn:Hs; [discriminate|].
  rewrite <- Hs. unfold JS.toString.
  destruct (to_int_not_nil z) as [Hpos Hneg].
  rewrite NilZero.isi by done. by rewrite DecimalZ.of_to.
Qed.

Lemma Number_number_toString (n : JS.number) :
  JS.Number (JS.number_toString n) = n /\
  JS.truthy (JS.number_toString n) = true.
Proof.
  destruct n as [z|]; simpl.
  - split; [apply Number_toString | apply toString_truthy].
  - by split.
Qed.

(** ** The filter-policy reload guard *)

Lemma reloadModulus_value chainId :
  FilterReload.reloadModulus chainId =
  Some (if chainId =? FilterReload.GNOSIS_CHAIN then 5 else 12).
Proof.
  unfold FilterReload.reloadModulus, FilterReload.blocksPerFilterFrequency.
  destruct (chainId =? FilterReload.GNOSIS_CHAIN); reflexivity.
Qed.

(** C9, as stated, fails: on mainnet the guard's remainder at block 1 is
    1, not 0, and the policy is not reloaded at that block. *)
Lemma C9_remainder_not_always_zero :
  FilterReload.reloadRemainder FilterReload.MAINNET 1 = Some (JS.Int 1) /\
  FilterReload.shouldReloadPolicies true FilterReload.MAINNET 1 = false /\
  ~ (forall chainId n,
       FilterReload.reloadRemainder chainId n = Some (JS.Int 0)).
Proof.
  split; [reflexivity|]. split; [reflexivity|].
  intros H. specialize (H FilterReload.MAINNET 1). discriminate H.
Qed.

(** C9, amended: the modulus of the guard is 5 on Gnosis chain and 12 on
    every other chain, so the remainder is [n rem 5] (resp. [n rem 12]) and
    the policy is reloaded exactly at the blocks whose number is divisible
    by 5 (resp. 12), when a filter policy is configured. *)
Theorem C9_reload_every_modulus_blocks (hasFilterPolicy : bool) (chainId n : Z) :
  let m := if chainId =? FilterReload.GNOSIS_CHAIN then 5 else 12 in
  FilterReload.blocksPerFilterFrequency chainId = Some (3600 / m) /\
  FilterReload.reloadRemainder chainId n = Some (JS.Int (Z.rem n m)) /\
  (FilterReload.shouldReloadPolicies hasFilterPolicy chainId n = true <->
   hasFilterPolicy = true /\ (m | n)).
Proof.
  intros m.
  assert (Hm : m = 5 \/ m = 12).
  { subst m. destruct (chainId =? FilterReload.GNOSIS_CHAIN); auto. }
  assert (Hrem : FilterReload.reloadRemainder chainId n =
                 Some (JS.Int (Z.rem n m))).
  { unfold FilterReload.reloadRemainder. rewrite reloadModulus_value.
    fold m. simpl. unfold JS.rem.
    destruct Hm as [-> | ->]; reflexivity. }
  split.
  { unfold FilterReload.blocksPerFilterFrequency. fold m.
    destruct Hm as [-> | ->]; reflexivity. }
  split; [exact Hrem|].
  unfold FilterReload.shouldReloadPolicies. rewrite Hrem. simpl.
  rewrite andb_true_iff, Z.eqb_eq.
  assert (Hdiv : Z.rem n m = 0 <-> (m | n)).
  { split.
    - intros H. apply Z.rem_divide; [destruct Hm; lia | exact H].
    - intros H. apply Z.rem_divide; [destruct Hm; lia | exact H]. }
  tauto.
Qed.

(** ** The static health aggregator *)

Lemma key_insert_perm {A} (x : Z * A) (l : list (Z * A)) :
  JS.key_insert x l ≡ₚ x :: l.
Proof.
  induction l as [|y l IH]; simpl; [done|].
  destruct (x.1 <=? y.1); [done|].
  rewrite IH. apply Permutation_swap.
Qed.

Lemma Object_entries_perm {A} (o : gmap Z A) :
  JS.Object_entries o ≡ₚ map_to_list o.
Proof.
  unfold JS.Object_entries.
  induction (map_to_list o) as [|x l IH]; simpl; [done|].
  rewrite key_insert_perm. by rewrite IH.
Qed.

Lemma static_health_fold (l : list ChainContext.ChainContext)
    (acc : ChainContext.ChainWatcherHealth) :
  ChainContext.overallHealth
    (foldl (fun acc chain =>
              {| ChainContext.chains :=
                   <[ChainContext.chainId chain := ChainContext.health chain]>
                     (ChainContext.chains acc);
                 ChainContext.overallHealth :=
                   ChainContext.overallHealth acc
                   && ChainContext.isHealthy chain |}) acc l)
  = ChainContext.overallHealth acc && forallb ChainContext.isHealthy l.
Proof.
  revert acc. induction l as [|c l IH]; intros acc; simpl.
  - by rewrite andb_true_r.
  - rewrite IH. simpl. by rewrite andb_assoc.
Qed.

Lemma isHealthy_IN_SYNC (c : ChainContext.ChainContext) :
  ChainContext.isHealthy c = true <-> ChainContext.sync c = ChainContext.IN_SYNC.
Proof.
  unfold ChainContext.isHealthy.
  destruct (ChainContext.sync c); split; congruence.
Qed.

(** C10: with no chain registered the static health aggregator reports
    [overallHealth = true]; in general [overallHealth] is true exactly
    when every registered chain is [IN_SYNC]. *)
Theorem C10_overall_health (chains : gmap Z ChainContext.ChainContext) :
  ChainContext.static_isHealthy ∅ = true /\
  ChainContext.overallHealth (ChainContext.static_health ∅) = true /\
  (ChainContext.overallHealth (ChainContext.static_health chains) = true <->
   forall (id : Z) (chain : ChainContext.ChainContext),
     chains !! id = Some chain ->
     ChainContext.sync chain = ChainContext.IN_SYNC).
Proof.
  split; [reflexivity|]. split; [reflexivity|].
  unfold ChainContext.static_health. rewrite static_health_fold. simpl.
  rewrite forallb_forall. unfold JS.Object_values.
  split.
  - intros Hall id chain Hlook. apply isHealthy_IN_SYNC, Hall.
    apply list_elem_of_In, list_elem_of_fmap.
    exists (id, chain). split; [done|].
    rewrite Object_entries_perm. by apply elem_of_map_to_list.
  - intros Hall chain Hin. apply isHealthy_IN_SYNC.
    apply list_elem_of_In, list_elem_of_fmap in Hin as [[id c] [-> Hin]].
    rewrite Object_entries_perm in Hin.
    apply elem_of_map_to_list in Hin. by apply (Hall id).
Qed.

(** ** Block processing *)

Section BlockProcessing.
Import ChainContext.
Variable env : Env.

Lemma frame_refl w : frame w w.
Proof. by repeat split. Qed.

Lemma frame_trans w1 w2 w3 : frame w1 w2 -> frame w2 w3 -> frame w1 w3.
Proof.
  unfold frame. intros (?&?&?&?&?) (?&?&?&?&?). repeat split; congruence.
Qed.

Lemma ingested_app l1 l2 : ingested (l1 ++ l2) = ingested l1 ++ ingested l2.
Proof. apply omap_app. Qed.

Lemma poller_calls_app l1 l2 :
  poller_calls (l1 ++ l2) = (poller_calls l1 + poller_calls l2)%nat.
Proof. unfold poller_calls. by rewrite List.filter_app, length_app. Qed.

Lemma block_errors_thrown_app l1 l2 :
  block_errors_thrown (l1 ++ l2)
  = (block_errors_thrown l1 + block_errors_thrown l2)%nat.
Proof. unfold block_errors_thrown. by rewrite List.filter_app, length_app. Qed.

Lemma sub_step_failed_app l1 l2 :
  sub_step_failed (l1 ++ l2) = sub_step_failed l1 || sub_step_failed l2.
Proof. apply existsb_app. Qed.

Lemma cursors_written_app l1 l2 :
  cursors_written (l1 ++ l2) = cursors_written l1 ++ cursors_written l2.
Proof. apply omap_app. Qed.

(** The loop over the events: every event with a receipt is handed to
    [addContract], nothing else happens, and the flag it returns says
    whether one of the calls failed. *)
Lemma addContracts_spec events : forall hasErrors w,
  receipts_answered env events ->
  exists w' new,
    addContracts env events hasErrors w
    = (w', JS.Normal (hasErrors || sub_step_failed new)) /\
    effects w' = effects w ++ new /\
    ingested new = List.filter (has_receipt env) events /\
    poller_calls new = O /\
    block_errors_thrown new = O /\
    cursors_written new = [] /\
    frame w w'.
Proof.
  induction events as [|event events IH]; intros hasErrors w Hrec.
  - exists w, []. simpl. rewrite orb_false_r, app_nil_r.
    repeat split; reflexivity.
  - apply Forall_cons in Hrec as [[receipt Hreceipt] Hrec].
    simpl. unfold has_receipt at 1. rewrite Hreceipt.
    destruct receipt.
    + destruct (addContract env event (registry (context w)))
        as [r result] eqn:Hadd.
      match goal with
      | |- context [addContracts env events ?h ?w0] =>
          destruct (IH h w0 Hrec) as (w' & new & Hrun & Heff & Hing & Hpoll
                                      & Hthrown & Hcur & Hframe)
      end.
      destruct result.
      * exists w', (addContract_called event true :: new).
        rewrite Hrun. simpl in *. rewrite Heff, <- !app_assoc. simpl.
        rewrite orb_false_r. repeat split; try done.
        -- by rewrite Hing.
        -- apply Hframe.
        -- apply Hframe.
        -- apply Hframe.
        -- apply Hframe.
        -- apply Hframe.
      * exists w', (addContract_called event false
                    :: error_logged "Error running addContract action for TX:"
                    :: new).
        rewrite Hrun. simpl in *. rewrite Heff, <- !app_assoc. simpl.
        rewrite orb_true_r. repeat split; try done.
        -- by rewrite Hing.
        -- apply Hframe.
        -- apply Hframe.
        -- apply Hframe.
        -- apply Hframe.
        -- apply Hframe.
    + destruct (IH hasErrors w Hrec) as (w' & new & Hrun & Hrest).
      exists w', new. by rewrite Hrun.
Qed.

Local Ltac close_spec Heff Hing Hpoll Hthrown Hcur Hframe :=
  simpl; rewrite ?Heff, <- ?app_assoc; simpl;
  rewrite ?ingested_app, ?poller_calls_app, ?block_errors_thrown_app,
    ?cursors_written_app, ?sub_step_failed_app, ?Hing, ?Hpoll, ?Hthrown, ?Hcur;
  simpl; rewrite ?app_nil_r, ?Nat.add_0_r;
  repeat split; try done; apply Hframe.

Lemma processBlock_spec block events o1 o2 w :
  receipts_answered env events ->
  exists w' new,
    processBlock env block events o1 o2 w
    = (w', if sub_step_failed new then JS.Throw block_error else JS.Normal tt) /\
    effects w' = effects w ++ new /\
    ingested new = List.filter (has_receipt env) events /\
    poller_calls new
    = (if shouldProcessBlock (context w) block then 1 else 0)%nat /\
    block_errors_thrown new = (if sub_step_failed new then 1 else 0)%nat /\
    cursors_written new = [] /\
    frame w w'.
Proof.
  intros Hrec. unfold processBlock, shouldProcessBlock.
  destruct (addContracts_spec events false w Hrec)
    as (w1 & new1 & Hrun & Heff & Hing & Hpoll & Hthrown & Hcur & Hframe).
  rewrite Hrun. simpl.
  assert (Hn : processEveryNumBlocks (context w1)
               = processEveryNumBlocks (context w)) by apply Hframe.
  rewrite Hn.
  destruct (JS.is_zero (JS.rem (number block) (processEveryNumBlocks (context w)))).
  - destruct (checkForAndPlaceOrder env block o1 o2 (registry (context w1)))
      as [r result] eqn:Hcheck.
    destruct result.
    + rewrite orb_false_r.
      destruct (sub_step_failed new1) eqn:Hfailed.
      * eexists _, (new1 ++ [checkForAndPlaceOrder_called block o1 o2 true;
                             error_thrown block_error]).
        rewrite sub_step_failed_app, Hfailed. simpl.
        split; [reflexivity|].
        close_spec Heff Hing Hpoll Hthrown Hcur Hframe.
      * eexists _, (new1 ++ [checkForAndPlaceOrder_called block o1 o2 true]).
        rewrite sub_step_failed_app, Hfailed. simpl.
        split; [reflexivity|].
        close_spec Heff Hing Hpoll Hthrown Hcur Hframe.
    + rewrite orb_true_r.
      eexists _, (new1 ++ [checkForAndPlaceOrder_called block o1 o2 false;
                           error_logged "Error running checkForAndPlaceOrder action";
                           error_thrown block_error]).
      rewrite sub_step_failed_app. simpl. rewrite orb_true_r.
      split; [reflexivity|].
        close_spec Heff Hing Hpoll Hthrown Hcur Hframe.
  - destruct (sub_step_failed new1) eqn:Hfailed; simpl.
    + eexists _, (new1 ++ [error_thrown block_error]).
      rewrite sub_step_failed_app, Hfailed. simpl.
      split; [reflexivity|].
        close_spec Heff Hing Hpoll Hthrown Hcur Hframe.
    + eexists _, new1. rewrite Hfailed.
      split; [reflexivity|].
      close_spec Heff Hing Hpoll Hthrown Hcur Hframe.
Qed.

(** What [processBlockAndPersist] does when the provider and the store
    answer: it runs [processBlock], logs its error if it threw one, writes
    the registry with the block as cursor and returns that cursor. *)
Lemma processBlockAndPersist_spec blockNumber block events currentBlock w :
  getBlock env (at_number blockNumber) = JS.Normal block ->
  receipts_answered env events ->
  (forall r, registry_write env r = JS.Normal tt) ->
  exists w' new r,
    processBlockAndPersist env blockNumber events currentBlock w
    = (w', JS.Normal (Some (blockToRegistryBlock block))) /\
    effects w' = effects w ++ new ++ [registry_written r] /\
    lastProcessedBlock r = Some (blockToRegistryBlock block) /\
    registry (context w') = r /\
    ingested new = List.filter (has_receipt env) events /\
    poller_calls new
    = (if shouldProcessBlock (context w) block then 1 else 0)%nat /\
    block_errors_thrown new = (if sub_step_failed new then 1 else 0)%nat /\
    cursors_written new = [] /\
    frame w w'.
Proof.
  intros Hblock Hrec Hwrite. unfold processBlockAndPersist. rewrite Hblock.
  destruct (processBlock_spec block events (number <$> currentBlock)
              (timestamp <$> currentBlock) w Hrec)
    as (w1 & new1 & Hrun & Heff & Hing & Hpoll & Hthrown & Hcur & Hframe).
  rewrite Hrun. unfold persistLastProcessedBlock.
  destruct (sub_step_failed new1) eqn:Hfailed; simpl; rewrite Hwrite; simpl.
  - eexists _, (new1 ++ [error_logged "Error processing block"]), _.
    split; [reflexivity|]. rewrite sub_step_failed_app, Hfailed.
    close_spec Heff Hing Hpoll Hthrown Hcur Hframe.
  - eexists _, new1, _.
    split; [reflexivity|]. rewrite Hfailed.
    close_spec Heff Hing Hpoll Hthrown Hcur Hframe.
Qed.


Lemma shouldProcessBlock_mod (c : ChainContext) (block : Block) :
  processEveryNumBlocks c <> 0 ->
  (shouldProcessBlock c block = true <->
   number block mod processEveryNumBlocks c = 0).
Proof.
  intros Hn. unfold shouldProcessBlock, JS.rem.
  destruct (processEveryNumBlocks c =? 0) eqn:Hz; [lia|]. simpl.
  rewrite Z.eqb_eq, Z.rem_divide, Z.mod_divide by done. tauto.
Qed.

(** C6: on every block that is processed, event ingestion and the
    persisting of the cursor take place whatever the block number is, and
    the Order Poller runs (once) exactly when the block number is
    [0 mod processEveryNumBlocks]; with [processEveryNumBlocks = 3],
    exactly on the blocks whose number is divisible by 3.  (With
    [processEveryNumBlocks = 0] the remainder is [NaN] and the poller
    never runs.) *)
Theorem C6_poller_every_n_blocks blockNumber block events currentBlock w :
  getBlock env (at_number blockNumber) = JS.Normal block ->
  receipts_answered env events ->
  (forall r, registry_write env r = JS.Normal tt) ->
  exists w' new r,
    processBlockAndPersist env blockNumber events currentBlock w
    = (w', JS.Normal (Some (blockToRegistryBlock block))) /\
    effects w' = effects w ++ new ++ [registry_written r] /\
    (processEveryNumBlocks (context w) <> 0 ->
     (poller_calls new = 1%nat <->
      number block mod processEveryNumBlocks (context w) = 0) /\
     (poller_calls new = 0%nat <->
      number block mod processEveryNumBlocks (context w) <> 0)) /\
    (processEveryNumBlocks (context w) = 3 ->
     (poller_calls new = 1%nat <-> (3 | number block)) /\
     (poller_calls new = 0%nat <-> ~ (3 | number block))) /\
    (processEveryNumBlocks (context w) = 0 -> poller_calls new = 0%nat) /\
    ingested new = List.filter (has_receipt env) events /\
    lastProcessedBlock r = Some (blockToRegistryBlock block) /\
    lastProcessedBlock (registry (context w'))
    = Some (blockToRegistryBlock block).
Proof.
  intros Hblock Hrec Hwrite.
  destruct (processBlockAndPersist_spec blockNumber block events currentBlock
              w Hblock Hrec Hwrite)
    as (w' & new & r & Hrun & Heff & Hcursor & Hreg & Hing & Hpoll & _).
  exists w', new, r.
  assert (Hgate : processEveryNumBlocks (context w) <> 0 ->
            (poller_calls new = 1%nat <->
             number block mod processEveryNumBlocks (context w) = 0) /\
            (poller_calls new = 0%nat <->
             number block mod processEveryNumBlocks (context w) <> 0)).
  { intros Hn. rewrite Hpoll, <- (shouldProcessBlock_mod _ _ Hn).
    destruct (shouldProcessBlock (context w) block); split; split;
      congruence. }
  split; [exact Hrun|]. split; [exact Heff|]. split; [exact Hgate|].
  split.
  { intros H3. destruct Hgate as [H1 H0]; [lia|]. rewrite H3 in H1, H0.
    rewrite <- (Z.mod_divide (number block) 3) by lia. tauto. }
  split.
  { intros H0. rewrite Hpoll. unfold shouldProcessBlock, JS.rem.
    by rewrite H0. }
  split; [exact Hing|]. split; [exact Hcursor|]. by rewrite Hreg.
Qed.

(** C3, amended: when the provider gives the block and the store takes
    the write, [processBlockAndPersist] persists the cursor whatever
    [processBlock] did, and returns that cursor: an error of
    [processBlock] is logged before the write and is not passed on to the
    caller.  When a sub-step reported an error, [processBlock] threw one
    block-level error, before the cursor was persisted. *)
Theorem C3_error_logged_then_persisted blockNumber block events currentBlock w :
  getBlock env (at_number blockNumber) = JS.Normal block ->
  (forall r, registry_write env r = JS.Normal tt) ->
  exists w1 completion w' r,
    processBlock env block events
      (number <$> currentBlock) (timestamp <$> currentBlock) w
    = (w1, completion) /\
    processBlockAndPersist env blockNumber events currentBlock w
    = (w', JS.Normal (Some (blockToRegistryBlock block))) /\
    registry (context w') = r /\
    lastProcessedBlock r = Some (blockToRegistryBlock block) /\
    effects w'
    = effects w1
      ++ match completion with
         | JS.Throw _ => [error_logged "Error processing block"]
         | JS.Normal _ => []
         end
      ++ [registry_written r] /\
    (receipts_answered env events ->
     forall new, effects w1 = effects w ++ new ->
       completion = (if sub_step_failed new
                     then JS.Throw block_error else JS.Normal tt) /\
       block_errors_thrown new = (if sub_step_failed new then 1 else 0)%nat /\
       cursors_written new = []).
Proof.
  intros Hblock Hwrite. unfold processBlockAndPersist. rewrite Hblock.
  destruct (processBlock env block events (number <$> currentBlock)
              (timestamp <$> currentBlock) w) as [w1 completion] eqn:Hrun.
  exists w1, completion.
  unfold persistLastProcessedBlock.
  assert (Hinner : receipts_answered env events ->
            forall new, effects w1 = effects w ++ new ->
              completion = (if sub_step_failed new
                            then JS.Throw block_error else JS.Normal tt) /\
              block_errors_thrown new
              = (if sub_step_failed new then 1 else 0)%nat /\
              cursors_written new = []).
  { intros Hrec new Hnew.
    destruct (processBlock_spec block events (number <$> currentBlock)
                (timestamp <$> currentBlock) w Hrec)
      as (w2 & new2 & Hrun2 & Heff2 & _ & _ & Hthrown & Hcur & _).
    rewrite Hrun in Hrun2. injection Hrun2 as -> Hc.
    rewrite Heff2 in Hnew. apply app_inv_head in Hnew. subst new2.
    by rewrite Hc. }
  destruct completion as [[]|e]; simpl; rewrite Hwrite; simpl.
  - eexists _, _. split; [reflexivity|]. split; [reflexivity|].
    split; [reflexivity|]. split; [reflexivity|]. split; [reflexivity|].
    exact Hinner.
  - eexists _, _. split; [reflexivity|]. split; [reflexivity|].
    split; [reflexivity|]. split; [reflexivity|].
    split; [simpl; by rewrite <- app_assoc|]. exact Hinner.
Qed.

(** Without a list of owners, the fetch of a page returns the logs that
    decode. *)
Lemma poll_without_list fromBlock toBlock context logs :
  getLogs env fromBlock toBlock = JS.Normal logs ->
  addresses context = None ->
  pollContractForEvents env fromBlock toBlock context
  = JS.Normal (List.filter (decodes env) logs).
Proof. intros Hlogs Hnone. unfold pollContractForEvents. by rewrite Hlogs, Hnone. Qed.

(** With a list of owners, the fetch of a page is rejected as soon as a
    log decodes. *)
Lemma poll_with_list fromBlock toBlock context logs owners e :
  getLogs env fromBlock toBlock = JS.Normal logs ->
  addresses context = Some owners ->
  e ∈ logs -> decodes env e = true ->
  pollContractForEvents env fromBlock toBlock context
  = JS.Throw ARGS_TYPE_ERROR.
Proof.
  intros Hlogs Hsome Hin Hdec. unfold pollContractForEvents.
  rewrite Hlogs, Hsome.
  destruct (List.filter (decodes env) logs) as [|x l] eqn:Hf; [|done].
  assert (Hmem : e ∈ List.filter (decodes env) logs)
    by (by rewrite list_elem_of_In, filter_In, <- list_elem_of_In).
  rewrite Hf in Hmem. by apply elem_of_nil in Hmem.
Qed.

(** Block processing never touches the reorg counter and the depth
    gauge, whatever the provider, the handlers and the store do. *)
Lemma addContracts_reorg_metrics events : forall hasErrors w,
  reorgsTotal (metrics (addContracts env events hasErrors w).1)
  = reorgsTotal (metrics w) /\
  reorgDepth (metrics (addContracts env events hasErrors w).1)
  = reorgDepth (metrics w).
Proof.
  induction events as [|event events IH]; intros hasErrors w; simpl; [done|].
  destruct (getTransactionReceipt env (transactionHash event)) as [[]|e];
    simpl; [|by apply IH|done].
  destruct (addContract env event (registry (context w))) as [r []];
    match goal with
    | |- context [addContracts env events ?h ?w0] =>
        destruct (IH h w0) as [Ht Hd]; rewrite Ht, Hd
    end; done.
Qed.

Lemma processBlock_reorg_metrics block events o1 o2 w :
  reorgsTotal (metrics (processBlock env block events o1 o2 w).1)
  = reorgsTotal (metrics w) /\
  reorgDepth (metrics (processBlock env block events o1 o2 w).1)
  = reorgDepth (metrics w).
Proof.
  unfold processBlock.
  destruct (addContracts_reorg_metrics events false w) as [Ht Hd].
  destruct (addContracts env events false w) as [w1 [hasErrors|e]];
    simpl in *; [|done].
  destruct (JS.is_zero _);
    [destruct (checkForAndPlaceOrder env block o1 o2 (registry (context w1)))
       as [r []]|];
    destruct hasErrors; simpl; done.
Qed.

Lemma processBlockAndPersist_reorg_metrics blockNumber events currentBlock w :
  reorgsTotal
    (metrics (processBlockAndPersist env blockNumber events currentBlock w).1)
  = reorgsTotal (metrics w) /\
  reorgDepth
    (metrics (processBlockAndPersist env blockNumber events currentBlock w).1)
  = reorgDepth (metrics w).
Proof.
  unfold processBlockAndPersist.
  destruct (getBlock env (at_number blockNumber)) as [block|e]; [|done].
  destruct (processBlock_reorg_metrics block events (number <$> currentBlock)
              (timestamp <$> currentBlock) w) as [Ht Hd].
  destruct (processBlock env block events _ _ w) as [w1 completion].
  simpl in Ht, Hd. unfold persistLastProcessedBlock.
  destruct completion as [[]|e]; simpl;
    destruct (registry_write env _); simpl; done.
Qed.

(** What block processing does to the context and to the outside
    depends on the context and on what was done before, not on the
    metrics. *)
Lemma addContracts_agree events : forall hasErrors w1 w2,
  context w1 = context w2 -> effects w1 = effects w2 ->
  (addContracts env events hasErrors w1).2
  = (addContracts env events hasErrors w2).2 /\
  context (addContracts env events hasErrors w1).1
  = context (addContracts env events hasErrors w2).1 /\
  effects (addContracts env events hasErrors w1).1
  = effects (addContracts env events hasErrors w2).1.
Proof.
  induction events as [|event events IH]; intros hasErrors w1 w2 Hc He;
    simpl; [done|].
  destruct (getTransactionReceipt env (transactionHash event)) as [[]|e];
    simpl; [|by apply IH|done].
  rewrite Hc.
  destruct (addContract env event (registry (context w2))) as [r []];
    apply IH; simpl; by rewrite ?Hc, ?He.
Qed.

Lemma processBlock_agree block events o1 o2 w1 w2 :
  context w1 = context w2 -> effects w1 = effects w2 ->
  (processBlock env block events o1 o2 w1).2
  = (processBlock env block events o1 o2 w2).2 /\
  context (processBlock env block events o1 o2 w1).1
  = context (processBlock env block events o1 o2 w2).1 /\
  effects (processBlock env block events o1 o2 w1).1
  = effects (processBlock env block events o1 o2 w2).1.
Proof.
  intros Hc He. unfold processBlock.
  destruct (addContracts_agree events false w1 w2 Hc He) as (H2 & Hc' & He').
  destruct (addContracts env events false w1) as [v1 c1].
  destruct (addContracts env events false w2) as [v2 c2].
  simpl in H2, Hc', He'. subst c2.
  destruct c1 as [hasErrors|e]; simpl; [|done].
  rewrite Hc'.
  destruct (JS.is_zero _);
    [destruct (checkForAndPlaceOrder env block o1 o2 (registry (context v2)))
       as [r []]|];
    destruct hasErrors; simpl; by rewrite ?Hc', ?He'.
Qed.

Lemma processBlockAndPersist_agree blockNumber events currentBlock w1 w2 :
  context w1 = context w2 -> effects w1 = effects w2 ->
  (processBlockAndPersist env blockNumber events currentBlock w1).2
  = (processBlockAndPersist env blockNumber events currentBlock w2).2 /\
  context (processBlockAndPersist env blockNumber events currentBlock w1).1
  = context (processBlockAndPersist env blockNumber events currentBlock w2).1 /\
  effects (processBlockAndPersist env blockNumber events currentBlock w1).1
  = effects (processBlockAndPersist env blockNumber events currentBlock w2).1.
Proof.
  intros Hc He. unfold processBlockAndPersist.
  destruct (getBlock env (at_number blockNumber)) as [block|e]; [|done].
  destruct (processBlock_agree block events (number <$> currentBlock)
              (timestamp <$> currentBlock) w1 w2 Hc He) as (H2 & Hc' & He').
  destruct (processBlock env block events _ _ w1) as [v1 c1].
  destruct (processBlock env block events _ _ w2) as [v2 c2].
  simpl in H2, Hc', He'. subst c2. unfold persistLastProcessedBlock.
  destruct c1 as [[]|e]; simpl; rewrite Hc';
    destruct (registry_write env _); simpl; by rewrite ?Hc', ?He'.
Qed.

(** C7: when a block arrives in the block watcher and the provider
    returns it, a reorg is recorded (the counter goes up by one) exactly
    when the block's number is at most the number of the last block
    received and its hash is another one; the depth gauge is then set to
    the difference of the numbers plus one, and otherwise the counter and
    the gauge are left as they are.  The block is processed as if new:
    what is done with it, to the context and to the outside, is the same
    whatever the last block received was.  When the events of the block
    are fetched and the provider and the store answer, that is: the
    events that have a receipt are handed to [addContract], the Order
    Poller runs if it is due, and the registry is written with the block
    as its cursor; and without a list of owners the events that are
    fetched are the logs of the block that decode. *)
Theorem C7_reorg_detection blockNumber block lastBlockReceived w :
  getBlock env (at_number blockNumber) = JS.Normal block ->
  number block = blockNumber ->
  let heard := onBlock env blockNumber lastBlockReceived w in
  heard.2 = block /\
  (reorgsTotal (metrics heard.1) = reorgsTotal (metrics w) + 1 <->
   number block <= number lastBlockReceived
   /\ hash block <> hash lastBlockReceived) /\
  (reorgsTotal (metrics heard.1) = reorgsTotal (metrics w) + 1 ->
   reorgDepth (metrics heard.1)
   = number lastBlockReceived - number block + 1) /\
  (reorgsTotal (metrics heard.1) <> reorgsTotal (metrics w) + 1 ->
   reorgsTotal (metrics heard.1) = reorgsTotal (metrics w) /\
   reorgDepth (metrics heard.1) = reorgDepth (metrics w)) /\
  (forall lastBlockReceived',
     let heard' := onBlock env blockNumber lastBlockReceived' w in
     effects heard'.1 = effects heard.1 /\
     context heard'.1 = context heard.1) /\
  (forall events,
     pollContractForEvents env blockNumber (at_number blockNumber) (context w)
     = JS.Normal events ->
     receipts_answered env events ->
     (forall r, registry_write env r = JS.Normal tt) ->
     exists new r,
       effects heard.1 = effects w ++ new ++ [registry_written r] /\
       ingested new = List.filter (has_receipt env) events /\
       poller_calls new
       = (if shouldProcessBlock (context w) block then 1 else 0)%nat /\
       lastProcessedBlock (registry (context heard.1))
       = Some (blockToRegistryBlock block)) /\
  (forall logs,
     addresses (context w) = None ->
     getLogs env blockNumber (at_number blockNumber) = JS.Normal logs ->
     pollContractForEvents env blockNumber (at_number blockNumber) (context w)
     = JS.Normal (List.filter (decodes env) logs)).
Proof.
  intros Hblock Hnum.
  (* the listener, after the block has been fetched and the metrics set *)
  assert (Hrest : forall last,
            exists w1,
              context w1 = context w /\ effects w1 = effects w /\
              reorgsTotal (metrics w1)
              = (if (blockNumber <=? number last)
                    && negb (String.eqb (hash block) (hash last))
                 then reorgsTotal (metrics w) + 1
                 else reorgsTotal (metrics w)) /\
              reorgDepth (metrics w1)
              = (if (blockNumber <=? number last)
                    && negb (String.eqb (hash block) (hash last))
                 then number last - blockNumber + 1
                 else reorgDepth (metrics w)) /\
              onBlock env blockNumber last w
              = match pollContractForEvents env blockNumber
                        (at_number blockNumber) (context w) with
                | JS.Throw e =>
                    (emit (error_logged
                             "Error in pollContractForEvents for block") w1,
                     block)
                | JS.Normal events =>
                    match processBlockAndPersist env blockNumber events None
                            w1 with
                    | (w2, JS.Throw e) =>
                        (emit (error_logged
                                 "Error in pollContractForEvents for block")
                           w2, block)
                    | (w2, JS.Normal _) => (w2, block)
                    end
                end).
  { intros last. unfold onBlock. rewrite Hblock.
    destruct ((blockNumber <=? number last)
              && negb (String.eqb (hash block) (hash last)));
      eexists; (split; [|split; [|split; [|split; [|reflexivity]]]]); done. }
  assert (Hkept : forall last w1,
            onBlock env blockNumber last w
            = match pollContractForEvents env blockNumber
                      (at_number blockNumber) (context w) with
              | JS.Throw e =>
                  (emit (error_logged
                           "Error in pollContractForEvents for block") w1,
                   block)
              | JS.Normal events =>
                  match processBlockAndPersist env blockNumber events None
                          w1 with
                  | (w2, JS.Throw e) =>
                      (emit (error_logged
                               "Error in pollContractForEvents for block")
                         w2, block)
                  | (w2, JS.Normal _) => (w2, block)
                  end
              end ->
            (onBlock env blockNumber last w).2 = block /\
            reorgsTotal (metrics (onBlock env blockNumber last w).1)
            = reorgsTotal (metrics w1) /\
            reorgDepth (metrics (onBlock env blockNumber last w).1)
            = reorgDepth (metrics w1)).
  { intros last w1 ->.
    destruct (pollContractForEvents env blockNumber (at_number blockNumber)
                (context w)) as [events|e]; [|done].
    destruct (processBlockAndPersist_reorg_metrics blockNumber events None w1)
      as [Ht Hd].
    destruct (processBlockAndPersist env blockNumber events None w1)
      as [w2 [c|e]]; done. }
  intros heard. subst heard.
  destruct (Hrest lastBlockReceived) as (w1 & Hc1 & He1 & Ht1 & Hd1 & Hrun).
  destruct (Hkept lastBlockReceived w1 Hrun) as (Hblock2 & Ht & Hd).
  assert (Hdet : (blockNumber <=? number lastBlockReceived)
                 && negb (String.eqb (hash block) (hash lastBlockReceived))
                 = true <->
                 number block <= number lastBlockReceived
                 /\ hash block <> hash lastBlockReceived).
  { rewrite andb_true_iff, negb_true_iff, Z.leb_le, Hnum.
    destruct (String.eqb_spec (hash block) (hash lastBlockReceived));
      split; intros [? ?]; split; congruence. }
  rewrite Ht, Hd, Ht1, Hd1.
  split; [exact Hblock2|].
  split; [|split; [|split; [|split; [|split]]]].
  - rewrite <- Hdet. destruct (_ && _); split; try done; lia.
  - rewrite Hnum. destruct (_ && _); [done|lia].
  - destruct (_ && _); [lia|done].
  - intros last'. simpl.
    destruct (Hrest last') as (w1' & Hc1' & He1' & _ & _ & Hrun').
    rewrite Hrun', Hrun.
    destruct (pollContractForEvents env blockNumber (at_number blockNumber)
                (context w)) as [events|e]; simpl;
      [|by rewrite Hc1, Hc1', He1, He1'].
    destruct (processBlockAndPersist_agree blockNumber events None w1' w1)
      as (H2 & Hc' & He'); [congruence..|].
    destruct (processBlockAndPersist env blockNumber events None w1')
      as [v1 c1].
    destruct (processBlockAndPersist env blockNumber events None w1)
      as [v2 c2].
    simpl in H2, Hc', He'. subst c2.
    destruct c1; simpl; by rewrite ?Hc', ?He'.
  - intros events Hevents Hrec Hwrite. rewrite Hrun, Hevents.
    destruct (processBlockAndPersist_spec blockNumber block events None w1
                Hblock Hrec Hwrite)
      as (w' & new & r & Hpersist & Heff & Hcursor & Hreg & Hing & Hpoll & _).
    rewrite Hpersist. simpl. exists new, r.
    by rewrite Heff, He1, Hing, Hpoll, Hc1, Hreg, Hcursor.
  - intros logs Hnone Hlogs. by apply poll_without_list.
Qed.

End BlockProcessing.

(** C6 at block 6 of a chain that polls every 3 blocks. *)
Lemma C6_poller_every_n_blocks_witness :
  exists w' new r,
    ChainContext.processBlockAndPersist
      (Sample.env Sample.block [] true true) 6 [Sample.event 6 "0xaa"] None
      (Sample.world 3)
    = (w', JS.Normal (Some (ChainContext.blockToRegistryBlock (Sample.block 6))))
    /\ ChainContext.effects w'
       = ChainContext.effects (Sample.world 3) ++ new
         ++ [ChainContext.registry_written r]
    /\ (ChainContext.poller_calls new = 1%nat <-> (3 | 6)).
Proof.
  destruct (C6_poller_every_n_blocks (Sample.env Sample.block [] true true) 6
              (Sample.block 6) [Sample.event 6 "0xaa"] None (Sample.world 3))
    as (w' & new & r & Hrun & Heff & _ & H3 & _).
  - reflexivity.
  - repeat constructor. by eexists.
  - intros r. reflexivity.
  - exists w', new, r. split; [exact Hrun|]. split; [exact Heff|].
    apply H3. reflexivity.
Defined.

(** C3, as stated, fails: the event handler fails at block 150; the
    block-level error is thrown by [processBlock] before the cursor is
    written, it is logged, and [processBlockAndPersist] returns the
    cursor to its caller instead of raising the error. *)
Lemma C3_block_error_not_raised :
  ChainContext.effects
    (ChainContext.processBlockAndPersist
       (Sample.env Sample.block [] false true) 150 [Sample.event 150 "0xaa"]
       None (Sample.world 1)).1
  = [ChainContext.addContract_called (Sample.event 150 "0xaa") false;
     ChainContext.error_logged "Error running addContract action for TX:";
     ChainContext.checkForAndPlaceOrder_called (Sample.block 150) None None true;
     ChainContext.error_thrown ChainContext.block_error;
     ChainContext.error_logged "Error processing block";
     ChainContext.registry_written
       {| ChainContext.ownerOrders := [];
          ChainContext.lastProcessedBlock :=
            Some (ChainContext.blockToRegistryBlock (Sample.block 150)) |}] /\
  (ChainContext.processBlockAndPersist
     (Sample.env Sample.block [] false true) 150 [Sample.event 150 "0xaa"]
     None (Sample.world 1)).2
  = JS.Normal (Some (ChainContext.blockToRegistryBlock (Sample.block 150))) /\
  ~ (exists e,
       (ChainContext.processBlockAndPersist
          (Sample.env Sample.block [] false true) 150
          [Sample.event 150 "0xaa"] None (Sample.world 1)).2
       = JS.Throw e).
Proof.
  split; [vm_compute; reflexivity|]. split; [vm_compute; reflexivity|].
  intros [e He]. vm_compute in He. discriminate He.
Qed.

(** C3 (amended) at the block where the event handler fails. *)
Lemma C3_error_logged_then_persisted_witness :
  exists w1 completion w' r,
    ChainContext.processBlock (Sample.env Sample.block [] false true)
      (Sample.block 150) [Sample.event 150 "0xaa"] None None (Sample.world 1)
    = (w1, completion) /\
    ChainContext.processBlockAndPersist
      (Sample.env Sample.block [] false true) 150 [Sample.event 150 "0xaa"]
      None (Sample.world 1)
    = (w', JS.Normal (Some (ChainContext.blockToRegistryBlock
                              (Sample.block 150)))) /\
    ChainContext.effects w'
    = ChainContext.effects w1
      ++ match completion with
         | JS.Throw _ => [ChainContext.error_logged "Error processing block"]
         | JS.Normal _ => []
         end
      ++ [ChainContext.registry_written r].
Proof.
  destruct (C3_error_logged_then_persisted
              (Sample.env Sample.block [] false true) 150 (Sample.block 150)
              [Sample.event 150 "0xaa"] None (Sample.world 1))
    as (w1 & completion & w' & r & Hrun1 & Hrun & _ & _ & Heff & _).
  - reflexivity.
  - intros r. reflexivity.
  - by exists w1, completion, w', r.
Defined.

(** C7 at a reorg of depth 1: block 200, which holds an event, arrives
    again with another hash. *)
Lemma C7_reorg_detection_witness :
  exists w',
    ChainContext.onBlock
      (Sample.env Sample.reorged_block [Sample.event 200 "0xaa"] true true)
      200 (Sample.block 200) (Sample.world 1)
    = (w', Sample.reorged_block 200) /\
    ChainContext.reorgsTotal (ChainContext.metrics w') = 1 /\
    ChainContext.reorgDepth (ChainContext.metrics w') = 1 /\
    ChainContext.ingested (ChainContext.effects w')
    = [Sample.event 200 "0xaa"] /\
    ChainContext.lastProcessedBlock
      (ChainContext.registry (ChainContext.context w'))
    = Some (ChainContext.blockToRegistryBlock (Sample.reorged_block 200)).
Proof.
  destruct (C7_reorg_detection
              (Sample.env Sample.reorged_block [Sample.event 200 "0xaa"]
                 true true)
              200 (Sample.reorged_block 200) (Sample.block 200)
              (Sample.world 1))
    as (Hblock & Hiff & Hdepth & _ & _ & Hprocessed & Hfetched).
  - reflexivity.
  - reflexivity.
  - destruct (ChainContext.onBlock
                (Sample.env Sample.reorged_block [Sample.event 200 "0xaa"]
                   true true)
                200 (Sample.block 200) (Sample.world 1)) as [w' b] eqn:Hrun.
    simpl in *. subst b. exists w'. split; [reflexivity|].
    assert (Htotal : ChainContext.reorgsTotal (ChainContext.metrics w')
                     = ChainContext.reorgsTotal
                         (ChainContext.metrics (Sample.world 1)) + 1).
    { apply Hiff. split; [reflexivity | discriminate]. }
    split; [exact Htotal|]. split; [exact (Hdepth Htotal)|].
    destruct (Hprocessed [Sample.event 200 "0xaa"]) as (new & r & Heff & Hing
                                                        & _ & Hcursor).
    + exact (Hfetched [Sample.event 200 "0xaa"] eq_refl eq_refl).
    + repeat constructor. by eexists.
    + intros r. reflexivity.
    + split; [|exact Hcursor].
      rewrite Heff. simpl. rewrite ingested_app, Hing. reflexivity.
Defined.

(** ** The registry: [add] and [flush] *)

Section RegistryOperations.
Import Model AddContract.

Lemma Map_has_get {V} (k : string) (m : list (string * V)) :
  Map_has k m = true <-> is_Some (Map_get k m).
Proof.
  induction m as [|[k' v] m IH]; simpl.
  - split; [discriminate | by intros [? ?]].
  - destruct (String.eqb k' k); simpl; [|exact IH].
    split; [by eexists | done].
Qed.

Lemma Map_get_set_eq {V} (k : string) (v : V) (m : list (string * V)) :
  Map_get k (Map_set k v m) = Some v.
Proof.
  induction m as [|[k' v'] m IH]; simpl.
  - by rewrite String.eqb_refl.
  - destruct (String.eqb k' k) eqn:Hk; simpl; by rewrite Hk.
Qed.

Lemma Map_get_set_ne {V} (k k' : string) (v : V) (m : list (string * V)) :
  k' <> k -> Map_get k' (Map_set k v m) = Map_get k' m.
Proof.
  intros Hne. induction m as [|[k0 v0] m IH]; simpl.
  - destruct (String.eqb_spec k k'); congruence.
  - destruct (String.eqb_spec k0 k) as [->|]; simpl.
    + destruct (String.eqb_spec k k'); congruence.
    + by rewrite IH.
Qed.

Lemma filter_ext_in {A} (P Q : A -> Prop)
    `{!forall x, Decision (P x), !forall x, Decision (Q x)} (l : list A) :
  (forall x, x ∈ l -> P x <-> Q x) -> filter P l = filter Q l.
Proof.
  induction l as [|a l IH]; intros Hext; [done|].
  rewrite !filter_cons.
  rewrite IH by (intros x Hx; apply Hext; by right).
  apply decide_ext, Hext. by left.
Qed.

Lemma filter_total {A} (P : A -> Prop) `{!forall x, Decision (P x)}
    (l : list A) :
  (forall x, x ∈ l -> P x) -> filter P l = l.
Proof.
  induction l as [|a l IH]; intros Hall; [done|].
  rewrite filter_cons_True by (apply Hall; by left).
  rewrite IH; [done|]. intros x Hx. apply Hall. by right.
Qed.

(** What [add] does: for a new owner it creates the set; for a known
    owner it is a no-op exactly when an order of the owner holds the very
    params object it is given, and otherwise appends the new order. *)
Lemma add_new_owner tx owner params proof composableCow registry heap :
  Map_get owner (ownerOrders registry) = None ->
  Map_get owner
    (ownerOrders (add tx owner params proof composableCow registry heap).1)
  = Some [{| ref := heap; tx := tx; params := params; proof := proof;
             orders := []; composableCow := composableCow;
             pollResult := None |}].
Proof.
  intros Hnone. unfold add.
  destruct (Map_has owner (ownerOrders registry)) eqn:Hhas.
  - apply Map_has_get in Hhas as [s Hs]. congruence.
  - simpl. apply Map_get_set_eq.
Qed.

Lemma add_same_object tx owner params proof composableCow registry heap s :
  Map_get owner (ownerOrders registry) = Some s ->
  (exists c, c ∈ s /\ params_ref (Model.params c) = params_ref params) ->
  add tx owner params proof composableCow registry heap = (registry, heap).
Proof.
  intros Hs (c & Hc & Href). unfold add.
  assert (Hhas : Map_has owner (ownerOrders registry) = true)
    by (apply Map_has_get; by eexists).
  rewrite Hhas, Hs.
  assert (Hex : existsb (fun c => params_strict_equal (Model.params c) params) s
                = true).
  { apply existsb_exists. exists c. split; [by apply list_elem_of_In|].
    unfold params_strict_equal. by apply Nat.eqb_eq. }
  by rewrite Hex.
Qed.

Lemma add_other_object tx owner params proof composableCow registry heap s :
  Map_get owner (ownerOrders registry) = Some s ->
  (forall c, c ∈ s -> params_ref (Model.params c) <> params_ref params) ->
  (forall c, c ∈ s -> ref c <> heap) ->
  Map_get owner
    (ownerOrders (add tx owner params proof composableCow registry heap).1)
  = Some (s ++ [{| ref := heap; tx := tx; params := params; proof := proof;
                   orders := []; composableCow := composableCow;
                   pollResult := None |}]).
Proof.
  intros Hs Hparams Hfresh. unfold add.
  assert (Hhas : Map_has owner (ownerOrders registry) = true)
    by (apply Map_has_get; by eexists).
  rewrite Hhas, Hs.
  assert (Hex : existsb (fun c => params_strict_equal (Model.params c) params) s
                = false).
  { apply not_true_iff_false. intros Hex.
    apply existsb_exists in Hex as (c & Hc & Heq).
    apply list_elem_of_In in Hc. apply (Hparams c Hc).
    by apply Nat.eqb_eq. }
  rewrite Hex. simpl. rewrite Map_get_set_eq. f_equal.
  unfold Set_add.
  match goal with
  | |- (if existsb ?f s then _ else _) = _ =>
      assert (Hmem : existsb f s = false)
  end.
  { apply not_true_iff_false. intros Hmem.
    apply existsb_exists in Hmem as (c & Hc & Heq).
    apply list_elem_of_In in Hc. apply (Hfresh c Hc).
    unfold same_order in Heq. simpl in Heq. symmetry. by apply Nat.eqb_eq. }
  by rewrite Hmem.
Qed.

(** The loop of [flush]: deleting, one after the other, the elements of
    [l] that are stale leaves the elements that none of them is. *)
Lemma flush_loop root (l : list ConditionalOrder) :
  forall s,
    foldl (fun s c => if stale root c then Set_delete c s else s) s l
    = filter (fun x => forallb (fun c => negb (stale root c && same_order c x)) l
                       = true) s.
Proof.
  induction l as [|c l IH]; intros s; simpl.
  - symmetry. by apply filter_total.
  - rewrite IH. destruct (stale root c) eqn:Hc; simpl.
    + unfold Set_delete. rewrite list_filter_filter.
      apply list_filter_iff. intros x.
      rewrite andb_true_iff, negb_true_iff. tauto.
    + done.
Qed.

Lemma same_ref_same_order (s : list ConditionalOrder) (c x : ConditionalOrder) :
  NoDup (ref <$> s) -> c ∈ s -> x ∈ s -> same_order c x = true -> c = x.
Proof.
  unfold same_order. rewrite Nat.eqb_eq.
  induction s as [|a s IH]; intros Hnd Hc Hx Href; [by inversion Hc|].
  rewrite fmap_cons in Hnd. apply NoDup_cons in Hnd as [Ha Hnd].
  apply elem_of_cons in Hc as [->|Hc]; apply elem_of_cons in Hx as [->|Hx];
    try done.
  - exfalso. apply Ha. rewrite Href. by apply list_elem_of_fmap_2.
  - exfalso. apply Ha. rewrite <- Href. by apply list_elem_of_fmap_2.
  - by apply IH.
Qed.

Lemma flush_set root (s : list ConditionalOrder) :
  NoDup (ref <$> s) ->
  foldl (fun s c => if stale root c then Set_delete c s else s) s s
  = filter (fun c => stale root c = false) s.
Proof.
  intros Hnd. rewrite flush_loop. apply filter_ext_in. intros x Hx.
  rewrite forallb_forall. split.
  - intros Hall. specialize (Hall x). rewrite <- list_elem_of_In in Hall.
    specialize (Hall Hx). unfold same_order in Hall.
    rewrite Nat.eqb_refl, andb_true_r in Hall.
    by apply negb_true_iff.
  - intros Hstale c Hc. apply negb_true_iff, andb_false_iff.
    destruct (same_order c x) eqn:Hsame; [left|by right].
    apply list_elem_of_In in Hc.
    by rewrite (same_ref_same_order s c x Hnd Hc Hx Hsame).
Qed.

(** C4: after [flush(o, R)] no order of [o] is left whose proof is
    non-null with a merkle root other than [R]; the orders of [o] with a
    null proof or with the root [R] are all still there, unchanged and in
    their order; the orders of every other owner, and the rest of the
    registry, are unchanged. *)
Theorem C4_flush (owner : Owner) (root : string) (registry : Registry) :
  (forall s, Map_get owner (ownerOrders registry) = Some s ->
             NoDup (ref <$> s)) ->
  (forall s', Map_get owner (ownerOrders (flush owner root registry)) = Some s' ->
     forall c p, c ∈ s' -> proof c = Some p -> merkleRoot p = root) /\
  (forall s, Map_get owner (ownerOrders registry) = Some s ->
     Map_get owner (ownerOrders (flush owner root registry))
     = Some (filter (fun c => stale root c = false) s) /\
     forall c, c ∈ s ->
       (proof c = None \/ exists p, proof c = Some p /\ merkleRoot p = root) ->
       c ∈ filter (fun c => stale root c = false) s) /\
  (Map_get owner (ownerOrders registry) = None ->
     flush owner root registry = registry) /\
  (forall o, o <> owner ->
     Map_get o (ownerOrders (flush owner root registry))
     = Map_get o (ownerOrders registry)) /\
  version (flush owner root registry) = version registry /\
  network (flush owner root registry) = network registry /\
  lastNotifiedError (flush owner root registry) = lastNotifiedError registry /\
  lastProcessedBlock (flush owner root registry) = lastProcessedBlock registry.
Proof.
  intros Hnd. unfold flush.
  destruct (Map_has owner (ownerOrders registry)) eqn:Hhas.
  - apply Map_has_get in Hhas as [s Hs]. rewrite Hs. simpl.
    rewrite (flush_set root s (Hnd s Hs)).
    rewrite Map_get_set_eq.
    split; [|split; [|split; [|split]]].
    + intros s' [= <-] c p Hc Hp.
      apply list_elem_of_filter in Hc as [Hc _].
      unfold stale in Hc. rewrite Hp in Hc.
      apply negb_false_iff in Hc. by apply String.eqb_eq.
    + intros s0 [= <-]. split; [done|].
      intros c Hc Hkeep. apply list_elem_of_filter. split; [|done].
      unfold stale. destruct Hkeep as [-> | (p & -> & ->)]; [done|].
      by rewrite String.eqb_refl.
    + congruence.
    + intros o Ho. by apply Map_get_set_ne.
    + done.
  - assert (Hnone : Map_get owner (ownerOrders registry) = None).
    { destruct (Map_get owner (ownerOrders registry)) eqn:Hget; [|done].
      assert (Map_has owner (ownerOrders registry) = true)
        by (apply Map_has_get; by eexists).
      congruence. }
    rewrite Hnone. repeat split; try done; congruence.
Qed.

End RegistryOperations.

(** C4 at a registry where Alice has a single order and merkle orders
    under two roots. *)
Lemma C4_flush_witness :
  Model.Map_get SampleRegistry.alice
    (Model.ownerOrders
       (AddContract.flush SampleRegistry.alice SampleRegistry.root2
          SampleRegistry.merkle_orders))
  = Some [SampleRegistry.order 0 "0x01" None;
          SampleRegistry.order 2 "0x03"
            (SampleRegistry.merkle SampleRegistry.root2)].
Proof.
  destruct (C4_flush SampleRegistry.alice SampleRegistry.root2
              SampleRegistry.merkle_orders) as (_ & Hkept & _).
  - intros s [= <-]. apply (bool_decide_unpack _). vm_compute. exact I.
  - destruct (Hkept _ eq_refl) as [-> _]. reflexivity.
Defined.

(** C1 fails at its first sentence: [add] compares the params objects by
    reference.  Alice's order was created from the params decoded at
    reference 0; the same event decoded again gives equal params at
    another reference, and [add] inserts a second order with them. *)
Lemma C1_equal_params_added_twice :
  Model.Map_get SampleRegistry.alice
    (Model.ownerOrders
       (AddContract.add "0xaa" SampleRegistry.alice
          (SampleRegistry.params_at 1 "0x01") None
          "0xfdaFc9d1902f4e0b84f65F49f244b32b31013b74"
          SampleRegistry.one_order 1).1)
  = Some [SampleRegistry.order 0 "0x01" None;
          SampleRegistry.order 1 "0x01" None] /\
  Model.handler (SampleRegistry.params_at 1 "0x01")
  = Model.handler (SampleRegistry.params_at 0 "0x01") /\
  Model.salt (SampleRegistry.params_at 1 "0x01")
  = Model.salt (SampleRegistry.params_at 0 "0x01") /\
  Model.staticInput (SampleRegistry.params_at 1 "0x01")
  = Model.staticInput (SampleRegistry.params_at 0 "0x01").
Proof. repeat split. Qed.

(** ** Warm-up: the order in which the blocks of a page are processed *)

(** The [reduce] of [warmUp] does bucket the events by block number:
    the bucket of a block holds the events of that block, in their
    order. *)
Lemma eventsByBlock_fold (events : list ChainContext.ConditionalOrderCreatedEvent) :
  forall (acc : gmap Z (list ChainContext.ConditionalOrderCreatedEvent)) (n : Z),
    foldl (fun acc event =>
             match acc !! ChainContext.blockNumber event with
             | Some events =>
                 <[ChainContext.blockNumber event := events ++ [event]]> acc
             | None => <[ChainContext.blockNumber event := [event]]> acc
             end) acc events !! n
    = match acc !! n,
            List.filter (fun e => ChainContext.blockNumber e =? n) events with
      | o, [] => o
      | Some l0, l => Some (l0 ++ l)
      | None, l => Some l
      end.
Proof.
  induction events as [|e events IH]; intros acc n; simpl.
  - by destruct (acc !! n).
  - rewrite IH. destruct (Z.eqb_spec (ChainContext.blockNumber e) n) as [->|Hne].
    + destruct (acc !! n) as [l0|] eqn:Hacc; rewrite lookup_insert_eq;
        destruct (List.filter _ events); try done.
      by rewrite <- app_assoc.
    + destruct (acc !! ChainContext.blockNumber e);
        by rewrite lookup_insert_ne.
Qed.

Lemma eventsByBlock_lookup
    (events : list ChainContext.ConditionalOrderCreatedEvent) (n : Z) :
  ChainContext.eventsByBlock events !! n
  = match List.filter (fun e => ChainContext.blockNumber e =? n) events with
    | [] => None
    | l => Some l
    end.
Proof.
  unfold ChainContext.eventsByBlock. rewrite eventsByBlock_fold.
  rewrite lookup_empty. by destruct (List.filter _ events).
Qed.

Lemma sort_insert_perm (x : string) (l : list string) :
  JS.sort_insert x l ≡ₚ x :: l.
Proof.
  induction l as [|y l IH]; simpl; [done|].
  destruct (JS.sort_le x y); [done|].
  rewrite IH. apply Permutation_swap.
Qed.

Lemma sort_perm (l : list string) : JS.sort l ≡ₚ l.
Proof.
  unfold JS.sort. induction l as [|x l IH]; simpl; [done|].
  by rewrite sort_insert_perm, IH.
Qed.

(** Every key that the loop of [warmUp] meets is the text of a block
    number that has a bucket. *)
Lemma sorted_keys_have_events {A} (m : gmap Z A) (key : string) :
  key ∈ JS.sort (JS.Object_keys m) ->
  exists n x, JS.Number key = JS.Int n /\ m !! n = Some x.
Proof.
  rewrite sort_perm. unfold JS.Object_keys.
  intros Hkey. apply list_elem_of_fmap in Hkey as (n & -> & Hn).
  apply list_elem_of_fmap in Hn as ([n' x] & -> & Hin).
  rewrite Object_entries_perm in Hin. apply elem_of_map_to_list in Hin.
  exists n', x. split; [apply Number_toString | done].
Qed.

(** The blocks of a page are processed, and their cursors written, in the
    order of the sorted keys. *)
Lemma processBlocks_cursors (env : ChainContext.Env)
    (blocks : Z -> ChainContext.Block)
    (m : gmap Z (list ChainContext.ConditionalOrderCreatedEvent))
    (currentBlock : ChainContext.Block) (keys : list string) :
  (forall n, ChainContext.getBlock env (ChainContext.at_number n)
             = JS.Normal (blocks n)) ->
  (forall tx, exists receipt,
      ChainContext.getTransactionReceipt env tx = JS.Normal receipt) ->
  (forall r, ChainContext.registry_write env r = JS.Normal tt) ->
  Forall (fun key => exists n, JS.Number key = JS.Int n) keys ->
  forall w, exists w' new,
    ChainContext.processBlocks env keys m currentBlock w = (w', JS.Normal tt) /\
    ChainContext.effects w' = ChainContext.effects w ++ new /\
    ChainContext.cursors_written new
    = map (fun key =>
             match JS.Number key with
             | JS.Int n => Some (ChainContext.blockToRegistryBlock (blocks n))
             | JS.NaN => None
             end) keys.
Proof.
  intros Hblocks Hreceipts Hwrite Hkeys.
  induction Hkeys as [|key keys [n Hn] _ IH]; intros w; simpl.
  - exists w, []. by rewrite app_nil_r.
  - rewrite Hn.
    destruct (processBlockAndPersist_spec env n (blocks n)
                (default [] (m !! n)) (Some currentBlock) w (Hblocks n))
      as (w1 & new1 & r & Hrun & Heff & Hcursor & _ & _ & _ & _ & Hcur & _);
      [|done|].
    { apply Forall_forall. intros e _. apply Hreceipts. }
    rewrite Hrun. destruct (IH w1) as (w' & new & Hrun' & Heff' & Hcur').
    exists w', (new1 ++ [ChainContext.registry_written r] ++ new).
    rewrite Hrun', Heff', Heff, <- !app_assoc. split; [done|]. split; [done|].
    rewrite !cursors_written_app, Hcur, Hcur'. simpl. by rewrite Hcursor.
Qed.

(** A page of [warmUp], when the provider and the store answer: the
    cursors are written for the blocks with events, in the order in which
    [sort()] leaves their keys, and then for [toBlock]. *)
Lemma warmUpPage_cursors (env : ChainContext.Env)
    (blocks : Z -> ChainContext.Block) (tip : ChainContext.Block)
    (events : list ChainContext.ConditionalOrderCreatedEvent)
    (fromBlock : Z) (toBlock : ChainContext.BlockTag)
    (currentBlock : ChainContext.Block) (w : ChainContext.World) :
  ChainContext.pollContractForEvents env fromBlock toBlock
    (ChainContext.context w) = JS.Normal events ->
  (forall n, ChainContext.getBlock env (ChainContext.at_number n)
             = JS.Normal (blocks n)) ->
  ChainContext.getBlock env toBlock = JS.Normal tip ->
  (forall tx, exists receipt,
      ChainContext.getTransactionReceipt env tx = JS.Normal receipt) ->
  (forall r, ChainContext.registry_write env r = JS.Normal tt) ->
  exists w' new,
    ChainContext.warmUpPage env fromBlock toBlock currentBlock w
    = (w', JS.Normal (Some (ChainContext.blockToRegistryBlock tip))) /\
    ChainContext.effects w' = ChainContext.effects w ++ new /\
    ChainContext.cursors_written new
    = map (fun key =>
             match JS.Number key with
             | JS.Int n => Some (ChainContext.blockToRegistryBlock (blocks n))
             | JS.NaN => None
             end)
          (JS.sort (JS.Object_keys (ChainContext.eventsByBlock events)))
      ++ [Some (ChainContext.blockToRegistryBlock tip)].
Proof.
  intros Hevents Hblocks Htip Hreceipts Hwrite.
  unfold ChainContext.warmUpPage. rewrite Hevents.
  destruct (processBlocks_cursors env blocks
              (ChainContext.eventsByBlock events) currentBlock
              (JS.sort (JS.Object_keys (ChainContext.eventsByBlock events)))
              Hblocks Hreceipts Hwrite) with (w := w)
    as (w1 & new1 & Hrun & Heff & Hcur).
  { apply Forall_forall. intros key Hkey.
    destruct (sorted_keys_have_events _ _ Hkey) as (n & _ & Hn & _).
    by exists n. }
  rewrite Hrun, Htip. unfold ChainContext.persistLastProcessedBlock.
  rewrite Hwrite. simpl.
  eexists _, (new1 ++ [ChainContext.registry_written _]).
  split; [reflexivity|]. simpl. rewrite Heff, <- app_assoc.
  split; [reflexivity|].
  by rewrite cursors_written_app, Hcur.
Qed.

(** C2 fails where a page holds block numbers of different lengths: the
    keys are sorted as strings, so block 10000000 is processed and
    persisted before block 9999999, and the cursor written to the store
    goes back from 10000000 to 9999999. *)
Lemma C2_page_processed_out_of_order :
  JS.sort (JS.Object_keys
             (ChainContext.eventsByBlock
                [Sample.event 9999999 "0xaa"; Sample.event 10000000 "0xbb"]))
  = ["10000000"; "9999999"] /\
  ChainContext.cursor_numbers
    (ChainContext.effects
       (ChainContext.warmUpPage
          (Sample.env Sample.block
             [Sample.event 9999999 "0xaa"; Sample.event 10000000 "0xbb"]
             true true)
          9999001 (ChainContext.at_number 10004000)
          (Sample.block 10004000) (Sample.world 1)).1)
  = [10000000; 9999999; 10004000].
Proof. split; vm_compute; reflexivity. Qed.

(** ** The platform of numerals meets the laws *)

Lemma of_tree_to_tree (j : JSON.json) :
  Numerals.of_tree (Numerals.to_tree j) = Some j.
Proof.
  revert j. fix IH 1. intros [| b | z | s | l | ms]; simpl; try reflexivity.
  - assert (Hl : (fix go (ts : list (gen_tree (bool + Z + string))) :=
                    match ts with
                    | [] => Some []
                    | t :: ts' =>
                        match Numerals.of_tree t, go ts' with
                        | Some j, Some js => Some (j :: js)
                        | _, _ => None
                        end
                    end) (map Numerals.to_tree l) = Some l).
    { induction l as [|x l IHl]; [reflexivity|].
      simpl. by rewrite (IH x), IHl. }
    by rewrite Hl.
  - assert (Hms : (fix go (ts : list (gen_tree (bool + Z + string))) :=
                     match ts with
                     | [] => Some []
                     | GenNode 3 [GenLeaf (inr k); t] :: ts' =>
                         match Numerals.of_tree t, go ts' with
                         | Some j, Some ms => Some ((k, j) :: ms)
                         | _, _ => None
                         end
                     | _ => None
                     end)
                    (map (fun m => GenNode 3 [GenLeaf (inr m.1);
                                              Numerals.to_tree m.2]) ms)
                  = Some ms).
    { induction ms as [|[k x] ms IHms]; [reflexivity|].
      simpl. by rewrite (IH x), IHms. }
    by rewrite Hms.
Qed.

#[export] Instance numerals_laws : PlatformLaws (H := Numerals.platform).
Proof.
  split; simpl.
  - intros j. unfold Numerals.JSON_tree, Numerals.JSON_text.
    pose proof (toString_truthy (Z.pos (encode (Numerals.to_tree j)))) as Ht.
    destruct (JS.toString (Z.pos (encode (Numerals.to_tree j)))) eqn:Hs;
      [discriminate|].
    rewrite <- Hs, Number_toString, decode_encode. simpl.
    apply of_tree_to_tree.
  - intros j. apply toString_truthy.
  - intros t. unfold Numerals.Date_parse, Numerals.toISOString.
    pose proof (toString_truthy t) as Ht.
    destruct (JS.toString t) eqn:Hs; [discriminate|].
    by rewrite <- Hs, Number_toString.
  - intros t. apply toString_truthy.
Qed.

(** ** [JSON.parse] with [_reviver] undoes [JSON.stringify] with [replacer] *)

Section JsonRoundTrip.
Import JSON Model.

Lemma jsval_nested_ind (P : jsval -> Prop) :
  P VUndefined -> P VNull -> (forall b, P (VBool b)) ->
  (forall z, P (VNum z)) -> (forall n, P (VNonFinite n)) ->
  (forall s, P (VStr s)) ->
  (forall l, Forall P l -> P (VArr l)) ->
  (forall props, Forall (fun p => P p.2) props -> P (VObj props)) ->
  (forall entries, Forall (fun e => P e.1 /\ P e.2) entries ->
                   P (VMap entries)) ->
  (forall l, Forall P l -> P (VSet l)) ->
  forall v, P v.
Proof.
  intros Hundef Hnull Hbool Hnum Hnonfinite Hstr Harr Hobj Hmap Hset.
  fix IH 1. intros [| | b | z | n | s | l | props | entries | l].
  - exact Hundef.
  - exact Hnull.
  - apply Hbool.
  - apply Hnum.
  - apply Hnonfinite.
  - apply Hstr.
  - apply Harr. induction l as [|x l IHl]; constructor; [apply IH | exact IHl].
  - apply Hobj. induction props as [|[k x] props IHl]; constructor;
      [apply IH | exact IHl].
  - apply Hmap. induction entries as [|[k x] entries IHl]; constructor;
      [split; apply IH | exact IHl].
  - apply Hset. induction l as [|x l IHl]; constructor; [apply IH | exact IHl].
Qed.

Lemma elems_come_back (n : nat) (l : list jsval) :
  Forall (comes_back n) l ->
  forall i, exists js,
    serialize_elems (SerializeJSONProperty replacer n) i l = Some js /\
    internalize_elems (InternalizeJSONProperty _reviver) i js = Some l.
Proof.
  induction 1 as [|x l Hx _ IH]; intros i.
  - by exists [].
  - destruct (Hx (JS.toString i)) as (j & Hser & Hint).
    destruct (IH (i + 1)) as (js & Hsers & Hints).
    exists (j :: js). simpl. rewrite Hser. simpl. rewrite Hsers. simpl.
    split; [done|]. rewrite Hint. simpl. by rewrite Hints.
Qed.

Lemma members_come_back (n : nat) (props : list (string * jsval)) :
  Forall (fun p => p.2 <> VUndefined /\ comes_back n p.2) props ->
  exists ms,
    serialize_members (SerializeJSONProperty replacer n) props = Some ms /\
    internalize_members (InternalizeJSONProperty _reviver) ms = Some props.
Proof.
  induction 1 as [|[k x] props [Hdef Hx] _ (ms & Hsers & Hints)].
  - by exists [].
  - destruct (Hx k) as (j & Hser & Hint). simpl in *.
    exists ((k, j) :: ms). rewrite Hser. simpl. rewrite Hsers. simpl.
    split; [done|]. rewrite Hint. simpl. rewrite Hints. simpl.
    by destruct x.
Qed.

Lemma max_depth_bound {A} (depth : A -> nat) (l : list A) (n : nat) :
  (max_depth depth l <= n)%nat -> Forall (fun x => (depth x <= n)%nat) l.
Proof.
  induction l as [|x l IH]; simpl; intros Hmax; constructor; [lia|].
  apply IH. lia.
Qed.

Lemma distinct_app_cons (acc l : list jsval) (x : jsval) :
  distinct (acc ++ x :: l) = true ->
  existsb (fun y => same_value_zero y x) acc = false.
Proof.
  induction acc as [|a acc IH]; simpl; [done|].
  rewrite andb_true_iff, forallb_app. simpl.
  rewrite !andb_true_iff, negb_true_iff.
  intros [(_ & Hx & _) Hrest]. rewrite Hx. simpl. by apply IH.
Qed.

Lemma new_Set_elements (l : list jsval) :
  distinct l = true -> new_Set (VArr l) = Some (VSet l).
Proof.
  intros Hdist. simpl. do 2 f_equal.
  enough (Hacc : forall acc, distinct (acc ++ l) = true ->
                   foldl (fun s x => JSON.Set_elems_add x s) acc l = acc ++ l)
    by (by apply (Hacc [])).
  clear Hdist. induction l as [|x l IH]; intros acc Hdist; simpl.
  - by rewrite app_nil_r.
  - unfold JSON.Set_elems_add at 2. rewrite (distinct_app_cons _ _ _ Hdist).
    rewrite IH; rewrite <- app_assoc; done.
Qed.

Lemma Map_set_fresh (k v : jsval) (acc : list (jsval * jsval)) :
  existsb (fun y => same_value_zero y k) (map fst acc) = false ->
  JSON.Map_entries_set k v acc = acc ++ [(k, v)].
Proof.
  induction acc as [|[k' v'] acc IH]; simpl; [done|].
  rewrite orb_false_iff. intros [-> Hrest]. by rewrite IH.
Qed.

Lemma new_Map_entries (entries : list (jsval * jsval)) :
  distinct (map fst entries) = true ->
  new_Map (VArr (map (fun e => VArr [e.1; e.2]) entries))
  = Some (VMap entries).
Proof.
  intros Hdist. simpl.
  assert (Hentries : mapM entry_of (map (fun e => VArr [e.1; e.2]) entries)
                     = Some entries).
  { apply mapM_Some. clear Hdist.
    induction entries as [|[k v] entries IH]; simpl; constructor; done. }
  rewrite Hentries. simpl. do 2 f_equal.
  enough (Hacc : forall acc, distinct (map fst (acc ++ entries)) = true ->
                   foldl (fun m e => JSON.Map_entries_set e.1 e.2 m) acc entries
                   = acc ++ entries)
    by (by apply (Hacc [])).
  clear. induction entries as [|[k v] entries IH]; intros acc Hdist; simpl.
  - by rewrite app_nil_r.
  - rewrite map_app in Hdist. simpl in Hdist.
    rewrite Map_set_fresh by (by apply (distinct_app_cons _ (map fst entries))).
    rewrite IH; rewrite <- app_assoc; [done|].
    by rewrite map_app.
Qed.


Lemma stable_defined (v : jsval) : stable v = true -> v <> VUndefined.
Proof. by destruct v. Qed.

(** Every stable value comes back, at every budget that covers its
    depth. *)
Lemma stable_comes_back (v : jsval) :
  stable v = true -> forall n, (depth v <= n)%nat -> comes_back n v.
Proof.
  induction v as [| | b | z | x | s | l IH | props IH | entries IH | l IH]
    using jsval_nested_ind; intros Hstable n Hdepth key.
  - discriminate.
  - destruct n; [simpl in *; lia|]. by exists JNull.
  - destruct n; [simpl in *; lia|]. by exists (JBool b).
  - destruct n; [simpl in *; lia|]. by exists (JNum z).
  - discriminate.
  - destruct n; [simpl in *; lia|]. by exists (JStr s).
  - (* arrays *)
    destruct n as [|n]; [simpl in *; lia|].
    change (depth (VArr l)) with (S (max_depth depth l)) in Hdepth.
    assert (Hd : Forall (fun x => (depth x <= n)%nat) l)
      by (apply max_depth_bound; lia).
    simpl in Hstable. rewrite forallb_forall in Hstable.
    assert (Hall : Forall (comes_back n) l).
    { rewrite Forall_forall in IH, Hd. apply Forall_forall.
      intros x Hx. apply IH; [done| |by apply Hd].
      apply Hstable. by apply list_elem_of_In. }
    destruct (elems_come_back n l Hall 0) as (js & Hser & Hint).
    exists (JArr js). simpl. rewrite Hser. simpl. split; [done|].
    by rewrite Hint.
  - (* plain objects *)
    destruct n as [|n]; [simpl in *; lia|].
    change (depth (VObj props))
      with (S (max_depth (fun p => depth p.2) props)) in Hdepth.
    assert (Hd : Forall (fun p => (depth p.2 <= n)%nat) props)
      by (apply (max_depth_bound (fun p => depth p.2)); lia).
    simpl in Hstable.
    apply andb_true_iff in Hstable as [Htag Hstable].
    apply andb_true_iff in Htag as [HMap HSet].
    apply negb_true_iff in HMap, HSet.
    rewrite forallb_forall in Hstable.
    assert (Hall : Forall (fun p => p.2 <> VUndefined /\ comes_back n p.2)
                     props).
    { rewrite Forall_forall in IH, Hd. apply Forall_forall.
      intros p Hp.
      assert (Hs : stable p.2 = true)
        by (apply Hstable; by apply list_elem_of_In).
      split; [by apply stable_defined|].
      apply IH; [done|done|by apply Hd]. }
    destruct (members_come_back n props Hall) as (ms & Hser & Hint).
    exists (JObj ms). simpl. rewrite Hser. simpl. split; [done|].
    rewrite Hint. simpl. by rewrite HMap, HSet.
  - (* maps *)
    destruct n as [|[|[|n]]]; try (simpl in *; lia).
    change (depth (VMap entries))
      with (3 + max_depth (fun e => Nat.max (depth e.1) (depth e.2)) entries)%nat
      in Hdepth.
    assert (Hd : Forall (fun e => (Nat.max (depth e.1) (depth e.2) <= n)%nat)
                   entries)
      by (apply (max_depth_bound
                   (fun e => Nat.max (depth e.1) (depth e.2))); lia).
    simpl in Hstable.
    apply andb_true_iff in Hstable as [Hdist Hstable].
    rewrite forallb_forall in Hstable.
    assert (Hall : Forall (comes_back (S n))
                     (map (fun e => VArr [e.1; e.2]) entries)).
    { rewrite Forall_forall in IH, Hd. apply Forall_forall.
      intros x Hx. apply list_elem_of_fmap in Hx as (e & -> & He).
      assert (Hs : stable e.1 && stable e.2 = true)
        by (apply Hstable; by apply list_elem_of_In).
      apply andb_true_iff in Hs as [Hk Hv].
      specialize (Hd e He). destruct (IH e He) as [IHk IHv].
      assert (Hpair : Forall (comes_back n) [e.1; e.2]).
      { repeat constructor; [apply IHk | apply IHv]; try done; lia. }
      intros idx.
      destruct (elems_come_back n _ Hpair 0) as (js & Hser & Hint).
      exists (JArr js). simpl. simpl in Hser. rewrite Hser. simpl.
      split; [done|]. simpl in Hint. by rewrite Hint. }
    destruct (elems_come_back (S n) _ Hall 0) as (js & Hser & Hint).
    exists (JObj [("dataType", JStr "Map"); ("value", JArr js)]).
    split.
    + change (SerializeJSONProperty replacer (S (S (S n))) key (VMap entries))
        with (ms ← serialize_members (SerializeJSONProperty replacer (S (S n)))
                [("dataType", VStr "Map");
                 ("value", VArr (map (fun e => VArr [e.1; e.2]) entries))];
              Some (Some (JObj ms))).
      simpl. simpl in Hser. by rewrite Hser.
    + simpl. simpl in Hint. rewrite Hint. simpl.
      by apply new_Map_entries.
  - (* sets *)
    destruct n as [|[|n]]; try (simpl in *; lia).
    change (depth (VSet l)) with (2 + max_depth depth l)%nat in Hdepth.
    assert (Hd : Forall (fun x => (depth x <= n)%nat) l)
      by (apply max_depth_bound; lia).
    simpl in Hstable.
    apply andb_true_iff in Hstable as [Hdist Hstable].
    rewrite forallb_forall in Hstable.
    assert (Hall : Forall (comes_back n) l).
    { rewrite Forall_forall in IH, Hd. apply Forall_forall.
      intros x Hx. apply IH; [done| |by apply Hd].
      apply Hstable. by apply list_elem_of_In. }
    destruct (elems_come_back n l Hall 0) as (js & Hser & Hint).
    exists (JObj [("dataType", JStr "Set"); ("value", JArr js)]).
    split.
    + change (SerializeJSONProperty replacer (S (S n)) key (VSet l))
        with (ms ← serialize_members (SerializeJSONProperty replacer (S n))
                [("dataType", VStr "Set"); ("value", VArr l)];
              Some (Some (JObj ms))).
      simpl. simpl in Hser. by rewrite Hser.
    + simpl. simpl in Hint. rewrite Hint. simpl.
      by apply new_Set_elements.
Qed.

(** [JSON.parse(JSON.stringify(v, replacer), _reviver)] is [v] for a
    stable [v]. *)
Lemma parse_stringify (v : jsval) :
  stable v = true ->
  exists tree, stringify replacer v = Some (Some tree) /\
               parse _reviver tree = Some v.
Proof.
  intros Hstable. by apply (stable_comes_back v Hstable (depth v)).
Qed.

End JsonRoundTrip.

(** ** The registry as a value, and back at its types *)

Section RegistryValue.
Import JSON Model.

Lemma distinct_strings (l : list string) :
  NoDup l -> distinct (map VStr l) = true.
Proof.
  induction 1 as [|x l Hx _ IH]; simpl; [done|].
  rewrite IH, andb_true_r. apply forallb_forall. intros y Hy.
  apply in_map_iff in Hy as (s & <- & Hs). simpl.
  apply negb_true_iff. destruct (String.eqb_spec x s) as [->|]; [|done].
  destruct Hx. by apply list_elem_of_In.
Qed.

Lemma distinct_objects (l : list jsval) :
  Forall (fun v => exists props, v = VObj props) l -> distinct l = true.
Proof.
  induction 1 as [|x l [props ->] _ IH]; simpl; [done|].
  rewrite IH, andb_true_r. by apply forallb_forall.
Qed.

Lemma stable_strings (l : list string) : forallb stable (map VStr l) = true.
Proof. by induction l. Qed.

Lemma stable_order_value (c : ConditionalOrder) :
  valid_order c -> stable (order_value c) = true.
Proof.
  intros [Hnodup Hpoll]. unfold order_value.
  assert (Horders : stable (orders_value (orders c)) = true).
  { unfold orders_value. simpl. rewrite map_map. simpl.
    rewrite <- (map_map fst VStr). rewrite distinct_strings by done.
    simpl. apply forallb_forall. intros e He.
    by apply in_map_iff in He as ([uid status] & <- & _). }
  assert (Hproof : stable (proof_value (proof c)) = true).
  { destruct (proof c) as [p|]; [|done]. simpl.
    by rewrite stable_strings. }
  assert (Hparams : stable (params_value (params c)) = true).
  { unfold params_value. by destruct (params_shape (params c)). }
  destruct (pollResult c) as [r|]; simpl in *.
  - by rewrite Hparams, Horders, Hproof, Hpoll.
  - by rewrite Hparams, Horders, Hproof.
Qed.

Lemma stable_ownerOrders_value (m : OwnerOrders) :
  NoDup m.*1 -> Forall (fun e => Forall valid_order e.2) m ->
  stable (ownerOrders_value m) = true.
Proof.
  intros Hnodup Hvalid. unfold ownerOrders_value. simpl.
  rewrite map_map. simpl. rewrite <- (map_map fst VStr).
  rewrite distinct_strings by done. simpl.
  apply forallb_forall. intros e He.
  apply in_map_iff in He as ([owner s] & <- & He). simpl.
  rewrite Forall_forall in Hvalid. apply list_elem_of_In in He.
  specialize (Hvalid (owner, s) He). simpl in Hvalid.
  rewrite distinct_objects; simpl.
  - apply forallb_forall. intros v Hv.
    apply in_map_iff in Hv as (c & <- & Hc).
    apply stable_order_value.
    rewrite Forall_forall in Hvalid. apply Hvalid. by apply list_elem_of_In.
  - apply Forall_forall. intros v Hv.
    apply list_elem_of_fmap in Hv as (c & -> & _). by eexists.
Qed.

Lemma as_strings (l : list string) : mapM as_string (map VStr l) = Some l.
Proof.
  apply mapM_Some. induction l; simpl; by constructor.
Qed.

Lemma as_orders_value (m : list (OrderUid * OrderStatus)) :
  as_orders (orders_value m) = Some m.
Proof.
  unfold as_orders, orders_value. apply mapM_Some.
  induction m as [|[uid status] m IH]; simpl; constructor; [|done].
  by destruct status.
Qed.

Lemma as_proof_value (p : option Proof) :
  as_proof (proof_value p) = Some p.
Proof.
  destruct p as [[root path]|]; [|done]. simpl.
  by rewrite as_strings.
Qed.

Lemma as_order_value (r : nat) (c : ConditionalOrder) :
  exists c', as_order r (order_value c) = Some c' /\ order_read_back c' c.
Proof.
  unfold as_order, order_value.
  pose proof (as_orders_value (orders c)) as Horders.
  pose proof (as_proof_value (proof c)) as Hproof.
  destruct c as [ref tx [pr [] h s i] proof orders cc [[t b res]|]];
    simpl in *; rewrite Hproof, Horders; simpl;
    eexists; (split; [reflexivity|]); by repeat split.
Qed.

Lemma as_order_list_value (s : list ConditionalOrder) :
  forall heap, exists s' heap',
    as_order_list heap (map order_value s) = Some (s', heap') /\
    Forall2 order_read_back s' s.
Proof.
  induction s as [|c s IH]; intros heap; cbn -[as_order order_value].
  - by exists [], heap.
  - destruct (as_order_value heap c) as (c' & -> & Hc).
    destruct (IH (S heap)) as (s' & heap' & -> & Hs). simpl.
    exists (c' :: s'), heap'. split; [done|]. by constructor.
Qed.

Lemma as_ownerOrders_value (m : OwnerOrders) :
  forall heap, exists m' heap',
    as_ownerOrders heap (ownerOrders_value m) = Some (m', heap') /\
    ownerOrders_read_back m' m.
Proof.
  unfold as_ownerOrders, ownerOrders_value, ownerOrders_read_back.
  induction m as [|[owner s] m IH]; intros heap;
    cbn -[as_order_list order_value].
  - by exists [], heap.
  - destruct (as_order_list_value s heap) as (s' & heap1 & -> & Hs).
    cbn -[as_order_list order_value].
    destruct (IH heap1) as (m' & heap' & -> & Hm). simpl.
    exists ((owner, s') :: m'), heap'. split; [done|]. by constructor.
Qed.

(** What is read back holds the values that were written. *)
Lemma read_back_value_eq (m' m : OwnerOrders) :
  ownerOrders_read_back m' m -> ownerOrders_value_eq m' m.
Proof.
  unfold ownerOrders_read_back, ownerOrders_value_eq.
  induction 1 as [|e' e m' m [Howner Horders] _ IH]; constructor; [|done].
  split; [done|].
  clear -Horders. induction Horders as [|c' c s' s [Hc _] _ IH];
    by constructor.
Qed.

(** Reading back twice changes nothing more. *)
Lemma read_back_shape_twice (s : ParamsShape) :
  read_back_shape (read_back_shape s) = read_back_shape s.
Proof. by destruct s. Qed.

End RegistryValue.

(** ** Writing the registry and loading it back *)

Section Persistence.
Import JSON Model.
Context `{PlatformLaws}.

Lemma storage_keys_distinct (network : string) :
  let version_key :=
    getNetworkStorageKey CONDITIONAL_ORDER_REGISTRY_VERSION_KEY network in
  let registry_key :=
    getNetworkStorageKey CONDITIONAL_ORDER_REGISTRY_STORAGE_KEY network in
  let error_key :=
    getNetworkStorageKey LAST_NOTIFIED_ERROR_STORAGE_KEY network in
  let block_key :=
    getNetworkStorageKey LAST_PROCESSED_BLOCK_STORAGE_KEY network in
  version_key <> registry_key /\ version_key <> error_key /\
  version_key <> block_key /\ registry_key <> error_key /\
  registry_key <> block_key /\ error_key <> block_key.
Proof.
  unfold getNetworkStorageKey. simpl.
  repeat split; intros Heq; apply (f_equal String.length) in Heq;
    simpl in Heq; lia.
Qed.

(** What [stringifyOrders] writes is read back by
    [parseConditionalOrders] as the same orders, at new references. *)
Lemma parse_stringifyOrders (r : Registry) (version_ : option JS.number)
    (heap : nat) :
  NoDup (ownerOrders r).*1 ->
  Forall (fun e => Forall valid_order e.2) (ownerOrders r) ->
  exists text m' heap',
    stringifyOrders r = Some text /\
    JS.truthy text = true /\
    parseConditionalOrders (Some text) version_ heap = JS.Normal (m', heap') /\
    ownerOrders_read_back m' (ownerOrders r).
Proof.
  intros Hnodup Hvalid.
  destruct (parse_stringify (ownerOrders_value (ownerOrders r)))
    as (tree & Hstringify & Hparse);
    [by apply stable_ownerOrders_value|].
  destruct (as_ownerOrders_value (ownerOrders r) heap)
    as (m' & heap' & Hcast & Heq).
  exists (JSON_text tree), m', heap'.
  unfold stringifyOrders, parseConditionalOrders.
  rewrite Hstringify, JSON_text_truthy, JSON_tree_text, Hparse, Hcast.
  by repeat split.
Qed.

(** [write] stores a valid registry, with its version under the version
    key, and [load] then returns a registry with the same values; the
    params of its orders are in the shape in which they are read
    back. *)
Lemma load_after_write (r : Registry) (storage : gmap string string)
    (genesisBlockNumber : JS.number) (heap : nat) :
  valid r ->
  exists storage' r' heap',
    write r storage = JS.Normal storage' /\
    storage' !! getNetworkStorageKey
                  CONDITIONAL_ORDER_REGISTRY_VERSION_KEY (network r)
    = Some (JS.toString (version r)) /\
    load storage' (network r) genesisBlockNumber heap = JS.Normal (r', heap') /\
    ownerOrders_read_back (ownerOrders r') (ownerOrders r) /\
    registry_value_eq r' r.
Proof.
  intros (Hversion & Hnodup & Hvalid & Hdate).
  destruct (storage_keys_distinct (network r))
    as (Hvr & Hve & Hvb & Hre & Hrb & Heb).
  destruct (parse_stringifyOrders r (Some (JS.Int (version r))) heap
              Hnodup Hvalid)
    as (text & m' & heap' & Htext & Htruthy & Hparse & Heq).
  unfold write. rewrite Htext.
  destruct (lastNotifiedError r) as [[t|]|] eqn:Herror; [|done|];
    destruct (lastProcessedBlock r) as [n|] eqn:Hblock;
    (eexists _, _, heap'; split; [reflexivity|]);
    (split; [unfold DB.batch_write; simpl;
             repeat (first [rewrite lookup_insert_ne by congruence
                           |rewrite lookup_delete_ne by congruence]);
             by rewrite lookup_insert_eq|]);
    unfold load, DB.get, DB.batch_write; simpl;
    rewrite ?lookup_insert_eq, ?lookup_delete_eq;
    repeat (first [rewrite lookup_insert_ne by congruence
                  |rewrite lookup_delete_ne by congruence
                  |rewrite lookup_insert_eq
                  |rewrite lookup_delete_eq]);
    simpl; rewrite Htruthy, ?Number_toString;
    rewrite ?toISOString_truthy;
    try (destruct (Number_number_toString n) as [-> ->]);
    rewrite Hparse;
    (split; [reflexivity|]); (split; [exact Heq|]);
    apply read_back_value_eq in Heq;
    unfold registry_value_eq, new_Registry, new_Date; simpl;
    rewrite ?Date_parse_toISOString; by repeat split.
Qed.

(** [load] reads the version key and does not use what it reads. *)
Lemma load_ignores_version (storage : gmap string string)
    (network : string) (genesisBlockNumber : JS.number) (heap : nat) :
  (forall versionString,
     load (<[getNetworkStorageKey CONDITIONAL_ORDER_REGISTRY_VERSION_KEY network
             := versionString]> storage) network genesisBlockNumber heap
     = load storage network genesisBlockNumber heap) /\
  load (delete (getNetworkStorageKey
                  CONDITIONAL_ORDER_REGISTRY_VERSION_KEY network) storage)
    network genesisBlockNumber heap
  = load storage network genesisBlockNumber heap.
Proof.
  destruct (storage_keys_distinct network)
    as (Hvr & Hve & Hvb & Hre & Hrb & Heb).
  split; [intros versionString|]; unfold load, DB.get;
    rewrite ?lookup_insert_eq, ?lookup_delete_eq;
    repeat (first [rewrite lookup_insert_ne by congruence
                  |rewrite lookup_delete_ne by congruence]);
    destruct (storage !! getNetworkStorageKey
                           CONDITIONAL_ORDER_REGISTRY_STORAGE_KEY network);
    unfold parseConditionalOrders; reflexivity.
Qed.

(** C8, amended: [load] reads the persisted version and never consults
    it: whatever is stored under the version key (nothing, a lower
    version, the current one), the stored owner-orders are parsed the same
    way and [load] returns the same registry; nothing is migrated and
    nothing is discarded.  The registry that [load] returns is always at
    the current schema version. *)
Theorem C8_version_not_consulted (storage : gmap string string)
    (network : string) (genesisBlockNumber : JS.number) (heap : nat) :
  (forall versionString,
     load (<[getNetworkStorageKey CONDITIONAL_ORDER_REGISTRY_VERSION_KEY network
             := versionString]> storage) network genesisBlockNumber heap
     = load (delete (getNetworkStorageKey
                       CONDITIONAL_ORDER_REGISTRY_VERSION_KEY network) storage)
         network genesisBlockNumber heap) /\
  (forall serialized version1 version2,
     parseConditionalOrders serialized version1 heap
     = parseConditionalOrders serialized version2 heap) /\
  (forall r heap',
     load storage network genesisBlockNumber heap = JS.Normal (r, heap') ->
     version r = CONDITIONAL_ORDER_REGISTRY_VERSION).
Proof.
  destruct (load_ignores_version storage network genesisBlockNumber heap)
    as [Hinsert Hdelete].
  split; [|split].
  - intros versionString. by rewrite Hinsert, Hdelete.
  - reflexivity.
  - intros r heap'. unfold load.
    destruct (DB.get _ storage); [|discriminate].
    destruct (parseConditionalOrders _ _ heap) as [[m h]|]; [|discriminate].
    by intros [= <- _].
Qed.

End Persistence.

(** C5 fails on the registries that the watch-tower builds.  A
    [ConditionalOrderCreated] log of Alice is registered in an empty
    registry: the params of her order are the decoder's [Result], with
    its [handler], [salt] and [staticInput].  The registry is valid, it
    is written and loaded back: the order that [load] returns has the
    three values in a plain array, and its [params.handler],
    [params.salt] and [params.staticInput] are [undefined], so the
    loaded registry is not equal to the one that was written. *)
Theorem C5_decoded_params_read_back_as_array :
  let r :=
    (Events._registerNewOrder SampleEvents.codec (SampleEvents.created "0x01")
       (Model.new_Registry [] "1" None None) 0).1.1 in
  Model.valid r /\
  Model.ownerOrders r
  = [(SampleRegistry.alice,
      [{| Model.ref := 1; Model.tx := "0xbb";
          Model.params := SampleRegistry.params_at 0 "0x01";
          Model.proof := None; Model.orders := [];
          Model.composableCow := SampleEvents.contract;
          Model.pollResult := None |}])] /\
  Model.params_prop (SampleRegistry.params_at 0 "0x01") "handler"
  = JSON.VStr SampleRegistry.twap /\
  exists storage' r' heap' c',
    Model.write (H := Numerals.platform) r ∅ = JS.Normal storage' /\
    Model.load (H := Numerals.platform) storage' "1" (JS.Int 0) 2
    = JS.Normal (r', heap') /\
    Model.ownerOrders r' = [(SampleRegistry.alice, [c'])] /\
    Model.params_value (Model.params c')
    = JSON.VArr [JSON.VStr SampleRegistry.twap; JSON.VStr "0x01";
                 JSON.VStr "0x00"] /\
    Model.params_shape (Model.params c') = Model.PlainArray /\
    Model.params_prop (Model.params c') "handler" = JSON.VUndefined /\
    Model.params_prop (Model.params c') "salt" = JSON.VUndefined /\
    Model.params_prop (Model.params c') "staticInput" = JSON.VUndefined /\
    Model.params_prop (Model.params c') "handler"
    <> Model.params_prop (SampleRegistry.params_at 0 "0x01") "handler".
Proof.
  intros r.
  assert (Hr : r = Model.new_Registry
                     [(SampleRegistry.alice,
                       [{| Model.ref := 1; Model.tx := "0xbb";
                           Model.params := SampleRegistry.params_at 0 "0x01";
                           Model.proof := None; Model.orders := [];
                           Model.composableCow := SampleEvents.contract;
                           Model.pollResult := None |}])] "1" None None)
    by reflexivity.
  assert (Hvalid : Model.valid r).
  { rewrite Hr. split; [reflexivity|]. split; [|split; [|discriminate]].
    - apply (bool_decide_unpack _). vm_compute. exact I.
    - repeat apply Forall_cons_2; try apply Forall_nil_2.
      split; [constructor|exact I]. }
  clearbody r.
  split; [exact Hvalid|]. split; [by rewrite Hr|].
  split; [reflexivity|].
  destruct (load_after_write (H0 := numerals_laws) r ∅ (JS.Int 0) 2 Hvalid)
    as (storage' & r' & heap' & Hwrite & _ & Hload & Hback & _).
  subst r. simpl in Hback.
  inversion Hback as [|[owner' s'] e m' m [Howner Horders] Hrest Hm' Hm];
    subst. inversion Hrest; subst. simpl in Howner, Horders.
  inversion Horders as [|c' c t' t [Hvalue Hshape] Hnone Ht' Ht]; subst.
  inversion Hnone; subst.
  destruct Hvalue as (_ & (Hh & Hs & Hi) & _). simpl in Hh, Hs, Hi, Hshape.
  exists storage', r', heap', c'.
  split; [exact Hwrite|]. split; [exact Hload|].
  split; [by symmetry|].
  unfold Model.params_value, Model.params_prop.
  rewrite Hshape, Hh, Hs, Hi. by repeat split.
Qed.

(** C8, as stated, fails: the store below has no version key and holds
    Alice's order; [load] returns a registry with that order, not an empty
    one.  With the lower version 0 under the version key, [load] returns
    what it returns for the store as it was written, at version 1. *)
Lemma C8_missing_version_keeps_orders :
  SampleStore.written !! SampleStore.version_key = Some "1" /\
  SampleStore.without_version !! SampleStore.version_key = None /\
  (exists r heap',
     Model.load (H := Numerals.platform) SampleStore.without_version "1"
       (JS.Int 0) 1 = JS.Normal (r, heap') /\
     Model.ownerOrders_value_eq (Model.ownerOrders r)
       (Model.ownerOrders SampleRegistry.one_order) /\
     Model.ownerOrders r <> []) /\
  Model.load (H := Numerals.platform) SampleStore.lower_version "1"
    (JS.Int 0) 1
  = Model.load (H := Numerals.platform) SampleStore.written "1" (JS.Int 0) 1.
Proof.
  assert (Hvalid : Model.valid SampleRegistry.one_order).
  { split; [reflexivity|]. split; [|split; [|discriminate]].
    - apply (bool_decide_unpack _). vm_compute. exact I.
    - repeat constructor. }
  destruct (load_after_write (H0 := numerals_laws) SampleRegistry.one_order ∅
              (JS.Int 0) 1 Hvalid)
    as (storage' & r' & heap' & Hwrite & Hversion & Hload & _ & Heq).
  assert (Hwritten : SampleStore.written = storage').
  { unfold SampleStore.written. by rewrite Hwrite. }
  destruct (load_ignores_version (H := Numerals.platform) SampleStore.written
              "1" (JS.Int 0) 1) as [Hinsert Hdelete].
  split; [by rewrite Hwritten|].
  split; [apply lookup_delete_eq|].
  split; [|apply Hinsert].
  exists r', heap'. unfold SampleStore.without_version, SampleStore.version_key.
  rewrite Hdelete, Hwritten. split; [exact Hload|].
  destruct Heq as (_ & Horders & _). split; [exact Horders|].
  intros Hempty. rewrite Hempty in Horders. inversion Horders.
Qed.

(** C8 (amended) at the store written for Alice's order: what [load]
    returns is at the current schema version. *)
Lemma C8_version_not_consulted_witness :
  exists r heap',
    Model.load (H := Numerals.platform) SampleStore.written "1" (JS.Int 0) 1
    = JS.Normal (r, heap') /\
    Model.version r = Model.CONDITIONAL_ORDER_REGISTRY_VERSION.
Proof.
  destruct (Model.load (H := Numerals.platform) SampleStore.written "1"
              (JS.Int 0) 1) as [[r heap']|e] eqn:Hload.
  - exists r, heap'. split; [reflexivity|].
    destruct (C8_version_not_consulted (H := Numerals.platform)
                SampleStore.written "1" (JS.Int 0) 1) as (_ & _ & Hversion).
    exact (Hversion r heap' Hload).
  - exfalso.
    assert (Hvalid : Model.valid SampleRegistry.one_order).
    { split; [reflexivity|]. split; [|split; [|discriminate]].
      - apply (bool_decide_unpack _). vm_compute. exact I.
      - repeat constructor. }
    destruct (load_after_write (H0 := numerals_laws) SampleRegistry.one_order
                ∅ (JS.Int 0) 1 Hvalid)
      as (storage' & r' & heap' & Hwrite & _ & Hload' & _).
    unfold SampleStore.written in Hload. rewrite Hwrite in Hload.
    simpl in Hload'. rewrite Hload' in Hload. discriminate Hload.
Defined.

(* ===================================================================== *)
(** * Part III. Further properties of the code                            *)
(* ===================================================================== *)

(** ** Timing an action: [measureTime] *)

(** On every path of [measureTime] the timer is started once and stopped
    once, with the action called in between; the counter of total runs
    goes up exactly when [measureTime] returns a result, and stays as it
    is exactly when it throws. *)
Theorem measureTime_counts_completed_runs {T} (action : JS.Completion T)
    (errorHandler : option (string -> JS.Completion T)) (errorMetric : bool) :
  let calls := (Metrics.measureTime action errorHandler errorMetric).1 in
  let completion := (Metrics.measureTime action errorHandler errorMetric).2 in
  Metrics.times Metrics.is_timer_started calls = 1%nat /\
  Metrics.times Metrics.is_timer_stopped calls = 1%nat /\
  (exists during after,
     calls = Metrics.timer_started :: during ++ Metrics.timer_stopped :: after /\
     Metrics.action_called ∈ during /\
     Metrics.times Metrics.is_errorHandler_called after = 0%nat) /\
  (Metrics.times Metrics.is_totalRunsMetric_inc calls = 1%nat <->
   exists result, completion = JS.Normal result) /\
  (Metrics.times Metrics.is_totalRunsMetric_inc calls = 0%nat <->
   exists err, completion = JS.Throw err).
Proof.
  unfold Metrics.measureTime.
  destruct action as [result|err]; simpl.
  - split; [done|]. split; [done|]. split.
    + exists [Metrics.action_called], [Metrics.totalRunsMetric_inc].
      split; [done|]. split; [by left | done].
    + split; split; try done; [by eexists | by intros [? ?]].
  - destruct errorHandler as [handler|]; simpl.
    + destruct errorMetric; simpl.
      * destruct (handler err) as [result|err']; simpl.
        -- split; [done|]. split; [done|]. split.
           ++ exists [Metrics.action_called; Metrics.errorMetric_inc;
                      Metrics.errorHandler_called err],
                     [Metrics.totalRunsMetric_inc].
              split; [done|]. split; [by left | done].
           ++ split; split; try done; [by eexists | by intros [? ?]].
        -- split; [done|]. split; [done|]. split.
           ++ exists [Metrics.action_called; Metrics.errorMetric_inc;
                      Metrics.errorHandler_called err], [].
              split; [done|]. split; [by left | done].
           ++ split; split; try done; [by intros [? ?] | by eexists].
      * split; [done|]. split; [done|]. split.
        -- exists [Metrics.action_called], [].
           split; [done|]. split; [by left | done].
        -- split; split; try done; [by intros [? ?] | by eexists].
    + split; [done|]. split; [done|]. split.
      * exists [Metrics.action_called], [].
        split; [done|]. split; [by left | done].
      * split; split; try done; [by intros [? ?] | by eexists].
Qed.

Local Ltac inversion_calls H :=
  repeat (apply elem_of_cons in H as [H|H]; [try discriminate H|]);
  try (by apply elem_of_nil in H); try (by injection H as ->).

(** When the action throws: the error handler is called, and the error
    counter goes up, exactly when both the handler and the counter were
    given, and the handler is given the action's error; without a
    handler the action's error is thrown again; with a handler and no
    counter [measureTime] throws its own error without calling the
    handler; otherwise the outcome is the handler's.  When the action
    returns, neither the handler nor the error counter is touched. *)
Theorem measureTime_error_handling {T} (action : JS.Completion T)
    (errorHandler : option (string -> JS.Completion T)) (errorMetric : bool) :
  let calls := (Metrics.measureTime action errorHandler errorMetric).1 in
  let completion := (Metrics.measureTime action errorHandler errorMetric).2 in
  Metrics.times Metrics.is_errorMetric_inc calls
  = Metrics.times Metrics.is_errorHandler_called calls /\
  (Metrics.times Metrics.is_errorHandler_called calls = 1%nat <->
   (exists err, action = JS.Throw err) /\ is_Some errorHandler
   /\ errorMetric = true) /\
  (Metrics.times Metrics.is_errorHandler_called calls = 0%nat <->
   ~ ((exists err, action = JS.Throw err) /\ is_Some errorHandler
      /\ errorMetric = true)) /\
  (forall err, Metrics.errorHandler_called err ∈ calls ->
               action = JS.Throw err) /\
  (forall result, action = JS.Normal result ->
                  completion = JS.Normal result) /\
  (forall err, action = JS.Throw err ->
     match errorHandler with
     | None => completion = JS.Throw err
     | Some handler =>
         if errorMetric then completion = handler err
         else completion = JS.Throw Metrics.MISSING_ERROR_METRIC
     end).
Proof.
  unfold Metrics.measureTime.
  destruct action as [result|err]; simpl.
  - split; [done|]. split.
    { split; [done|]. by intros [[? ?] _]. }
    split.
    { split; [|done]. by intros _ [[? ?] _]. }
    split; [by intros e He; inversion_calls He|]. split; [congruence | done].
  - destruct errorHandler as [handler|]; simpl.
    + destruct errorMetric; simpl.
      * assert (Hcalls :
          forall (c : JS.Completion T),
            (match c with
             | JS.Normal result0 =>
                 ([Metrics.timer_started; Metrics.action_called;
                   Metrics.errorMetric_inc; Metrics.errorHandler_called err;
                   Metrics.timer_stopped; Metrics.totalRunsMetric_inc],
                  JS.Normal result0)
             | JS.Throw err0 =>
                 ([Metrics.timer_started; Metrics.action_called;
                   Metrics.errorMetric_inc; Metrics.errorHandler_called err;
                   Metrics.timer_stopped], JS.Throw err0)
             end).2 = c) by (by intros []).
        destruct (handler err) as [result|err'] eqn:Hh; simpl.
        -- split; [done|]. split.
           { split; [|done]. intros _. split; [by eexists|]. by split. }
           split.
           { split; [done|]. intros Hnot. destruct Hnot.
             split; [by eexists|]. by split. }
           split.
           { intros e He. by inversion_calls He. }
           split; [done|]. intros e [= <-]. by rewrite Hh.
        -- split; [done|]. split.
           { split; [|done]. intros _. split; [by eexists|]. by split. }
           split.
           { split; [done|]. intros Hnot. destruct Hnot.
             split; [by eexists|]. by split. }
           split.
           { intros e He. by inversion_calls He. }
           split; [done|]. intros e [= <-]. by rewrite Hh.
      * split; [done|]. split.
        { split; [done|]. by intros (_ & _ & ?). }
        split.
        { split; [|done]. by intros _ (_ & _ & ?). }
        split; [by intros e He; inversion_calls He|]. split; [done|]. by intros e [= <-].
    + split; [done|]. split.
      { split; [done|]. by intros (_ & [? ?] & _). }
      split.
      { split; [|done]. by intros _ (_ & [? ?] & _). }
      split; [by intros e He; inversion_calls He|]. split; [done|]. by intros e [= <-].
Qed.

(** ** Console logging with a Loggly buffer *)

Section LoggingProperties.
Import Logging.
Context {any : Type}.

Lemma run_snoc (actions : list (Action any)) (a : Action any)
    (st : Logger any) :
  run any (actions ++ [a]) st = step any (run any actions st) a.
Proof. unfold run. by rewrite foldl_app. Qed.

Lemma messages_snoc (actions : list (Action any)) (a : Action any) :
  messages any (actions ++ [a]) = messages any actions ++ messages any [a].
Proof. unfold messages. by rewrite omap_app. Qed.

(** The invariant of the buffered mode, over a run. *)
Lemma buffered_run (actions : list (Action any)) (st : Logger any) :
  initialized st = true -> logOnlyIfError st = true ->
  let st' := run any actions st in
  initialized st' = true /\ logOnlyIfError st' = true /\
  winston_log st' ++ buffer st'
  = (winston_log st ++ buffer st) ++ messages any actions /\
  (Forall (fun m => level m <> error) (buffer st) ->
   Forall (fun m => level m <> error) (buffer st')) /\
  (Forall (fun m => level m <> error) (messages any actions) ->
   winston_log st' = winston_log st).
Proof.
  intros Hinit Hmode.
  induction actions as [|a actions IH] using rev_ind; simpl.
  - rewrite app_nil_r. by repeat split.
  - destruct IH as (Hi & Hm & Hall & Hbuf & Hquiet).
    rewrite run_snoc, messages_snoc.
    destruct a as [token tags mode|method data]; simpl.
    + unfold initLogging. rewrite Hi. rewrite app_nil_r.
      by repeat split.
    + rewrite Hi. unfold logWithLoggly. rewrite Hm.
      destruct (getLoggingMessage any (overriding_level method) data)
        as [m|] eqn:Hmsg; simpl.
      * assert (Hlevel : level m = overriding_level method).
        { destruct data as [|x [|y data]]; simpl in Hmsg; [done| |];
            by injection Hmsg as <-. }
        destruct (is_error (overriding_level method)) eqn:Herr; simpl.
        -- rewrite app_nil_r, Hall, !app_assoc.
           split; [done|]. split; [done|]. split; [done|].
           split; [by intros _; constructor|].
           intros Hno. apply Forall_app in Hno as [_ Hno].
           apply Forall_cons in Hno as [Hno _].
           rewrite Hlevel in Hno.
           by destruct (overriding_level method).
        -- rewrite !app_assoc, Hall.
           split; [done|]. split; [done|]. split; [done|].
           split.
           ++ intros Hb. apply Forall_app. split; [by apply Hbuf|].
              constructor; [|done]. rewrite Hlevel.
              by destruct (overriding_level method).
           ++ intros Hno. apply Forall_app in Hno as [Hno _].
              by apply Hquiet.
      * rewrite app_nil_r. by repeat split.
Qed.

(** With [logOnlyIfError], nothing is lost and nothing is reordered:
    what has been given to winston, followed by what is in the buffer, is
    the sequence of the messages logged so far; no error waits in the
    buffer; as long as no error is logged, nothing is given to winston;
    and an error, once logged, has everything before it and itself given
    to winston, the buffer being empty. *)
Theorem logging_buffer_keeps_order (actions : list (Action any))
    (st : Logger any) :
  initialized st = true -> logOnlyIfError st = true -> buffer st = [] ->
  let st' := run any actions st in
  winston_log st' ++ buffer st' = winston_log st ++ messages any actions /\
  Forall (fun m => level m <> error) (buffer st') /\
  (Forall (fun m => level m <> error) (messages any actions) ->
   winston_log st' = winston_log st /\ buffer st' = messages any actions) /\
  (forall data, data <> [] ->
     let st'' := run any (actions ++ [call console_error data]) st in
     buffer st'' = [] /\
     winston_log st''
     = winston_log st
       ++ messages any (actions ++ [call console_error data])).
Proof.
  intros Hinit Hmode Hbuf. simpl.
  destruct (buffered_run actions st Hinit Hmode)
    as (Hi & Hm & Hall & Hkeep & Hquiet).
  rewrite Hbuf, app_nil_r in Hall.
  split; [exact Hall|]. split; [apply Hkeep; by rewrite Hbuf|]. split.
  - intros Hno. specialize (Hquiet Hno). split; [exact Hquiet|].
    rewrite Hquiet in Hall. by apply app_inv_head in Hall.
  - intros data Hdata. rewrite run_snoc, messages_snoc. simpl.
    rewrite Hi. unfold logWithLoggly. rewrite Hm.
    destruct data as [|x [|y data]]; [done| |]; simpl;
      by rewrite Hall, app_assoc.
Qed.

(** Without [logOnlyIfError] every message is given to winston at once,
    in order, and the buffer is never used. *)
Theorem logging_immediate_mode (actions : list (Action any))
    (st : Logger any) :
  initialized st = true -> logOnlyIfError st = false ->
  let st' := run any actions st in
  winston_log st' = winston_log st ++ messages any actions /\
  buffer st' = buffer st.
Proof.
  intros Hinit Hmode. simpl.
  enough (Hinv : initialized (run any actions st) = true /\
                 logOnlyIfError (run any actions st) = false /\
                 winston_log (run any actions st)
                 = winston_log st ++ messages any actions /\
                 buffer (run any actions st) = buffer st)
    by (destruct Hinv as (_ & _ & ? & ?); by split).
  induction actions as [|a actions IH] using rev_ind; simpl.
  - rewrite app_nil_r. by repeat split.
  - destruct IH as (Hi & Hm & Hall & Hbuf).
    rewrite run_snoc, messages_snoc.
    destruct a as [token tags mode|method data]; simpl.
    + unfold initLogging. rewrite Hi, app_nil_r. by repeat split.
    + rewrite Hi. unfold logWithLoggly. rewrite Hm.
      destruct (getLoggingMessage any (overriding_level method) data)
        as [m|] eqn:Hmsg; simpl.
      * rewrite Hall, app_assoc. by repeat split.
      * rewrite app_nil_r. by repeat split.
Qed.

(** Every call of a function of [console] is printed, in order, with
    its arguments, in both modes and also when it has no arguments:
    before [initLogging] by the function itself and with nothing given
    to winston, afterwards by the original function of the level
    ([console.log] is printed by [console.info]). *)
Theorem logging_prints_every_call (actions : list (Action any))
    (st : Logger any) :
  (initialized st = true ->
   console (run any actions st)
   = console st
     ++ omap (fun a => match a with
                       | call method data =>
                           Some (consoleOriginal (overriding_level method),
                                 data)
                       | init _ _ _ => None
                       end) actions) /\
  (initialized st = false ->
   Forall (fun a => match a with
                    | call _ _ => True
                    | init _ _ _ => False
                    end) actions ->
   console (run any actions st)
   = console st
     ++ omap (fun a => match a with
                       | call method data => Some (method, data)
                       | init _ _ _ => None
                       end) actions /\
   winston_log (run any actions st) = winston_log st /\
   buffer (run any actions st) = buffer st).
Proof.
  split.
  - intros Hinit.
    enough (Hinv : initialized (run any actions st) = true /\
              console (run any actions st)
              = console st
                ++ omap (fun a => match a with
                                  | call method data =>
                                      Some (consoleOriginal
                                              (overriding_level method), data)
                                  | init _ _ _ => None
                                  end) actions)
      by apply Hinv.
    induction actions as [|a actions IH] using rev_ind; simpl.
    + by rewrite app_nil_r.
    + destruct IH as (Hi & Hc). rewrite run_snoc, omap_app.
      set (s := run any actions st) in *.
      destruct a as [token tags mode|method data]; simpl.
      * unfold initLogging. rewrite Hi, app_nil_r. by split.
      * rewrite Hi. unfold logWithLoggly.
        destruct (getLoggingMessage any (overriding_level method) data);
          [destruct (logOnlyIfError s);
           [destruct (is_error (overriding_level method))|]|];
          simpl; rewrite Hi, Hc, app_assoc; by split.
  - intros Hinit Hcalls.
    enough (Hinv : initialized (run any actions st) = false /\
              console (run any actions st)
              = console st
                ++ omap (fun a => match a with
                                  | call method data => Some (method, data)
                                  | init _ _ _ => None
                                  end) actions /\
              winston_log (run any actions st) = winston_log st /\
              buffer (run any actions st) = buffer st)
      by apply Hinv.
    induction actions as [|a actions IH] using rev_ind; simpl.
    + by rewrite app_nil_r.
    + apply Forall_app in Hcalls as [Hcalls Ha].
      apply Forall_cons in Ha as [Ha _].
      destruct (IH Hcalls) as (Hi & Hc & Hw & Hb).
      rewrite run_snoc, omap_app.
      set (s := run any actions st) in *.
      destruct a as [token tags mode|method data]; [done|]. simpl.
      rewrite Hi. simpl. rewrite Hc, app_assoc. by repeat split.
Qed.

(** Only the first [initLogging] counts: whatever is logged and however
    often [initLogging] is called again, with whatever arguments, one
    transport has been added to winston, the one of the first call, and
    the mode is the one of the first call. *)
Theorem logging_initialised_once (logglyToken : string) (tags : list string)
    (logOnlyIfError_ : option bool) (actions : list (Action any)) :
  let st' :=
    run any (init logglyToken tags logOnlyIfError_ :: actions) start in
  initialized st' = true /\
  transports st' = [(logglyToken, tags)] /\
  logOnlyIfError st' = default false logOnlyIfError_.
Proof.
  change (run any (init logglyToken tags logOnlyIfError_ :: actions) start)
    with (run any actions (initLogging any logglyToken tags logOnlyIfError_
                             start)).
  set (st := initLogging any logglyToken tags logOnlyIfError_ start).
  simpl.
  induction actions as [|a actions IH] using rev_ind; [done|].
  destruct IH as (Hi & Ht & Hm). rewrite run_snoc.
  set (s := run any actions st) in *.
  destruct a as [token' tags' mode'|method data]; simpl.
  - unfold initLogging. by rewrite Hi.
  - rewrite Hi. unfold logWithLoggly.
    destruct (getLoggingMessage any (overriding_level method) data);
      [destruct (logOnlyIfError s) eqn:Hs; [destruct (is_error _)|]|];
      simpl; by rewrite ?Hi, ?Ht.
Qed.

End LoggingProperties.

(** The buffered mode at a run that logs two lines, then a bare call,
    then an error with its cause. *)
Lemma logging_buffer_keeps_order_witness :
  let st := Logging.initLogging string "token" ["prod"] (Some true)
              Logging.start in
  let actions :=
    [Logging.call Logging.console_log ["start"];
     Logging.call Logging.console_debug ["block"; "150"];
     Logging.call Logging.console_info [];
     Logging.call Logging.console_error ["failed"; "timeout"]] in
  Logging.winston_log (Logging.run string actions st)
  ++ Logging.buffer (Logging.run string actions st)
  = [{| Logging.level := Logging.info; Logging.message := "start";
        Logging.meta := None |};
     {| Logging.level := Logging.debug; Logging.message := "block";
        Logging.meta := Some ["150"] |};
     {| Logging.level := Logging.error; Logging.message := "failed";
        Logging.meta := Some ["timeout"] |}].
Proof.
  simpl.
  destruct (logging_buffer_keeps_order
              [Logging.call Logging.console_log ["start"];
               Logging.call Logging.console_debug ["block"; "150"];
               Logging.call Logging.console_info [];
               Logging.call Logging.console_error ["failed"; "timeout"]]
              (Logging.initLogging string "token" ["prod"] (Some true)
                 Logging.start)) as (Hall & _).
  - reflexivity.
  - reflexivity.
  - reflexivity.
  - exact Hall.
Defined.

(** The immediate mode at the same run. *)
Lemma logging_immediate_mode_witness :
  let st := Logging.initLogging string "token" ["prod"] None Logging.start in
  let actions :=
    [Logging.call Logging.console_log ["start"];
     Logging.call Logging.console_error ["failed"; "timeout"]] in
  Logging.winston_log (Logging.run string actions st)
  = [{| Logging.level := Logging.info; Logging.message := "start";
        Logging.meta := None |};
     {| Logging.level := Logging.error; Logging.message := "failed";
        Logging.meta := Some ["timeout"] |}] /\
  Logging.buffer (Logging.run string actions st) = [].
Proof.
  simpl.
  apply (logging_immediate_mode
           [Logging.call Logging.console_log ["start"];
            Logging.call Logging.console_error ["failed"; "timeout"]]
           (Logging.initLogging string "token" ["prod"] None Logging.start));
    reflexivity.
Defined.

(** ** The [numOrders] getter *)

Section RegistryCounting.
Import Model AddContract RegistryClass.

Lemma Map_set_length {V} (k : string) (v : V) (m : list (string * V)) :
  length (Map_set k v m) = if Map_has k m then length m else S (length m).
Proof.
  induction m as [|[k' v'] m IH]; simpl; [done|].
  unfold Map_has in *. simpl.
  destruct (String.eqb k' k); simpl; [done|]. rewrite IH.
  by destruct (existsb _ m).
Qed.

Lemma flatMap_not_arrays {A} (l : list A) :
  length (Array_flatMap (fun o : A => @inr (list A) A o) l) = length l.
Proof.
  unfold Array_flatMap. induction l as [|x l IH]; simpl; [done|].
  by rewrite IH.
Qed.

(** [numOrders] is the number of owners of the registry, not the number
    of their orders: registries with the same owners have the same
    [numOrders], and [add] raises it by one when it is given a new owner
    and leaves it as it is when it adds an order to a known owner. *)
Theorem numOrders_counts_owners (registry : Registry) :
  numOrders registry = length (ownerOrders registry) /\
  (forall registry',
     (ownerOrders registry').*1 = (ownerOrders registry).*1 ->
     numOrders registry' = numOrders registry) /\
  (forall tx owner params proof composableCow heap,
     numOrders (add tx owner params proof composableCow registry heap).1
     = if Map_has owner (ownerOrders registry)
       then numOrders registry else S (numOrders registry)).
Proof.
  assert (Hnum : forall r, numOrders r = length (ownerOrders r)).
  { intros r. unfold numOrders, Map_values.
    by rewrite flatMap_not_arrays, length_fmap. }
  split; [apply Hnum|]. split.
  - intros registry' Howners. rewrite !Hnum.
    by rewrite <- (length_fmap fst (ownerOrders registry')), Howners,
      length_fmap.
  - intros tx owner params proof composableCow heap. rewrite !Hnum.
    unfold add.
    destruct (Map_has owner (ownerOrders registry)) eqn:Hhas.
    + destruct (Map_get owner (ownerOrders registry)) as [s|]; [|done].
      destruct (negb _); [|done]. simpl.
      by rewrite Map_set_length, Hhas.
    + simpl. by rewrite Map_set_length, Hhas.
Qed.

End RegistryCounting.

(** ** Handling the events of the contract *)

Section EventHandling.
Import Model AddContract Events.
Context {ProofItem : Type}.
Variable abi : Codec ProofItem.

Lemma Map_get_elem {V} (k : string) (v : V) (m : list (string * V)) :
  Map_get k m = Some v -> (k, v) ∈ m.
Proof.
  induction m as [|[k' v'] m IH]; simpl; [done|].
  destruct (String.eqb_spec k' k) as [->|Hne].
  - intros [= ->]. by left.
  - intros Hget. right. by apply IH.
Qed.

Lemma Forall_Map_set {V} (P : V -> Prop) (k : string) (v : V)
    (m : list (string * V)) :
  Forall (fun e => P e.2) m -> P v -> Forall (fun e => P e.2) (Map_set k v m).
Proof.
  intros Hm Hv. induction Hm as [|[k' v'] m Hx Hm IH]; simpl.
  - by repeat constructor.
  - destruct (String.eqb k' k); constructor; done.
Qed.

Lemma fresh_owner heap registry owner s c :
  fresh heap registry -> Map_get owner (ownerOrders registry) = Some s ->
  c ∈ s -> (ref c < heap)%nat /\ (params_ref (params c) < heap)%nat.
Proof.
  intros Hfresh Hget Hc. apply Map_get_elem in Hget.
  unfold fresh in Hfresh. rewrite Forall_forall in Hfresh.
  specialize (Hfresh _ Hget). simpl in Hfresh.
  rewrite Forall_forall in Hfresh. by apply Hfresh.
Qed.

Lemma fresh_mono heap heap' registry :
  (heap <= heap')%nat -> fresh heap registry -> fresh heap' registry.
Proof.
  intros Hle Hfresh. unfold fresh.
  eapply Forall_impl; [exact Hfresh|]. intros e He. simpl in He.
  eapply Forall_impl; [exact He|]. intros c [? ?]. simpl in *. lia.
Qed.

(** What [add] does with a params object that was just created: it
    appends a new order to the orders of the owner, whatever they are. *)
Lemma add_decoded tx owner d proof_ address registry heap :
  fresh heap registry ->
  let order :=
    {| ref := S heap; tx := tx; params := decoded_at heap d; proof := proof_;
       orders := []; composableCow := address; pollResult := None |} in
  let r := add tx owner (decoded_at heap d) proof_ address registry (S heap) in
  r.2 = S (S heap) /\
  Map_get owner (ownerOrders r.1) = Some (orders_of owner registry ++ [order]) /\
  (forall o, o <> owner ->
     Map_get o (ownerOrders r.1) = Map_get o (ownerOrders registry)) /\
  fresh (S (S heap)) r.1.
Proof.
  intros Hfresh order r. unfold orders_of.
  destruct (Map_get owner (ownerOrders registry)) as [s|] eqn:Hget.
  - assert (Hparams : forall c, c ∈ s ->
              params_ref (params c) <> params_ref (decoded_at heap d)).
    { intros c Hc. destruct (fresh_owner _ _ _ _ _ Hfresh Hget Hc).
      simpl. lia. }
    assert (Hrefs : forall c, c ∈ s -> ref c <> S heap).
    { intros c Hc. destruct (fresh_owner _ _ _ _ _ Hfresh Hget Hc). lia. }
    pose proof (add_other_object tx owner (decoded_at heap d) proof_ address
                  registry (S heap) s Hget Hparams Hrefs) as Hadd.
    fold r in Hadd. fold order in Hadd.
    assert (Hhas : Map_has owner (ownerOrders registry) = true)
      by (apply Map_has_get; by eexists).
    assert (Hex : existsb (fun c => params_strict_equal (params c)
                                      (decoded_at heap d)) s = false).
    { apply not_true_iff_false. intros Hex.
      apply existsb_exists in Hex as (c & Hc & Heq).
      apply list_elem_of_In in Hc. apply (Hparams c Hc).
      by apply Nat.eqb_eq. }
    assert (Hr : r = (with_ownerOrders registry
                        (Map_set owner (Set_add order s)
                           (ownerOrders registry)), S (S heap))).
    { unfold r, add. by rewrite Hhas, Hget, Hex. }
    split; [by rewrite Hr|]. split; [exact Hadd|]. split.
    + intros o Ho. rewrite Hr. simpl. by apply Map_get_set_ne.
    + rewrite Hr. unfold fresh. simpl. apply Forall_Map_set.
      * apply (fresh_mono heap); [lia | exact Hfresh].
      * assert (Hset : Set_add order s = s ++ [order]).
        { rewrite Hr in Hadd. simpl in Hadd.
          rewrite Map_get_set_eq in Hadd. by injection Hadd. }
        rewrite Hset. apply Forall_app. split.
        -- apply Forall_forall. intros c Hc.
           destruct (fresh_owner _ _ _ _ _ Hfresh Hget Hc). lia.
        -- repeat constructor; simpl; lia.
  - pose proof (add_new_owner tx owner (decoded_at heap d) proof_ address
                  registry (S heap) Hget) as Hadd.
    fold r in Hadd. fold order in Hadd.
    assert (Hhas : Map_has owner (ownerOrders registry) = false).
    { apply not_true_iff_false. intros Hhas.
      apply Map_has_get in Hhas as [s Hs]. congruence. }
    assert (Hr : r = (with_ownerOrders registry
                        (Map_set owner [order] (ownerOrders registry)),
                      S (S heap))).
    { unfold r, add. by rewrite Hhas. }
    split; [by rewrite Hr|]. split; [exact Hadd|]. split.
    + intros o Ho. rewrite Hr. simpl. by apply Map_get_set_ne.
    + rewrite Hr. unfold fresh. simpl. apply Forall_Map_set.
      * apply (fresh_mono heap); [lia | exact Hfresh].
      * repeat constructor; simpl; lia.
Qed.

(** A [ConditionalOrderCreated] log that decodes always adds an order:
    the params object is the one the decoder has just created, so the
    search of [add] for it among the owner's orders finds nothing, and
    the owner's orders grow by one order with these params, this
    transaction and this contract, whatever params the orders before it
    hold; the orders of the other owners stay as they are. *)
Theorem registerNewOrder_created_always_adds (event : Log)
    (registry : Registry) (heap : nat) (owner : Owner) (d : DecodedParams) :
  topic0_is event (getEventTopic abi "ConditionalOrderCreated")
  = true ->
  decode_ConditionalOrderCreated abi
    (log_data event) (log_topics event) = JS.Normal (owner, d) ->
  fresh heap registry ->
  let r := _registerNewOrder abi event registry heap in
  r.2 = {| error := false; added := true |} /\
  Map_get owner (ownerOrders r.1.1)
  = Some (orders_of owner registry
          ++ [{| ref := S heap; tx := log_transactionHash event;
                 params := decoded_at heap d; proof := None; orders := [];
                 composableCow := log_address event; pollResult := None |}]) /\
  (forall o, o <> owner ->
     Map_get o (ownerOrders r.1.1) = Map_get o (ownerOrders registry)) /\
  fresh r.1.2 r.1.1.
Proof.
  intros Htopic Hdecode Hfresh. unfold _registerNewOrder.
  rewrite Htopic, Hdecode.
  destruct (add_decoded (log_transactionHash event) owner d None
              (log_address event) registry heap Hfresh)
    as (Hheap & Hget & Hothers & Hfresh').
  destruct (add (log_transactionHash event) owner (decoded_at heap d) None
              (log_address event) registry (S heap)) as [registry' heap'].
  simpl in *. subst heap'. by repeat split.
Qed.

(** A log with another first topic, or with no topic at all, is none of
    [_registerNewOrder]'s business, and a log of either event that does
    not decode is an error: in both cases the registry is left as it
    is and nothing is reported as added. *)
Theorem registerNewOrder_leaves_registry (event : Log) (registry : Registry)
    (heap : nat) :
  let created :=
    topic0_is event (getEventTopic abi "ConditionalOrderCreated") in
  let merkleRootSet :=
    topic0_is event (getEventTopic abi "MerkleRootSet") in
  let r := _registerNewOrder abi event registry heap in
  (created = false -> merkleRootSet = false ->
   r = (registry, heap, {| error := false; added := false |})) /\
  (log_topics event = [] ->
   r = (registry, heap, {| error := false; added := false |})) /\
  (forall e, created = true ->
     decode_ConditionalOrderCreated abi
       (log_data event) (log_topics event) = JS.Throw e ->
     r = (registry, heap, {| error := true; added := false |})) /\
  (forall e, created = false -> merkleRootSet = true ->
     decode_MerkleRootSet abi
       (log_data event) (log_topics event) = JS.Throw e ->
     r = (registry, heap, {| error := true; added := false |})).
Proof.
  unfold _registerNewOrder. repeat split.
  - by intros -> ->.
  - unfold topic0_is. by intros ->.
  - by intros e -> ->.
  - by intros e -> -> ->.
Qed.

Lemma add_under_root tx owner d path_ root address registry heap :
  all_under_root owner root registry ->
  all_under_root owner root
    (add tx owner d (Some {| merkleRoot := root; path := path_ |}) address
       registry heap).1.
Proof.
  intros Hall s c p. unfold add.
  destruct (Map_has owner (ownerOrders registry)) eqn:Hhas.
  - destruct (Map_get owner (ownerOrders registry)) as [s0|] eqn:Hget;
      [|by apply Hall].
    destruct (negb _); [|by apply Hall]. simpl.
    rewrite Map_get_set_eq. intros [= <-]. unfold Set_add.
    destruct (existsb _ s0); [by apply (Hall s0)|].
    intros Hc. apply elem_of_app in Hc as [Hc|Hc]; [by apply (Hall s0)|].
    apply list_elem_of_singleton in Hc as ->. simpl. by intros [= <-].
  - simpl. rewrite Map_get_set_eq. intros [= <-] Hc.
    apply list_elem_of_singleton in Hc as ->. simpl. by intros [= <-].
Qed.

Lemma add_others tx owner d proof_ address registry heap o :
  o <> owner ->
  Map_get o (ownerOrders (add tx owner d proof_ address registry heap).1)
  = Map_get o (ownerOrders registry).
Proof.
  intros Ho. unfold add.
  destruct (Map_has owner (ownerOrders registry)).
  - destruct (Map_get owner (ownerOrders registry)); [|done].
    destruct (negb _); [|done]. simpl. by apply Map_get_set_ne.
  - simpl. by apply Map_get_set_ne.
Qed.

Lemma add_proof_orders_under_root event owner root proofData :
  forall registry heap added_,
    all_under_root owner root registry ->
    let r := add_proof_orders abi event owner root proofData
               registry heap added_ in
    all_under_root owner root r.1.1 /\
    (forall o, o <> owner ->
       Map_get o (ownerOrders r.1.1) = Map_get o (ownerOrders registry)).
Proof.
  induction proofData as [|order proofData IH]; intros registry heap added_ Hall;
    simpl; [done|].
  destruct (decode_proof_order abi order) as [[path_ d]|e];
    [|done].
  destruct (add (log_transactionHash event) owner (decoded_at heap d)
              (Some {| merkleRoot := root; path := path_ |})
              (log_address event) registry (S heap))
    as [registry' heap'] eqn:Hadd.
  assert (Hall' : all_under_root owner root registry').
  { pose proof (add_under_root (log_transactionHash event) owner
                  (decoded_at heap d) path_ root (log_address event)
                  registry (S heap) Hall) as H'.
    by rewrite Hadd in H'. }
  destruct (IH registry' heap' true Hall') as [Hroot Hothers].
  split; [exact Hroot|]. intros o Ho. rewrite (Hothers o Ho).
  pose proof (add_others (log_transactionHash event) owner
                (decoded_at heap d)
                (Some {| merkleRoot := root; path := path_ |})
                (log_address event) registry (S heap) o Ho) as H'.
  by rewrite Hadd in H'.
Qed.

Lemma flush_under_root owner root registry :
  (forall s, Map_get owner (ownerOrders registry) = Some s ->
             NoDup (ref <$> s)) ->
  all_under_root owner root (flush owner root registry) /\
  (forall o, o <> owner ->
     Map_get o (ownerOrders (flush owner root registry))
     = Map_get o (ownerOrders registry)).
Proof.
  intros Hnd. unfold flush.
  destruct (Map_has owner (ownerOrders registry)) eqn:Hhas.
  - apply Map_has_get in Hhas as [s Hs]. rewrite Hs. simpl. split.
    + intros s' c p. simpl. rewrite Map_get_set_eq. intros [= <-].
      rewrite (flush_set root s (Hnd s Hs)).
      intros Hc Hp. apply list_elem_of_filter in Hc as [Hc _].
      unfold stale in Hc. rewrite Hp in Hc.
      apply negb_false_iff in Hc. by apply String.eqb_eq.
    + intros o Ho. by apply Map_get_set_ne.
  - split; [|done]. intros s c p Hget.
    assert (Map_has owner (ownerOrders registry) = true)
      by (apply Map_has_get; by eexists).
    congruence.
Qed.

(** After a [MerkleRootSet] log of an owner has been handled, every
    order of the owner that carries a proof carries the root of the log,
    whether the proof data were emitted or not and whether they decoded
    or not: the owner's orders under other roots are flushed first, and
    the orders that are added carry the root.  The orders of the other
    owners stay as they are, and when the proofs were not emitted the
    registry is just flushed. *)
Theorem registerNewOrder_merkle_root (event : Log) (registry : Registry)
    (heap : nat) (owner : Owner) (root : string) (proof_ : ProofStruct) :
  topic0_is event (getEventTopic abi "ConditionalOrderCreated")
  = false ->
  topic0_is event (getEventTopic abi "MerkleRootSet") = true ->
  decode_MerkleRootSet abi (log_data event) (log_topics event)
  = JS.Normal (owner, root, proof_) ->
  (forall s, Map_get owner (ownerOrders registry) = Some s ->
             NoDup (ref <$> s)) ->
  let r := _registerNewOrder abi event registry heap in
  (forall s c p, Map_get owner (ownerOrders r.1.1) = Some s ->
                 c ∈ s -> proof c = Some p -> merkleRoot p = root) /\
  (forall o, o <> owner ->
     Map_get o (ownerOrders r.1.1) = Map_get o (ownerOrders registry)) /\
  (location proof_ <> 1 ->
   r = (flush owner root registry, heap,
        {| error := false; added := false |})).
Proof.
  intros Hcreated Hmerkle Hdecode Hnd. unfold _registerNewOrder.
  rewrite Hcreated, Hmerkle, Hdecode.
  destruct (flush_under_root owner root registry Hnd) as [Hroot Hothers].
  destruct (Z.eqb_spec (location proof_) 1) as [Hloc|Hloc].
  - destruct (decode_proof_data abi (proof_data proof_))
      as [proofData|e].
    + destruct (add_proof_orders_under_root event owner root proofData
                  (flush owner root registry) heap false Hroot)
        as [Hroot' Hothers'].
      split; [exact Hroot'|]. split; [|done].
      intros o Ho. by rewrite (Hothers' o Ho), (Hothers o Ho).
    + by repeat split.
  - by repeat split.
Qed.

End EventHandling.

Section AddContractAction.
Import Model AddContract Events.
Context {ProofItem : Type}.
Variable abi : Codec ProofItem.
Variable services : Services.

(** [_addContract] asks for the registry to be written exactly when the
    contract of the log is compatible and the registration reported no
    error: after an error the registry, which may have been changed, is
    not written.  It is fulfilled exactly when the contract is not
    compatible, or the registration reported no error and the write
    succeeded; and the log of a contract that is not compatible changes
    nothing. *)
Theorem addContract_writes_without_errors (event : Log) (registry : Registry)
    (heap : nat) :
  let r := _addContract abi services event registry heap in
  let registered :=
    (_registerNewOrder abi event registry heap).2 in
  let compatible :=
    exists code, getCode services (log_address event) = JS.Normal code /\
                 isComposableCowCompatible services code = true in
  (r.1.2 = true <-> compatible /\ error registered = false) /\
  (r.2 = JS.Normal tt <->
   (exists code, getCode services (log_address event) = JS.Normal code /\
                 isComposableCowCompatible services code = false) \/
   (compatible /\ error registered = false /\
    writeRegistry services = JS.Normal true)) /\
  (~ compatible -> r.1.1 = (registry, heap)) /\
  (compatible -> r.1.1 = (_registerNewOrder abi event registry
                            heap).1).
Proof.
  unfold _addContract.
  destruct (getCode services (log_address event)) as [code|e] eqn:Hcode;
    simpl.
  - destruct (isComposableCowCompatible services code) eqn:Hcompat; simpl.
    + destruct (_registerNewOrder abi event registry heap)
        as [[registry' heap'] registered] eqn:Hreg. simpl.
      assert (Hc : exists code0, JS.Normal code = JS.Normal code0 /\
                     isComposableCowCompatible services code0 = true)
        by (by exists code).
      destruct (error registered) eqn:Herr; simpl.
      * split; [split; [done | by intros [_ ?]]|]. split.
        { split; [done|]. intros [(code0 & [= <-] & ?)|(_ & ? & _)];
            congruence. }
        split; [by intros []|done].
      * destruct (writeRegistry services) as [[]|e] eqn:Hwrite; simpl.
        -- split; [by split|]. split.
           { split; [|done]. intros _. by right. }
           split; [by intros []|done].
        -- split; [by split|]. split.
           { split; [done|]. intros [(code0 & [= <-] & ?)|(_ & _ & ?)];
               congruence. }
           split; [by intros []|done].
        -- split; [by split|]. split.
           { split; [done|]. intros [(code0 & [= <-] & ?)|(_ & _ & ?)];
               congruence. }
           split; [by intros []|done].
    + split.
      { split; [done|]. intros [(code0 & [= <-] & ?) _]. congruence. }
      split.
      { split; [|done]. intros _. left. by exists code. }
      split; [done|]. intros (code0 & [= <-] & ?). congruence.
  - split.
    { split; [done|]. by intros [(code0 & ? & _) _]. }
    split.
    { split; [done|]. by intros [(code0 & ? & _)|((code0 & ? & _) & _)]. }
    split; [done|]. by intros (code0 & ? & _).
Qed.

End AddContractAction.

(** ** What [write] touches in the store *)

Section StoreFrame.
Import JSON Model StorageKeys.
Context `{Platform}.

(** The text of a number starts with a digit or with the minus sign. *)
Lemma toString_head (z : Z) (s : string) : JS.toString z <> String "V" s.
Proof.
  unfold JS.toString.
  destruct (Z.to_int z) as [d|d]; simpl; [|discriminate].
  destruct d; discriminate.
Qed.

Lemma toString_inj (a b : Z) : JS.toString a = JS.toString b -> a = b.
Proof.
  intros Heq.
  assert (Hint : JS.Int a = JS.Int b)
    by (by rewrite <- !Number_toString, Heq).
  by injection Hint.
Qed.

(** The keys of two chains are different keys. *)
Lemma network_keys_apart (a b : Z) (k k' : string) :
  a <> b -> k ∈ keys_of (JS.toString a) -> k' ∈ keys_of (JS.toString b) ->
  k <> k'.
Proof.
  intros Hab Hk Hk' Heq. subst k'.
  unfold keys_of in *.
  pose proof (toString_head a) as Ha. pose proof (toString_head b) as Hb.
  pose proof (toString_inj a b) as Hinj.
  repeat (apply elem_of_cons in Hk as [Hk|Hk]);
    try (by apply elem_of_nil in Hk);
    repeat (apply elem_of_cons in Hk' as [Hk'|Hk']);
    try (by apply elem_of_nil in Hk');
    subst k;
    unfold getNetworkStorageKey, CONDITIONAL_ORDER_REGISTRY_VERSION_KEY,
      CONDITIONAL_ORDER_REGISTRY_STORAGE_KEY, LAST_NOTIFIED_ERROR_STORAGE_KEY,
      LAST_PROCESSED_BLOCK_STORAGE_KEY in Hk';
    cbv [String.append] in Hk';
    try discriminate Hk';
    try (apply Hab, Hinj; congruence);
    try (injection Hk' as Hk'; by apply Ha in Hk');
    try (injection Hk' as Hk'; symmetry in Hk'; by apply Hb in Hk').
Qed.

(** [write] puts or deletes its four keys and leaves every other key of
    the store as it is. *)
Lemma write_frame (r : Registry) (storage storage' : gmap string string) :
  write r storage = JS.Normal storage' ->
  forall k, k ∉ keys_of (network r) -> storage' !! k = storage !! k.
Proof.
  unfold write. intros Hwrite k Hk.
  destruct (stringifyOrders r) as [text|]; [|discriminate].
  unfold keys_of in Hk.
  rewrite !not_elem_of_cons in Hk. destruct Hk as (Hv & Hr & He & Hb & _).
  destruct (lastNotifiedError r) as [[t|]|]; [|discriminate|];
    destruct (lastProcessedBlock r) as [n|];
    injection Hwrite as <-; unfold DB.batch_write; simpl;
    repeat (first [rewrite lookup_insert_ne by congruence
                  |rewrite lookup_delete_ne by congruence]); done.
Qed.

(** What [load] returns depends on the four keys of its network only. *)
Lemma load_reads_its_keys (storage storage' : gmap string string)
    (network : string) (genesisBlockNumber : JS.number) (heap : nat) :
  (forall k, k ∈ keys_of network -> storage' !! k = storage !! k) ->
  load storage' network genesisBlockNumber heap
  = load storage network genesisBlockNumber heap.
Proof.
  intros Hsame. unfold load, DB.get.
  rewrite !Hsame; [done|unfold keys_of..].
  - do 3 right. left.
  - do 2 right. left.
  - left.
  - right. left.
Qed.

(** The registries of two chains in one store do not interfere: writing
    the registry of chain [a] leaves what [load] returns for another
    chain [b] as it was.  (The network of a registry is the decimal text
    of its chain id.) *)
Theorem write_keeps_other_networks (r : Registry)
    (storage storage' : gmap string string) (a b : Z)
    (genesisBlockNumber : JS.number) (heap : nat) :
  write r storage = JS.Normal storage' ->
  network r = JS.toString a ->
  a <> b ->
  load storage' (JS.toString b) genesisBlockNumber heap
  = load storage (JS.toString b) genesisBlockNumber heap.
Proof.
  intros Hwrite Hnetwork Hab. apply load_reads_its_keys.
  intros k Hk. apply (write_frame r storage storage' Hwrite).
  rewrite Hnetwork. intros Hk'.
  by apply (network_keys_apart a b k k Hab Hk' Hk).
Qed.

(** [write] overwrites: what an earlier [write] of a registry of the
    same network left in the store has no influence on what the store
    holds after a later [write]; nothing of the earlier registry stays
    behind. *)
Theorem write_overwrites (r r' : Registry)
    (storage storage1 : gmap string string) :
  network r' = network r ->
  write r storage = JS.Normal storage1 ->
  write r' storage1 = write r' storage.
Proof.
  unfold write. intros Hnetwork Hwrite.
  destruct (stringifyOrders r) as [text|]; [|discriminate].
  destruct (stringifyOrders r') as [text'|]; [|done].
  rewrite Hnetwork.
  destruct (lastNotifiedError r') as [[t'|]|]; [|done|];
    f_equal; apply map_eq; intros k;
    destruct (lastNotifiedError r) as [[t|]|]; try discriminate;
    destruct (lastProcessedBlock r) as [n|];
    injection Hwrite as <-;
    destruct (lastProcessedBlock r') as [n'|];
    unfold DB.batch_write; simpl;
    repeat first [rewrite lookup_insert | rewrite lookup_delete | case_decide];
    done.
Qed.

End StoreFrame.

(** Two chains in one store: the registry of chain 100 is written, then
    the registry of chain 1; [load] still returns for chain 100 the
    registry that it returned before, with Bob's order. *)
Lemma write_keeps_other_networks_witness :
  exists storage100 storage' r100 heap',
    Model.write (H := Numerals.platform) SampleTwoChains.gnosis ∅
    = JS.Normal storage100 /\
    Model.write (H := Numerals.platform) SampleRegistry.polled storage100
    = JS.Normal storage' /\
    Model.load (H := Numerals.platform) storage100 "100" (JS.Int 0) 0
    = JS.Normal (r100, heap') /\
    Model.load (H := Numerals.platform) storage' "100" (JS.Int 0) 0
    = JS.Normal (r100, heap') /\
    Model.registry_value_eq r100 SampleTwoChains.gnosis.
Proof.
  assert (Hvalid : Model.valid SampleRegistry.polled).
  { split; [reflexivity|]. split; [|split; [|discriminate]].
    - apply (bool_decide_unpack _). vm_compute. exact I.
    - repeat apply Forall_cons_2; try apply Forall_nil_2.
      split; [|reflexivity].
      apply (bool_decide_unpack _). vm_compute. exact I. }
  assert (Hvalid100 : Model.valid SampleTwoChains.gnosis).
  { split; [reflexivity|]. split; [|split; [|discriminate]].
    - apply (bool_decide_unpack _). vm_compute. exact I.
    - repeat apply Forall_cons_2; try apply Forall_nil_2.
      split; [constructor|exact I]. }
  destruct (load_after_write (H0 := numerals_laws) SampleTwoChains.gnosis ∅
              (JS.Int 0) 0 Hvalid100)
    as (storage100 & r100 & heap' & Hwrite100 & _ & Hload100 & _ & Heq).
  destruct (load_after_write (H0 := numerals_laws) SampleRegistry.polled
              storage100 (JS.Int 0) 0 Hvalid)
    as (storage' & _ & _ & Hwrite & _).
  exists storage100, storage', r100, heap'.
  split; [exact Hwrite100|]. split; [exact Hwrite|].
  split; [exact Hload100|]. split; [|exact Heq].
  rewrite <- Hload100.
  apply (write_keeps_other_networks (H := Numerals.platform)
           SampleRegistry.polled storage100 storage' 1 100 (JS.Int 0) 0
           Hwrite).
  - reflexivity.
  - lia.
Defined.

(** A registry written over another one of the same network. *)
Lemma write_overwrites_witness :
  exists storage1,
    Model.write (H := Numerals.platform) SampleRegistry.polled ∅
    = JS.Normal storage1 /\
    Model.write (H := Numerals.platform) SampleRegistry.one_order storage1
    = Model.write (H := Numerals.platform) SampleRegistry.one_order ∅.
Proof.
  assert (Hvalid : Model.valid SampleRegistry.polled).
  { split; [reflexivity|]. split; [|split; [|discriminate]].
    - apply (bool_decide_unpack _). vm_compute. exact I.
    - repeat apply Forall_cons_2; try apply Forall_nil_2.
      split; [|reflexivity].
      apply (bool_decide_unpack _). vm_compute. exact I. }
  destruct (load_after_write (H0 := numerals_laws) SampleRegistry.polled ∅
              (JS.Int 0) 0 Hvalid) as (storage1 & _ & _ & Hwrite & _).
  exists storage1. split; [exact Hwrite|].
  apply (write_overwrites (H := Numerals.platform)
           SampleRegistry.polled SampleRegistry.one_order ∅ storage1).
  - reflexivity.
  - exact Hwrite.
Defined.

(** ** What block processing leaves of the context *)

Section ContextPreserved.
Import ChainContext Lifecycle.
Variable env : Env.

Lemma only_registry_changed_refl w : only_registry_changed w w.
Proof. unfold only_registry_changed. by destruct (context w). Qed.

Lemma only_registry_changed_trans w1 w2 w3 :
  only_registry_changed w1 w2 -> only_registry_changed w2 w3 ->
  only_registry_changed w1 w3.
Proof.
  unfold only_registry_changed. intros H12 H23. rewrite H23, H12.
  by destruct (context w1).
Qed.

Lemma only_registry_changed_step w w' :
  context w' = context w \/
  (exists r, context w' = with_registry (context w) r) ->
  only_registry_changed w w'.
Proof.
  unfold only_registry_changed. intros [->|[r ->]];
    by destruct (context w).
Qed.

Lemma addContracts_context events : forall hasErrors w,
  only_registry_changed w (addContracts env events hasErrors w).1.
Proof.
  induction events as [|event events IH]; intros hasErrors w; simpl.
  - apply only_registry_changed_refl.
  - destruct (getTransactionReceipt env (transactionHash event))
      as [[]|e]; simpl; [| apply IH | apply only_registry_changed_refl].
    destruct (addContract env event (registry (context w))) as [r result].
    eapply only_registry_changed_trans; [|apply IH].
    apply only_registry_changed_step. right. exists r.
    by destruct result.
Qed.

Lemma processBlock_context block events o1 o2 w :
  only_registry_changed w (processBlock env block events o1 o2 w).1.
Proof.
  unfold processBlock.
  pose proof (addContracts_context events false w) as Hadd.
  destruct (addContracts env events false w) as [w1 [hasErrors|e]];
    simpl in *; [|done].
  eapply only_registry_changed_trans; [exact Hadd|].
  destruct (JS.is_zero _).
  - destruct (checkForAndPlaceOrder env block o1 o2 (registry (context w1)))
      as [r result].
    apply only_registry_changed_step. right. exists r.
    by destruct result, hasErrors.
  - apply only_registry_changed_step. left. by destruct hasErrors.
Qed.

Lemma persistLastProcessedBlock_context block w :
  only_registry_changed w (persistLastProcessedBlock env block w).1.
Proof.
  unfold persistLastProcessedBlock.
  apply only_registry_changed_step. right. eexists.
  destruct (registry_write env _); reflexivity.
Qed.

Lemma processBlockAndPersist_context blockNumber events currentBlock w :
  only_registry_changed w
    (processBlockAndPersist env blockNumber events currentBlock w).1.
Proof.
  unfold processBlockAndPersist.
  destruct (getBlock env (at_number blockNumber)) as [block|e];
    [|apply only_registry_changed_refl].
  pose proof (processBlock_context block events (number <$> currentBlock)
                (timestamp <$> currentBlock) w) as Hprocess.
  destruct (processBlock env block events _ _ w) as [w1 completion].
  simpl in Hprocess.
  eapply only_registry_changed_trans; [exact Hprocess|].
  eapply only_registry_changed_trans;
    [|apply persistLastProcessedBlock_context].
  apply only_registry_changed_step. left. by destruct completion.
Qed.

Lemma processBlocks_context keys m currentBlock : forall w,
  only_registry_changed w (processBlocks env keys m currentBlock w).1.
Proof.
  induction keys as [|key keys IH]; intros w; simpl.
  - apply only_registry_changed_refl.
  - destruct (JS.Number key) as [n|]; [|apply only_registry_changed_refl].
    pose proof (processBlockAndPersist_context n (default [] (m !! n))
                  (Some currentBlock) w) as Hstep.
    destruct (processBlockAndPersist env n _ _ w) as [w1 [c|e]];
      simpl in Hstep; [|done].
    eapply only_registry_changed_trans; [exact Hstep | apply IH].
Qed.

Lemma warmUpPage_context fromBlock toBlock currentBlock w :
  only_registry_changed w
    (warmUpPage env fromBlock toBlock currentBlock w).1.
Proof.
  unfold warmUpPage.
  destruct (pollContractForEvents env fromBlock toBlock (context w))
    as [events|e]; [|apply only_registry_changed_refl].
  pose proof (processBlocks_context
                (JS.sort (JS.Object_keys (eventsByBlock events)))
                (eventsByBlock events) currentBlock w) as Hblocks.
  destruct (processBlocks env _ _ currentBlock w) as [w1 [[]|e]];
    simpl in Hblocks; [|done].
  destruct (getBlock env toBlock) as [block|e]; [|done].
  eapply only_registry_changed_trans;
    [exact Hblocks | apply persistLastProcessedBlock_context].
Qed.

Lemma onBlock_context blockNumber lastBlockReceived_ w :
  only_registry_changed w (onBlock env blockNumber lastBlockReceived_ w).1.
Proof.
  unfold onBlock.
  destruct (getBlock env (at_number blockNumber)) as [block|e];
    [|by apply only_registry_changed_step; left].
  match goal with
  | |- context [pollContractForEvents env _ _ (context ?w0)] =>
      set (w1 := w0)
  end.
  assert (H1 : only_registry_changed w w1).
  { apply only_registry_changed_step. left. unfold w1.
    by destruct (_ && _). }
  destruct (pollContractForEvents env blockNumber (at_number blockNumber)
              (context w1)) as [events|e].
  - pose proof (processBlockAndPersist_context blockNumber events None w1)
      as Hstep.
    destruct (processBlockAndPersist env blockNumber events None w1)
      as [w2 [c|e]]; simpl in *.
    + by eapply only_registry_changed_trans.
    + eapply only_registry_changed_trans; [exact H1|].
      eapply only_registry_changed_trans; [exact Hstep|].
      by apply only_registry_changed_step; left.
  - simpl. eapply only_registry_changed_trans; [exact H1|].
    by apply only_registry_changed_step; left.
Qed.

Lemma only_registry_changed_sync w w' :
  only_registry_changed w w' -> sync (context w') = sync (context w).
Proof. unfold only_registry_changed. by intros ->. Qed.

Lemma only_registry_changed_pageSize w w' :
  only_registry_changed w w' -> pageSize (context w') = pageSize (context w).
Proof. unfold only_registry_changed. by intros ->. Qed.

End ContextPreserved.

(** ** The events of a page *)

Section PageEvents.
Import ChainContext.
Variable env : Env.

Lemma filter_sublist {A} (f : A -> bool) (l : list A) :
  sublist (List.filter f l) l.
Proof.
  induction l as [|x l IH]; simpl; [constructor|].
  destruct (f x); by constructor.
Qed.

(** Without a list of owners, [pollContractForEvents] returns the logs
    that decode, in the order of the logs.  With a list of owners,
    whatever owners it holds and also when it is empty, it returns
    nothing when no log decodes and it is rejected with a [TypeError] as
    soon as one log decodes: no log is ever returned for a listed
    owner.  A rejection of the provider is its rejection. *)
Theorem pollContractForEvents_owner_list (fromBlock : Z) (toBlock : BlockTag)
    (context : ChainContext) :
  (forall logs,
     getLogs env fromBlock toBlock = JS.Normal logs ->
     (addresses context = None ->
      exists events,
        pollContractForEvents env fromBlock toBlock context
        = JS.Normal events /\
        sublist events logs /\
        (forall e, e ∈ events <-> e ∈ logs /\ decodes env e = true)) /\
     (forall owners,
        addresses context = Some owners ->
        ((forall e, e ∈ logs -> decodes env e = false) ->
         pollContractForEvents env fromBlock toBlock context
         = JS.Normal []) /\
        (forall e, e ∈ logs -> decodes env e = true ->
           pollContractForEvents env fromBlock toBlock context
           = JS.Throw ARGS_TYPE_ERROR) /\
        (forall events,
           pollContractForEvents env fromBlock toBlock context
           = JS.Normal events -> events = []))) /\
  (forall e, getLogs env fromBlock toBlock = JS.Throw e ->
             pollContractForEvents env fromBlock toBlock context
             = JS.Throw e).
Proof.
  unfold pollContractForEvents. split.
  - intros logs ->. split.
    + intros ->. eexists. split; [reflexivity|].
      split; [apply filter_sublist|].
      intros e. by rewrite !list_elem_of_In, filter_In.
    + intros owners ->.
      assert (Hmem : forall e, e ∈ List.filter (decodes env) logs <->
                               e ∈ logs /\ decodes env e = true)
        by (intros e; by rewrite !list_elem_of_In, filter_In).
      destruct (List.filter (decodes env) logs) as [|x l] eqn:Hf.
      * split; [done|]. split; [|by intros events [= <-]].
        intros e He Hdec.
        assert (Hin : e ∈ []) by (by apply Hmem).
        by apply elem_of_nil in Hin.
      * split; [|split; [done|by intros events [=]]].
        intros Hnone.
        assert (Hx : x ∈ logs /\ decodes env x = true)
          by (apply Hmem; by left).
        destruct Hx as [Hin Hdec]. rewrite (Hnone x Hin) in Hdec.
        discriminate Hdec.
  - by intros e ->.
Qed.

(** There is a bucket exactly for the blocks that have an event. *)
Lemma eventsByBlock_has_bucket (events : list ConditionalOrderCreatedEvent)
    (n : Z) :
  is_Some (eventsByBlock events !! n) <->
  exists e, e ∈ events /\ blockNumber e = n.
Proof.
  assert (Hmem : forall m e,
            e ∈ List.filter (fun e => blockNumber e =? m) events <->
            e ∈ events /\ blockNumber e = m).
  { intros m e. rewrite !list_elem_of_In, filter_In, Z.eqb_eq. tauto. }
  rewrite eventsByBlock_lookup.
  destruct (List.filter _ events) as [|x l] eqn:Hf.
  - split; [by intros [? ?]|]. intros (e & He).
    apply Hmem in He. rewrite Hf in He. by apply elem_of_nil in He.
  - split; [|by eexists]. intros _. exists x. apply Hmem.
    rewrite Hf. by left.
Qed.

(** The [reduce] of [warmUp] puts every event of the page in the bucket
    of its block and nowhere else: the bucket of a block holds the events
    of the page that are of this block, in the order of the page, and
    there is a bucket exactly for the blocks that have an event. *)
Theorem eventsByBlock_buckets (events : list ConditionalOrderCreatedEvent)
    (n : Z) :
  (forall bucket,
     eventsByBlock events !! n = Some bucket <->
     bucket = List.filter (fun e => blockNumber e =? n) events
     /\ bucket <> []) /\
  (is_Some (eventsByBlock events !! n) <->
   exists e, e ∈ events /\ blockNumber e = n) /\
  (forall e, e ∈ events ->
     exists bucket, eventsByBlock events !! blockNumber e = Some bucket
                    /\ e ∈ bucket).
Proof.
  assert (Hmem : forall m e,
            e ∈ List.filter (fun e => blockNumber e =? m) events <->
            e ∈ events /\ blockNumber e = m).
  { intros m e. rewrite !list_elem_of_In, filter_In, Z.eqb_eq. tauto. }
  split; [|split].
  - intros bucket. rewrite eventsByBlock_lookup.
    destruct (List.filter _ events) as [|x l] eqn:Hf.
    + split; [done | by intros [-> ?]].
    + split; [by intros [= <-] | by intros [-> _]].
  - apply eventsByBlock_has_bucket.
  - intros e He. rewrite eventsByBlock_lookup.
    assert (Hin : e ∈ List.filter (fun e' => blockNumber e' =? blockNumber e)
                        events) by (by apply Hmem).
    destruct (List.filter _ events) as [|x l]; [by apply elem_of_nil in Hin|].
    by eexists.
Qed.

End PageEvents.

(** ** The health report *)

Section HealthReport.
Import ChainContext Lifecycle.

Lemma static_health_chains_fold (l : list ChainContext)
    (acc : ChainWatcherHealth) (id : Z) :
  (forall c c', c ∈ l -> c' ∈ l -> chainId c = chainId c' -> c = c') ->
  chains
    (foldl (fun acc chain =>
              {| chains := <[chainId chain := health chain]> (chains acc);
                 overallHealth := overallHealth acc && isHealthy chain |})
           acc l) !! id
  = match list_find (fun c => chainId c = id) l with
    | Some (_, c) => Some (health c)
    | None => chains acc !! id
    end.
Proof.
  revert acc. induction l as [|c l IH]; intros acc Huniq; simpl; [done|].
  rewrite IH by (intros c1 c2 H1 H2; apply Huniq; by right).
  simpl. destruct (decide (chainId c = id)) as [Hc|Hc].
  - destruct (list_find (fun c0 => chainId c0 = id) l) as [[i c']|] eqn:Hfind;
      simpl.
    + apply list_find_Some in Hfind as (Hi & Hid & _).
      assert (c' = c) as ->; [|done].
      apply Huniq; [right; by eapply list_elem_of_lookup_2 | by left
                   | congruence].
    + by rewrite Hc, lookup_insert_eq.
  - destruct (list_find (fun c0 => chainId c0 = id) l) as [[i c']|]; simpl;
      [done|]. by rewrite lookup_insert_ne.
Qed.

(** When every chain is registered under its own chain id, as [init]
    registers it, the health report lists exactly the registered chains,
    each under its id with its own status: its sync state, its id, its
    last processed block and whether it is in sync. *)
Theorem static_health_lists_chains (chains_ : gmap Z ChainContext) :
  (forall id chain, chains_ !! id = Some chain -> chainId chain = id) ->
  chains (static_health chains_) = health <$> chains_ /\
  forall id, chains (static_health chains_) !! id
             = (fun chain =>
                  {| health_sync := sync chain;
                     health_chainId := id;
                     health_lastProcessedBlock :=
                       lastProcessedBlock (registry chain);
                     isHealthy_ := match sync chain with
                                   | IN_SYNC => true
                                   | _ => false
                                   end |})
               <$> chains_ !! id.
Proof.
  intros Hids.
  assert (Hin : forall c, c ∈ JS.Object_values chains_ <->
                          chains_ !! chainId c = Some c).
  { intros c. unfold JS.Object_values. rewrite list_elem_of_fmap. split.
    - intros ([id c'] & -> & Hc). rewrite Object_entries_perm in Hc.
      apply elem_of_map_to_list in Hc. simpl.
      by rewrite (Hids id c' Hc).
    - intros Hc. exists (chainId c, c). split; [done|].
      rewrite Object_entries_perm. by apply elem_of_map_to_list. }
  assert (Hlookup : forall id,
            chains (static_health chains_) !! id = health <$> chains_ !! id).
  { intros id. unfold static_health.
    rewrite static_health_chains_fold.
    - destruct (list_find (fun c => chainId c = id)
                  (JS.Object_values chains_)) as [[i c]|] eqn:Hfind.
      + apply list_find_Some in Hfind as (Hi & Hid & _).
        apply list_elem_of_lookup_2, Hin in Hi. rewrite Hid in Hi.
        by rewrite Hi.
      + simpl. rewrite lookup_empty.
        destruct (chains_ !! id) as [c|] eqn:Hc; [|done].
        exfalso. eapply list_find_None in Hfind.
        rewrite Forall_forall in Hfind. apply (Hfind c).
        * apply Hin. by rewrite (Hids id c Hc).
        * by apply Hids.
    - intros c c' Hc Hc' Heq. apply Hin in Hc, Hc'.
      rewrite Heq in Hc. congruence. }
  split.
  - apply map_eq. intros id. by rewrite Hlookup, lookup_fmap.
  - intros id. rewrite Hlookup.
    destruct (chains_ !! id) as [c|] eqn:Hc; [|done]. simpl.
    unfold health, isHealthy. by rewrite (Hids id c Hc).
Qed.

(** A chain that [init] has just created is registered in the static map
    under its chain id, with the registry loaded for the decimal text of
    that id, and it is syncing: the watch-tower as a whole is not healthy
    until the chain has warmed up.  Without the option
    [processEveryNumBlocks] the Order Poller runs at every block. *)
Theorem init_registers_syncing_chain (getNetwork : JS.Completion Z)
    (Registry_load : string -> Z -> JS.Completion Registry)
    (options : ContextOptions) (chains_ chains' : gmap Z ChainContext)
    (context : ChainContext) :
  init getNetwork Registry_load options chains_ = (chains', JS.Normal context) ->
  getNetwork = JS.Normal (chainId context) /\
  Registry_load (JS.toString (chainId context)) (opt_deploymentBlock options)
  = JS.Normal (registry context) /\
  chains' = <[chainId context := context]> chains_ /\
  sync context = SYNCING /\
  static_isHealthy chains' = false /\
  (opt_processEveryNumBlocks options = None ->
   forall block, shouldProcessBlock context block = true).
Proof.
  unfold init. intros Hinit.
  destruct getNetwork as [id|e]; [|discriminate].
  destruct (Registry_load (JS.toString id) (opt_deploymentBlock options))
    as [r|e] eqn:Hload; [|discriminate].
  injection Hinit as <- <-. simpl.
  split; [done|]. split; [done|]. split; [done|]. split; [done|]. split.
  - unfold static_isHealthy, static_health. rewrite static_health_fold.
    simpl. apply not_true_iff_false. rewrite forallb_forall.
    intros Hall.
    specialize (Hall (new_ChainContext options id r)).
    assert (Hin : In (new_ChainContext options id r)
                    (JS.Object_values
                       (<[id := new_ChainContext options id r]> chains_))).
    { apply list_elem_of_In. unfold JS.Object_values.
      apply list_elem_of_fmap. exists (id, new_ChainContext options id r).
      split; [done|]. rewrite Object_entries_perm.
      apply elem_of_map_to_list. apply lookup_insert_eq. }
    by specialize (Hall Hin).
  - intros Hnone block. unfold shouldProcessBlock. simpl. rewrite Hnone.
    simpl. unfold JS.rem. simpl. by rewrite Z.rem_1_r.
Qed.

End HealthReport.

(** ** A page of the warm-up *)

Section WarmUpPage.
Import ChainContext Lifecycle.

Lemma cursor_numbers_written (l : list Effect) :
  cursor_numbers l = omap (fmap rb_number) (cursors_written l).
Proof.
  induction l as [|e l IH]; [done|].
  destruct e as [| | r | |]; simpl; try done.
  unfold cursor_numbers, cursors_written in *. simpl.
  rewrite IH. by destruct (lastProcessedBlock r).
Qed.

Lemma numbers_of_keys (ns : list Z) :
  omap (fun key => match JS.Number key with
                   | JS.Int n => Some n
                   | JS.NaN => None
                   end) (JS.toString <$> ns) = ns.
Proof.
  induction ns as [|n ns IH]; [done|].
  rewrite fmap_cons. simpl. rewrite Number_toString. simpl.
  f_equal. exact IH.
Qed.

Lemma persisted_numbers (blocks : Z -> Block) (keys : list string) :
  (forall n, number (blocks n) = n) ->
  omap (fmap rb_number)
    (map (fun key => match JS.Number key with
                     | JS.Int n => Some (blockToRegistryBlock (blocks n))
                     | JS.NaN => None
                     end) keys)
  = omap (fun key => match JS.Number key with
                     | JS.Int n => Some n
                     | JS.NaN => None
                     end) keys.
Proof.
  intros Hnum. induction keys as [|key keys IH]; [done|].
  simpl. destruct (JS.Number key) as [n|]; simpl; [|exact IH].
  rewrite Hnum. f_equal. exact IH.
Qed.

(** What one page does when the provider and the store answer. *)
Lemma warmUpPage_done (env : Env) (blocks : Z -> Block) (tip : Block)
    (fromBlock : Z) (toBlock : BlockTag) (currentBlock : Block) (w : World) :
  (exists events,
     pollContractForEvents env fromBlock toBlock (context w)
     = JS.Normal events) ->
  (forall n, getBlock env (at_number n) = JS.Normal (blocks n)) ->
  getBlock env toBlock = JS.Normal tip ->
  (forall tx, exists receipt,
      getTransactionReceipt env tx = JS.Normal receipt) ->
  (forall r, registry_write env r = JS.Normal tt) ->
  exists w',
    warmUpPage env fromBlock toBlock currentBlock w
    = (w', JS.Normal (Some (blockToRegistryBlock tip))) /\
    only_registry_changed w w' /\
    lastProcessedBlock (registry (context w'))
    = Some (blockToRegistryBlock tip) /\
    blockHeight (metrics w') = number tip.
Proof.
  intros [events Hevents] Hblocks Htip Hreceipts Hwrite.
  pose proof (warmUpPage_context env fromBlock toBlock currentBlock w)
    as Hcontext.
  unfold warmUpPage in *.
  rewrite Hevents in *. simpl in *.
  match goal with
  | |- context [processBlocks env ?keys ?m currentBlock w] =>
      destruct (processBlocks_cursors env blocks m currentBlock keys
                  Hblocks Hreceipts Hwrite) with (w := w)
        as (w1 & new1 & Hrun & _)
  end.
  { apply Forall_forall. intros key Hkey.
    destruct (sorted_keys_have_events _ _ Hkey) as (n & _ & Hn & _).
    by exists n. }
  rewrite Hrun in *. rewrite Htip in *.
  unfold persistLastProcessedBlock in *. rewrite Hwrite in *. simpl in *.
  eexists. split; [reflexivity|]. by repeat split.
Qed.

(** A page of the warm-up, when the provider and the store answer.
    When the events of the page are fetched: every block of the page
    that has an event is processed and persisted once, and no other
    block is; whatever the order in which that happens, the cursor that
    is written last, and that the context holds afterwards, is the block
    [toBlock], and the block height gauge is its number.  Without a list
    of owners the events that are fetched are the logs that decode.
    With a list of owners and a log that decodes, the page is rejected
    with the [TypeError] of the filter before anything is processed or
    written. *)
Theorem warmUpPage_ends_at_toBlock (env : Env) (blocks : Z -> Block)
    (tip : Block) (logs : list ConditionalOrderCreatedEvent)
    (fromBlock : Z) (toBlock : BlockTag) (currentBlock : Block) (w : World) :
  getLogs env fromBlock toBlock = JS.Normal logs ->
  (forall n, getBlock env (at_number n) = JS.Normal (blocks n)) ->
  (forall n, number (blocks n) = n) ->
  getBlock env toBlock = JS.Normal tip ->
  (forall tx, exists receipt,
      getTransactionReceipt env tx = JS.Normal receipt) ->
  (forall r, registry_write env r = JS.Normal tt) ->
  (forall events,
     pollContractForEvents env fromBlock toBlock (context w)
     = JS.Normal events ->
     exists w' new processed,
       warmUpPage env fromBlock toBlock currentBlock w
       = (w', JS.Normal (Some (blockToRegistryBlock tip))) /\
       effects w' = effects w ++ new /\
       cursor_numbers new = processed ++ [number tip] /\
       NoDup processed /\
       (forall n, n ∈ processed <->
                  exists e, e ∈ events /\ blockNumber e = n) /\
       lastProcessedBlock (registry (context w'))
       = Some (blockToRegistryBlock tip) /\
       blockHeight (metrics w') = number tip) /\
  (addresses (context w) = None ->
   pollContractForEvents env fromBlock toBlock (context w)
   = JS.Normal (List.filter (decodes env) logs)) /\
  (forall owners e,
     addresses (context w) = Some owners ->
     e ∈ logs -> decodes env e = true ->
     warmUpPage env fromBlock toBlock currentBlock w
     = (w, JS.Throw ARGS_TYPE_ERROR)).
Proof.
  intros Hlogs Hblocks Hnum Htip Hreceipts Hwrite. split; [|split].
  2: { intros Hnone. by apply poll_without_list. }
  2: { intros owners e Hsome Hin Hdec. unfold warmUpPage.
       by rewrite (poll_with_list env _ _ _ logs owners e). }
  intros events Hevents.
  destruct (warmUpPage_cursors env blocks tip events fromBlock toBlock
              currentBlock w Hevents Hblocks Htip Hreceipts Hwrite)
    as (w' & new & Hrun & Heff & Hcur).
  destruct (warmUpPage_done env blocks tip fromBlock toBlock currentBlock w)
    as (w'' & Hrun' & _ & Hcursor & Hheight); try done.
  { by exists events. }
  rewrite Hrun in Hrun'. injection Hrun' as <-.
  set (keys := JS.sort (JS.Object_keys (eventsByBlock events))) in *.
  set (processed := omap (fun key => match JS.Number key with
                                     | JS.Int n => Some n
                                     | JS.NaN => None
                                     end) keys).
  exists w', new, processed.
  split; [exact Hrun|]. split; [exact Heff|].
  assert (Hperm : processed ≡ₚ (map_to_list (eventsByBlock events)).*1).
  { unfold processed, keys. rewrite sort_perm. unfold JS.Object_keys.
    rewrite numbers_of_keys. by rewrite Object_entries_perm. }
  split; [|split; [|split; [|by split]]].
  - rewrite cursor_numbers_written, Hcur, omap_app. simpl. f_equal.
    by apply persisted_numbers.
  - rewrite Hperm. apply NoDup_fst_map_to_list.
  - intros n. rewrite Hperm, list_elem_of_fmap.
    pose proof (eventsByBlock_has_bucket events n) as Hbucket.
    rewrite <- Hbucket. split.
    + intros ([n' bucket] & -> & Hin). apply elem_of_map_to_list in Hin.
      by eexists.
    + intros [bucket Hb]. exists (n, bucket). split; [done|].
      by apply elem_of_map_to_list.
Qed.

End WarmUpPage.

(** ** When the provider or the store fails during a block *)

Section BlockFailures.
Import ChainContext Lifecycle.
Variable env : Env.

Lemma addContracts_app events1 events2 : forall hasErrors w,
  addContracts env (events1 ++ events2) hasErrors w
  = match addContracts env events1 hasErrors w with
    | (w1, JS.Normal hasErrors1) => addContracts env events2 hasErrors1 w1
    | (w1, JS.Throw e) => (w1, JS.Throw e)
    end.
Proof.
  induction events1 as [|event events1 IH]; intros hasErrors w; simpl.
  - done.
  - destruct (getTransactionReceipt env (transactionHash event))
      as [[]|e]; [|apply IH|done].
    destruct (addContract env event (registry (context w))) as [r result].
    apply IH.
Qed.

(** When the provider rejects the lookup of the receipt of an event,
    the events before it have been handed to [addContract], the events
    after it never are, the Order Poller does not run and no block-level
    error is thrown; the rejection is logged and the cursor is moved to
    the block all the same, so the events after the failure are not
    looked at again. *)
Theorem receipt_failure_skips_the_rest (blockNumber : Z) (block : Block)
    (before : list ConditionalOrderCreatedEvent)
    (event : ConditionalOrderCreatedEvent)
    (after : list ConditionalOrderCreatedEvent)
    (currentBlock : option Block) (w : World) (err : string) :
  getBlock env (at_number blockNumber) = JS.Normal block ->
  receipts_answered env before ->
  getTransactionReceipt env (transactionHash event) = JS.Throw err ->
  (forall r, registry_write env r = JS.Normal tt) ->
  exists w' new r,
    processBlockAndPersist env blockNumber (before ++ event :: after)
      currentBlock w
    = (w', JS.Normal (Some (blockToRegistryBlock block))) /\
    effects w'
    = effects w ++ new
      ++ [error_logged "Error processing block"; registry_written r] /\
    ingested new = List.filter (has_receipt env) before /\
    poller_calls new = 0%nat /\
    block_errors_thrown new = 0%nat /\
    cursors_written new = [] /\
    lastProcessedBlock r = Some (blockToRegistryBlock block) /\
    lastProcessedBlock (registry (context w'))
    = Some (blockToRegistryBlock block).
Proof.
  intros Hblock Hbefore Hreceipt Hwrite.
  unfold processBlockAndPersist, processBlock. rewrite Hblock.
  rewrite addContracts_app.
  destruct (addContracts_spec env before false w Hbefore)
    as (w1 & new & Hrun & Heff & Hing & Hpoll & Hthrown & Hcur & _).
  rewrite Hrun. simpl. rewrite Hreceipt. simpl.
  unfold persistLastProcessedBlock. rewrite Hwrite. simpl.
  eexists _, new, _. split; [reflexivity|]. simpl.
  rewrite Heff, <- !app_assoc. by repeat split.
Qed.

Lemma addContracts_writes_nothing events : forall hasErrors w,
  let w' := (addContracts env events hasErrors w).1 in
  cursors_written (effects w') = cursors_written (effects w) /\
  blockHeight (metrics w') = blockHeight (metrics w).
Proof.
  induction events as [|event events IH]; intros hasErrors w; simpl; [done|].
  destruct (getTransactionReceipt env (transactionHash event))
    as [[]|e]; [|apply IH|done].
  destruct (addContract env event (registry (context w))) as [r result].
  match goal with
  | |- context [addContracts env events ?h ?w0] =>
      destruct (IH h w0) as [Hcur Hheight]
  end.
  rewrite Hcur, Hheight.
  destruct result; simpl; by rewrite ?cursors_written_app, ?app_nil_r.
Qed.

Lemma processBlock_writes_nothing block events o1 o2 w :
  let w' := (processBlock env block events o1 o2 w).1 in
  cursors_written (effects w') = cursors_written (effects w) /\
  blockHeight (metrics w') = blockHeight (metrics w).
Proof.
  unfold processBlock.
  destruct (addContracts_writes_nothing events false w) as [Hcur Hheight].
  destruct (addContracts env events false w) as [w1 [hasErrors|e]];
    simpl in *; [|done].
  rewrite <- Hcur, <- Hheight.
  destruct (JS.is_zero _).
  - destruct (checkForAndPlaceOrder env block o1 o2 (registry (context w1)))
      as [r [|]]; destruct hasErrors; simpl;
      by rewrite ?cursors_written_app, ?app_nil_r.
  - destruct hasErrors; simpl; by rewrite ?cursors_written_app, ?app_nil_r.
Qed.

(** When the store rejects the write of the registry, the rejection is
    the outcome of [processBlockAndPersist], whatever the processing of
    the block did, and the block watcher logs it; the cursor of the
    registry in memory has moved to the block all the same, while no
    cursor has been written and the block height gauge has not moved. *)
Theorem write_failure_reaches_the_caller (blockNumber : Z) (block : Block)
    (events : list ConditionalOrderCreatedEvent)
    (currentBlock : option Block) (w : World) (err : string) :
  getBlock env (at_number blockNumber) = JS.Normal block ->
  (forall r, registry_write env r = JS.Throw err) ->
  let done := processBlockAndPersist env blockNumber events currentBlock w in
  done.2 = JS.Throw err /\
  lastProcessedBlock (registry (context done.1))
  = Some (blockToRegistryBlock block) /\
  cursors_written (effects done.1) = cursors_written (effects w) /\
  blockHeight (metrics done.1) = blockHeight (metrics w) /\
  (forall lastBlockReceived_ logs,
     getLogs env blockNumber (at_number blockNumber) = JS.Normal logs ->
     let heard := onBlock env blockNumber lastBlockReceived_ w in
     heard.2 = block /\
     last (effects heard.1)
     = Some (error_logged "Error in pollContractForEvents for block") /\
     cursors_written (effects heard.1) = cursors_written (effects w)).
Proof.
  intros Hblock Hwrite.
  assert (Hany : forall events0 currentBlock0 w0,
            let done := processBlockAndPersist env blockNumber events0
                          currentBlock0 w0 in
            done.2 = JS.Throw err /\
            lastProcessedBlock (registry (context done.1))
            = Some (blockToRegistryBlock block) /\
            cursors_written (effects done.1) = cursors_written (effects w0) /\
            blockHeight (metrics done.1) = blockHeight (metrics w0)).
  { intros events0 currentBlock0 w0. unfold processBlockAndPersist.
    rewrite Hblock.
    destruct (processBlock_writes_nothing block events0
                (number <$> currentBlock0) (timestamp <$> currentBlock0) w0)
      as [Hcur Hheight].
    destruct (processBlock env block events0 _ _ w0) as [w1 completion].
    simpl in Hcur, Hheight. unfold persistLastProcessedBlock.
    rewrite Hwrite. simpl. rewrite <- Hcur, <- Hheight.
    destruct completion; simpl;
      by rewrite ?cursors_written_app, ?app_nil_r. }
  destruct (Hany events currentBlock w) as (H1 & H2 & H3 & H4).
  split; [exact H1|]. split; [exact H2|]. split; [exact H3|].
  split; [exact H4|].
  intros lastBlockReceived_ logs Hlogs. unfold onBlock. rewrite Hblock.
  destruct (pollContractForEvents env blockNumber (at_number blockNumber) _)
    as [ev|e]; simpl.
  - match goal with
    | |- context [processBlockAndPersist env blockNumber ev None ?w0] =>
        destruct (Hany ev None w0) as (G1 & _ & G3 & _);
        destruct (processBlockAndPersist env blockNumber ev None w0)
          as [w2 completion]
    end.
    simpl in G1, G3. subst completion. simpl.
    split; [done|]. split; [by rewrite last_snoc|].
    rewrite cursors_written_app, app_nil_r, G3.
    by destruct (_ && _).
  - split; [done|]. split; [by rewrite last_snoc|].
    rewrite cursors_written_app, app_nil_r.
    by destruct (_ && _).
Qed.

End BlockFailures.

(** ** The block watcher and its watchdog *)

Section Watchdog.
Import ChainContext Lifecycle.

Lemma signal_sync (watchdogTimeout_ : Z) (st : Watcher) (s : Signal) :
  let st' := signal watchdogTimeout_ st s in
  (sync (context (watcher_world st')) = sync (context (watcher_world st)) \/
   sync (context (watcher_world st')) = UNKNOWN
   /\ exists time, s = watchdog_woke time true) /\
  (exit_code st' = exit_code st \/
   exit_code st' = Some 1 /\ exists time, s = watchdog_woke time false).
Proof.
  unfold signal.
  destruct (exit_code st) as [code|] eqn:Hcode; [by split; left|].
  destruct s as [env blockNumber|time k8s].
  - pose proof (onBlock_context env blockNumber (lastBlockReceived st)
                  (watcher_world st)) as Hcontext.
    destruct (onBlock env blockNumber (lastBlockReceived st)
                (watcher_world st)) as [w block].
    simpl in *. split; [left|by left].
    by apply only_registry_changed_sync.
  - unfold watchdog.
    destruct (watchdogTimeout_ <=? _); [|by rewrite Hcode; split; left].
    destruct k8s; simpl.
    + split; [right; split; [done | by eexists] | by left].
    + split; [by left | right; split; [done | by eexists]].
Qed.

(** The verdict of the watchdog is final: the block watcher never sets
    the sync state itself, so a chain that the watchdog has marked
    [UNKNOWN] stays [UNKNOWN], and not healthy, whatever blocks arrive
    afterwards; the sync state only ever changes to [UNKNOWN], and only
    in a Kubernetes pod; the process only ever exits with code 1, and
    only outside a pod; and blocks alone change neither. *)
Theorem watchdog_verdict_is_final (watchdogTimeout_ : Z)
    (lastProcessedBlock_ : Block) (signals : list Signal) (w : World) :
  let st := runBlockWatcher watchdogTimeout_ lastProcessedBlock_ signals w in
  (sync (context (watcher_world st)) = sync (context w) \/
   sync (context (watcher_world st)) = UNKNOWN
   /\ exists time, watchdog_woke time true ∈ signals) /\
  (exit_code st = None \/
   exit_code st = Some 1 /\ exists time, watchdog_woke time false ∈ signals) /\
  (forall more,
     sync (context (watcher_world st)) = UNKNOWN ->
     let st' := runBlockWatcher watchdogTimeout_ lastProcessedBlock_
                  (signals ++ more) w in
     sync (context (watcher_world st')) = UNKNOWN /\
     isHealthy (context (watcher_world st')) = false).
Proof.
  assert (Hfold : forall l st0,
            let st := foldl (signal watchdogTimeout_) st0 l in
            (sync (context (watcher_world st))
             = sync (context (watcher_world st0)) \/
             sync (context (watcher_world st)) = UNKNOWN
             /\ exists time, watchdog_woke time true ∈ l) /\
            (exit_code st = exit_code st0 \/
             exit_code st = Some 1
             /\ exists time, watchdog_woke time false ∈ l)).
  { induction l as [|s l IH] using rev_ind; intros st0; simpl.
    - by split; left.
    - rewrite foldl_app. simpl.
      destruct (IH st0) as [Hsync Hexit].
      destruct (signal_sync watchdogTimeout_
                  (foldl (signal watchdogTimeout_) st0 l) s)
        as [Hsync' Hexit'].
      split.
      + destruct Hsync' as [->|[-> [time ->]]].
        * destruct Hsync as [->|[-> [time Hin]]]; [by left|].
          right. split; [done|]. exists time. apply elem_of_app. by left.
        * right. split; [done|]. exists time. apply elem_of_app. right.
          by left.
      + destruct Hexit' as [->|[-> [time ->]]].
        * destruct Hexit as [->|[-> [time Hin]]]; [by left|].
          right. split; [done|]. exists time. apply elem_of_app. by left.
        * right. split; [done|]. exists time. apply elem_of_app. right.
          by left. }
  simpl. unfold runBlockWatcher.
  split; [|split].
  - by destruct (Hfold signals
                   {| watcher_world := w;
                      lastBlockReceived := lastProcessedBlock_;
                      exit_code := None |}) as [? _].
  - by destruct (Hfold signals
                   {| watcher_world := w;
                      lastBlockReceived := lastProcessedBlock_;
                      exit_code := None |}) as [_ ?].
  - intros more Hunknown. rewrite foldl_app.
    match goal with
    | |- context [foldl _ ?st0 more] =>
        destruct (Hfold more st0) as [[Hs|[Hs _]] _]
    end.
    + rewrite Hs, Hunknown. split; [done|].
      unfold isHealthy. by rewrite Hs, Hunknown.
    + split; [done|]. unfold isHealthy. by rewrite Hs.
Qed.

End Watchdog.

(** ** The warm-up *)

Section WarmUpRestart.
Import ChainContext Lifecycle.
Variable envs : nat -> Env.

(** A restart at the tip: when the registry has a cursor and the chain,
    as the provider reports it at the start of the warm-up, is not
    beyond that cursor, [warmUp] declares the chain in sync at once: it
    processes no page, writes nothing and leaves the registry as it is.
    It hands the block of its last look at the chain to the block
    watcher, whatever that block is. *)
Theorem warmUp_restart_at_tip (w : World) (cursor : RegistryBlock)
    (c0 c1 c2 : Block) (fuel : nat) :
  lastProcessedBlock (registry (context w)) = Some cursor ->
  0 < pageSize (context w) ->
  getBlock (envs 1) latest = JS.Normal c0 ->
  getBlock (envs 2) latest = JS.Normal c1 ->
  getBlock (envs 3) latest = JS.Normal c2 ->
  number c0 <= rb_number cursor ->
  number c1 <= rb_number cursor ->
  exists w',
    warmUp envs (S fuel) w = warmed_up w' c2 3 /\
    sync (context w') = IN_SYNC /\
    registry (context w') = registry (context w) /\
    effects w' = effects w /\
    blockHeight (metrics w') = rb_number cursor.
Proof.
  intros Hcursor Hsize H0 H1 H2 Hc0 Hc1.
  unfold warmUp. rewrite Hcursor, H0. cbn [pages]. unfold page.
  cbn [context set_metrics].
  destruct (Z.eqb_spec (pageSize (context w)) 0) as [|_]; [lia|].
  destruct (Z.ltb_spec (number c0)
              (rb_number cursor + 1 + (pageSize (context w) - 1)))
    as [_|]; [|lia].
  rewrite H1.
  destruct (Z.ltb_spec (number c1) (rb_number cursor + 1)) as [_|]; [|lia].
  unfold syncCheck. rewrite H2.
  destruct (number c2 =? rb_number cursor); eexists;
    (split; [reflexivity|]); by repeat split.
Qed.

End WarmUpRestart.

Section WarmUpCatchUp.
Import ChainContext Lifecycle.
Variable envs : nat -> Env.
Variable tip : Block.
Variable blocks : Z -> Block.
Hypothesis Hlatest : forall k, getBlock (envs k) latest = JS.Normal tip.
Hypothesis Hblocks :
  forall k n, getBlock (envs k) (at_number n) = JS.Normal (blocks n).
Hypothesis Htip : blocks (number tip) = tip.
Hypothesis Hlogs :
  forall k fromBlock toBlock,
    exists logs, getLogs (envs k) fromBlock toBlock = JS.Normal logs.
Hypothesis Hreceipts :
  forall k tx, exists receipt,
    getTransactionReceipt (envs k) tx = JS.Normal receipt.
Hypothesis Hwrite : forall k r, registry_write (envs k) r = JS.Normal tt.

Lemma quiet_page (k : nat) (fromBlock : Z) (toBlock : BlockTag)
    (block currentBlock : Block) (w : World) :
  addresses (context w) = None ->
  getBlock (envs k) toBlock = JS.Normal block ->
  exists w',
    warmUpPage (envs k) fromBlock toBlock currentBlock w
    = (w', JS.Normal (Some (blockToRegistryBlock block))) /\
    only_registry_changed w w' /\
    lastProcessedBlock (registry (context w'))
    = Some (blockToRegistryBlock block) /\
    blockHeight (metrics w') = number block.
Proof.
  intros Hnone Hblock.
  apply (warmUpPage_done (envs k) blocks block fromBlock toBlock
           currentBlock w); try done.
  destruct (Hlogs k fromBlock toBlock) as [logs Hget].
  eexists. by apply (poll_without_list (envs k) _ _ _ logs).
Qed.

Lemma syncCheck_at_tip (clock : nat) (w : World) :
  syncCheck envs clock (Some (blockToRegistryBlock tip)) w
  = inl (warmed_up (set_sync IN_SYNC w) tip (S clock)).
Proof.
  unfold syncCheck. rewrite Hlatest. simpl. by rewrite Z.eqb_refl.
Qed.

Lemma pages_catch_up (m : nat) :
  forall clock fromBlock lastProcessedBlock_ w,
    addresses (context w) = None ->
    0 < pageSize (context w) ->
    fromBlock <= number tip ->
    number tip - fromBlock < Z.of_nat m * pageSize (context w) ->
    exists w' clock',
      pages envs m clock fromBlock tip lastProcessedBlock_ w
      = warmed_up w' tip clock' /\
      sync (context w') = IN_SYNC /\
      lastProcessedBlock (registry (context w'))
      = Some (blockToRegistryBlock tip) /\
      blockHeight (metrics w') = number tip.
Proof.
  induction m as [|m IH];
    intros clock fromBlock lp w Hnone Hsize Hfrom Hfuel; [lia|].
  cbn [pages]. unfold page.
  destruct (Z.eqb_spec (pageSize (context w)) 0) as [|_]; [lia|].
  destruct (Z.ltb_spec (number tip) (fromBlock + (pageSize (context w) - 1)))
    as [Hbeyond|Hwithin].
  - rewrite Hlatest.
    destruct (Z.ltb_spec (number tip)
                (fromBlock + (pageSize (context w) - 1))) as [_|]; [|lia].
    destruct (Z.ltb_spec (number tip) fromBlock) as [|_]; [lia|].
    destruct (quiet_page (S clock) fromBlock (at_number (number tip)) tip tip w)
      as (w1 & Hrun & _ & Hcursor & Hheight); [exact Hnone| |].
    { by rewrite Hblocks, Htip. }
    rewrite Hrun, Z.eqb_refl. simpl. rewrite syncCheck_at_tip.
    by eexists _, _.
  - set (n := fromBlock + (pageSize (context w) - 1)) in *.
    destruct (quiet_page clock fromBlock (at_number n) (blocks n) tip w)
      as (w1 & Hrun & Hcontext & Hcursor & Hheight);
      [exact Hnone|apply Hblocks|].
    rewrite Hrun.
    destruct (Z.eqb_spec n (number tip)) as [Hn|Hn]; simpl.
    + rewrite Hn, Htip, syncCheck_at_tip. rewrite Hn, Htip in Hcursor, Hheight.
      by eexists _, _.
    + apply IH.
      * unfold only_registry_changed in Hcontext. by rewrite Hcontext.
      * by rewrite (only_registry_changed_pageSize _ _ Hcontext).
      * lia.
      * rewrite (only_registry_changed_pageSize _ _ Hcontext).
        unfold n. lia.
Qed.

(** Catching up with a chain that stands still, without a list of
    owners: when the provider keeps reporting the same latest block, that
    block is not before the block at which the warm-up starts, and the
    provider and the store answer, [warmUp] ends after finitely many
    pages with the chain in sync, the cursor of the registry at the
    latest block and the block height gauge at its number, and it hands
    that block to the block watcher.  With [pageSize = 0] it does so in
    a single page up to ["latest"]. *)
Theorem warmUp_catches_up (w : World) :
  addresses (context w) = None ->
  0 <= pageSize (context w) ->
  match lastProcessedBlock (registry (context w)) with
  | Some cursor => rb_number cursor + 1
  | None => deploymentBlock (context w)
  end <= number tip ->
  exists fuel w' clock,
    warmUp envs fuel w = warmed_up w' tip clock /\
    sync (context w') = IN_SYNC /\
    lastProcessedBlock (registry (context w'))
    = Some (blockToRegistryBlock tip) /\
    blockHeight (metrics w') = number tip /\
    (pageSize (context w) = 0 -> fuel = 1%nat).
Proof.
  intros Hnone Hsize Hfrom. unfold warmUp. rewrite Hlatest.
  set (lp := lastProcessedBlock (registry (context w))) in *.
  set (w0 := set_metrics _ w).
  set (fromBlock := match lp with
                    | Some b => rb_number b + 1
                    | None => deploymentBlock (context w0)
                    end).
  assert (Hfrom0 : fromBlock <= number tip) by (unfold fromBlock; by destruct lp).
  destruct (Z.eq_dec (pageSize (context w)) 0) as [Hzero|Hpos].
  - exists 1%nat. cbn [pages]. unfold page. cbn [context w0 set_metrics].
    rewrite Hzero. simpl.
    destruct (quiet_page 1 fromBlock latest tip tip w0)
      as (w1 & Hrun & _ & Hcursor & Hheight); [exact Hnone|apply Hlatest|].
    rewrite Hrun, syncCheck_at_tip. by eexists _, _.
  - set (m := (Z.to_nat ((number tip - fromBlock) / pageSize (context w))
               + 1)%nat).
    destruct (pages_catch_up m 1 fromBlock lp w0) as (w' & clock' & Hrun & H');
      [exact Hnone | simpl; lia | exact Hfrom0 | |].
    + simpl. unfold m.
      rewrite Nat2Z.inj_add, Z2Nat.id by (apply Z.div_pos; lia).
      pose proof (Z.mod_pos_bound (number tip - fromBlock)
                    (pageSize (context w))) as Hmod.
      pose proof (Z.div_mod (number tip - fromBlock) (pageSize (context w))).
      nia.
    + exists m, w', clock'. split; [exact Hrun|].
      destruct H' as (? & ? & ?). by repeat split.
Qed.

End WarmUpCatchUp.

(** A restart of a chain that stands at block 10000000, with the cursor
    at that block. *)
Lemma warmUp_restart_at_tip_witness :
  exists w',
    Lifecycle.warmUp SampleChain.envs 1 (SampleChain.world_at 10000000)
    = Lifecycle.warmed_up w' (Sample.block 10000000) 3 /\
    ChainContext.sync (ChainContext.context w') = ChainContext.IN_SYNC /\
    ChainContext.effects w' = [].
Proof.
  destruct (warmUp_restart_at_tip SampleChain.envs
              (SampleChain.world_at 10000000)
              (ChainContext.blockToRegistryBlock (Sample.block 10000000))
              (Sample.block 10000000) (Sample.block 10000000)
              (Sample.block 10000000) 0)
    as (w' & Hrun & Hsync & _ & Heff & _).
  - reflexivity.
  - reflexivity.
  - reflexivity.
  - reflexivity.
  - reflexivity.
  - simpl. lia.
  - simpl. lia.
  - exists w'. by repeat split.
Defined.

(** Catching up from block 9990000 with a chain that stands at block
    10000000, in pages of 5000 blocks. *)
Lemma warmUp_catches_up_witness :
  exists fuel w' clock,
    Lifecycle.warmUp SampleChain.envs fuel (SampleChain.world_at 9990000)
    = Lifecycle.warmed_up w' (Sample.block 10000000) clock /\
    ChainContext.sync (ChainContext.context w') = ChainContext.IN_SYNC /\
    ChainContext.lastProcessedBlock
      (ChainContext.registry (ChainContext.context w'))
    = Some (ChainContext.blockToRegistryBlock (Sample.block 10000000)).
Proof.
  destruct (warmUp_catches_up SampleChain.envs (Sample.block 10000000)
              Sample.block) with (w := SampleChain.world_at 9990000)
    as (fuel & w' & clock & Hrun & Hsync & Hcursor & _).
  - reflexivity.
  - reflexivity.
  - reflexivity.
  - intros. by eexists.
  - intros. by eexists.
  - reflexivity.
  - reflexivity.
  - simpl. lia.
  - simpl. lia.
  - by exists fuel, w', clock.
Defined.

(** ** Adding and flushing, in a row *)

Section RegistryOperationsInARow.
Import Model AddContract.

Lemma Map_has_set {V} (k : string) (v : V) (m : list (string * V)) :
  Map_has k (Map_set k v m) = true.
Proof. apply Map_has_get. rewrite Map_get_set_eq. by eexists. Qed.

Lemma Map_set_set {V} (k : string) (v v' : V) (m : list (string * V)) :
  Map_set k v' (Map_set k v m) = Map_set k v' m.
Proof.
  induction m as [|[k0 v0] m IH]; simpl.
  - by rewrite String.eqb_refl.
  - destruct (String.eqb k0 k) eqn:Hk; simpl; rewrite Hk; [done|].
    by rewrite IH.
Qed.

(** The search of [add] does find the very object it was given before:
    a second [add] of the same params object for the same owner changes
    nothing, whatever transaction, proof and contract come with it. *)
Theorem add_same_params_object_once (tx tx' : string) (owner : Owner)
    (params : ConditionalOrderParamsStruct) (proof_ proof' : option Proof)
    (address address' : string) (registry : Registry) (heap : nat) :
  (forall s c, Map_get owner (ownerOrders registry) = Some s ->
               c ∈ s -> ref c <> heap) ->
  let first := add tx owner params proof_ address registry heap in
  add tx' owner params proof' address' first.1 first.2 = first.
Proof.
  intros Hfresh. simpl. unfold add at 2 3 4.
  destruct (Map_has owner (ownerOrders registry)) eqn:Hhas.
  - apply Map_has_get in Hhas as Hget. destruct Hget as [s Hs]. rewrite Hs.
    destruct (existsb (fun c => params_strict_equal (Model.params c) params) s)
      eqn:Hex; simpl.
    + unfold add. by rewrite Hhas, Hs, Hex.
    + unfold add. simpl. rewrite Map_has_set, Map_get_set_eq.
      assert (Hadd : Set_add {| ref := heap; tx := tx; params := params;
                                proof := proof_; orders := [];
                                composableCow := address;
                                pollResult := None |} s
                     = s ++ [{| ref := heap; tx := tx; params := params;
                                proof := proof_; orders := [];
                                composableCow := address;
                                pollResult := None |}]).
      { unfold Set_add.
        destruct (existsb (same_order _) s) eqn:Hmem; [|done].
        apply existsb_exists in Hmem as (c & Hc & Heq).
        apply list_elem_of_In in Hc. destruct (Hfresh s c Hs Hc).
        unfold same_order in Heq. simpl in Heq. symmetry.
        by apply Nat.eqb_eq. }
      rewrite Hadd, existsb_app. simpl.
      unfold params_strict_equal at 2. by rewrite Nat.eqb_refl, orb_true_r.
  - unfold add. simpl. rewrite Map_has_set, Map_get_set_eq. simpl.
    unfold params_strict_equal. by rewrite Nat.eqb_refl.
Qed.

(** [flush] twice with the same root is [flush] once; and after [flush]
    with a root and then with another root, the owner is left with the
    orders that have no proof. *)
Theorem flush_then_flush (owner : Owner) (root root' : string)
    (registry : Registry) :
  (forall s, Map_get owner (ownerOrders registry) = Some s ->
             NoDup (ref <$> s)) ->
  flush owner root (flush owner root registry) = flush owner root registry /\
  (root' <> root ->
   forall s, Map_get owner (ownerOrders registry) = Some s ->
     Map_get owner
       (ownerOrders (flush owner root' (flush owner root registry)))
     = Some (filter (fun c => proof c = None) s)).
Proof.
  intros Hnd.
  assert (Hflush : forall root0 r,
            (forall s, Map_get owner (ownerOrders r) = Some s ->
                       NoDup (ref <$> s)) ->
            forall s, Map_get owner (ownerOrders r) = Some s ->
              flush owner root0 r
              = with_ownerOrders r
                  (Map_set owner (filter (fun c => stale root0 c = false) s)
                     (ownerOrders r))).
  { intros root0 r Hr s Hs. unfold flush.
    assert (Hhas : Map_has owner (ownerOrders r) = true)
      by (apply Map_has_get; by eexists).
    by rewrite Hhas, Hs, (flush_set root0 s (Hr s Hs)). }
  assert (Hkept : forall root0 s,
            NoDup (ref <$> s) ->
            NoDup (ref <$> filter (fun c => stale root0 c = false) s)).
  { intros root0 s Hs. eapply sublist_NoDup; [exact Hs|].
    apply fmap_sublist, sublist_filter. }
  destruct (Map_get owner (ownerOrders registry)) as [s|] eqn:Hs.
  - assert (Hnd0 : forall s0, Map_get owner (ownerOrders registry) = Some s0 ->
                              NoDup (ref <$> s0))
      by (intros s0 Hs0; apply Hnd; congruence).
    rewrite (Hflush root registry Hnd0 s Hs).
    assert (Hget1 : Map_get owner
                      (ownerOrders
                         (with_ownerOrders registry
                            (Map_set owner
                               (filter (fun c => stale root c = false) s)
                               (ownerOrders registry))))
                    = Some (filter (fun c => stale root c = false) s))
      by (simpl; apply Map_get_set_eq).
    assert (Hnd1 : forall s1,
              Map_get owner
                (ownerOrders
                   (with_ownerOrders registry
                      (Map_set owner
                         (filter (fun c => stale root c = false) s)
                         (ownerOrders registry)))) = Some s1 ->
              NoDup (ref <$> s1)).
    { intros s1 Hs1. rewrite Hget1 in Hs1. injection Hs1 as <-.
      apply Hkept. by apply Hnd0. }
    split.
    + rewrite (Hflush root _ Hnd1 _ Hget1). unfold with_ownerOrders. simpl.
      rewrite Map_set_set. do 2 f_equal.
      rewrite list_filter_filter. apply filter_ext_in. tauto.
    + intros Hroots s0 [= <-].
      rewrite (Hflush root' _ Hnd1 _ Hget1). simpl.
      rewrite Map_get_set_eq. f_equal.
      rewrite list_filter_filter. apply filter_ext_in. intros c _.
      unfold stale. destruct (proof c) as [p|]; [|done].
      rewrite !negb_false_iff, !String.eqb_eq. split; [|done].
      intros [? ?]. congruence.
  - assert (Hsame : forall root0 r,
              Map_get owner (ownerOrders r) = None -> flush owner root0 r = r).
    { intros root0 r Hnone. unfold flush.
      destruct (Map_has owner (ownerOrders r)) eqn:Hhas; [|done].
      apply Map_has_get in Hhas as [s Hs']. congruence. }
    rewrite !(Hsame root registry Hs). by split.
Qed.

End RegistryOperationsInARow.

(** ** What is read back of a registry that was written *)

Section ReadBack.
Import JSON Model.
Context `{PlatformLaws}.

(** [write] stores every valid registry and [load] then returns a
    registry with the same version, network, date of the last notified
    error and last processed block, and with the same owners and orders,
    which are new objects that hold the same values.  The params of an
    order are read back as a plain struct when they were one, and as a
    plain array of the three values when they were an array, as the
    decoder's results are; so a registry without such results is read
    back in the shapes in which it was written. *)
Theorem write_then_load_reads_back (r : Registry)
    (storage : gmap string string) (genesisBlockNumber : JS.number)
    (heap : nat) :
  valid r ->
  exists storage' r' heap',
    write r storage = JS.Normal storage' /\
    load storage' (network r) genesisBlockNumber heap = JS.Normal (r', heap') /\
    registry_value_eq r' r /\
    ownerOrders_read_back (ownerOrders r') (ownerOrders r) /\
    (Forall (fun e => Forall (fun c => params_shape (params c)
                                       <> DecodedResult) e.2)
       (ownerOrders r) ->
     Forall2 (fun e' e =>
                Forall2 (fun c' c => params_shape (params c')
                                     = params_shape (params c)) e'.2 e.2)
       (ownerOrders r') (ownerOrders r)).
Proof.
  intros Hvalid.
  destruct (load_after_write r storage genesisBlockNumber heap Hvalid)
    as (storage' & r' & heap' & Hwrite & _ & Hload & Hback & Heq).
  exists storage', r', heap'.
  split; [exact Hwrite|]. split; [exact Hload|]. split; [exact Heq|].
  split; [exact Hback|].
  unfold ownerOrders_read_back in Hback.
  induction Hback as [|e' e m' m [_ Horders] _ IH]; intros Hplain;
    [constructor|].
  apply Forall_cons in Hplain as [He Hplain].
  constructor; [|by apply IH].
  clear -Horders He.
  induction Horders as [|c' c s' s [_ Hshape] _ IH]; [constructor|].
  apply Forall_cons in He as [Hc He].
  constructor; [|by apply IH].
  rewrite Hshape. by destruct (params_shape (params c)).
Qed.

End ReadBack.

(** ** A date that does not parse *)

Section CorruptDate.
Import JSON Model.
Context `{Platform}.

(** When the store holds, as the date of the last notified error, a
    text that is not a date, [load] does not reject it: the registry
    that [load] returns holds an invalid date, and it cannot be written
    as long as it holds that date: [write] throws before its batch is
    written, also after any change of the orders or of the cursor of the
    registry, so the store stays as it is. *)
Theorem corrupt_date_blocks_writes (storage : gmap string string)
    (network : string) (genesisBlockNumber : JS.number) (heap heap' : nat)
    (text : string) (r : Registry) :
  storage !! getNetworkStorageKey LAST_NOTIFIED_ERROR_STORAGE_KEY network
  = Some text ->
  JS.truthy text = true ->
  Date_parse text = None ->
  load storage network genesisBlockNumber heap = JS.Normal (r, heap') ->
  lastNotifiedError r = Some InvalidDate /\
  forall r' storage',
    lastNotifiedError r' = lastNotifiedError r ->
    exists e, write r' storage' = JS.Throw e.
Proof.
  intros Htext Htruthy Hparse Hload.
  assert (Hdate : lastNotifiedError r = Some InvalidDate).
  { unfold load, DB.get in Hload. rewrite Htext in Hload.
    destruct (storage !! getNetworkStorageKey
                           CONDITIONAL_ORDER_REGISTRY_STORAGE_KEY network);
      [|discriminate].
    destruct (parseConditionalOrders _ _ heap) as [[m h]|]; [|discriminate].
    injection Hload as <- _. simpl. rewrite Htruthy. unfold new_Date.
    by rewrite Hparse. }
  split; [exact Hdate|].
  intros r' storage' Hsame. unfold write.
  destruct (stringifyOrders r'); [|by eexists].
  rewrite Hsame, Hdate. by eexists.
Qed.

End CorruptDate.

(** ** [JSON.stringify] with [replacer], [JSON.parse] with [_reviver] *)

(** [JSON.parse(JSON.stringify(v, replacer), _reviver)] gives [v] back
    for every value [v] that is built of [null], booleans, integers,
    strings, arrays, plain objects that do not carry a [dataType] of
    ["Map"] or ["Set"], [Map]s and [Set]s, with no [undefined] in it and
    with [Map] keys and [Set] elements that are pairwise different:
    [Map]s and [Set]s at any depth survive the round trip, with their
    entries in their order.  A number that is not finite ([NaN], an
    infinity) does not: beside such a [v] in an array, [v] comes back and
    the number comes back as [null]. *)
Theorem replacer_reviver_round_trip (v : JSON.jsval) :
  Model.stable v = true ->
  (exists tree,
     JSON.stringify Model.replacer v = Some (Some tree) /\
     JSON.parse Model._reviver tree = Some v) /\
  (forall n,
     Model.stable (JSON.VNonFinite n) = false /\
     exists tree,
       JSON.stringify Model.replacer (JSON.VArr [v; JSON.VNonFinite n])
       = Some (Some tree) /\
       JSON.parse Model._reviver tree = Some (JSON.VArr [v; JSON.VNull])).
Proof.
  intros Hstable. split; [by apply parse_stringify|].
  intros n. split; [done|].
  pose proof (stable_comes_back v Hstable (Nat.max (JSON.depth v) 1)
                (Nat.le_max_l _ _)) as Hback.
  destruct (Hback (JS.toString 0)) as (j & Hser & Hint).
  exists (JSON.JArr [j; JSON.JNull]). unfold JSON.stringify, JSON.parse.
  change (JSON.depth (JSON.VArr [v; JSON.VNonFinite n]))
    with (S (Nat.max (JSON.depth v) (Nat.max 1 0))).
  rewrite Nat.max_0_r.
  destruct (Nat.max (JSON.depth v) 1) as [|m] eqn:Hm; [lia|].
  cbn [JSON.SerializeJSONProperty Model.replacer JSON.serialize_elems].
  cbn [JSON.SerializeJSONProperty] in Hser. rewrite Hser.
  cbn [JSON.SerializeJSONProperty Model.replacer mbind option_bind default
       JSON.InternalizeJSONProperty JSON.internalize_elems].
  rewrite Hint. by split.
Qed.

(** ** Running and stopping the watch-tower *)

Section RunAndStop.
Import Commands.
Variable services : Services.

Lemma settled_steps (result : JS.Completion unit) :
  List.filter is_process_exit (settled result) = [] /\
  forall s, s ∈ settled result -> s = error_logged STOP_ERROR.
Proof.
  destruct result as [u|e]; simpl; (split; [done|]); intros s Hs.
  - by apply elem_of_nil in Hs.
  - apply elem_of_cons in Hs as [->|Hs]; [done|]. by apply elem_of_nil in Hs.
Qed.

(** The steps of [stop]: both services are stopped, then the process
    exits, and nothing else exits the process. *)
Lemma stop_steps (exitCode : option Z) :
  exists before,
    stop services exitCode
    = before ++ [info_logged "Exiting watchtower...";
                 process_exit (default 0 exitCode)] /\
    List.filter is_process_exit before = [] /\
    api_stop_called ∈ before /\ db_close_called ∈ before /\
    (api_start_called ∉ before) /\ (warmUp_called ∉ before).
Proof.
  exists ([api_stop_called; db_close_called]
          ++ settled (api_stop services) ++ settled (db_close services)).
  destruct (settled_steps (api_stop services)) as [Hf1 Hm1].
  destruct (settled_steps (db_close services)) as [Hf2 Hm2].
  split; [|split; [|split; [|split; [|split]]]].
  - unfold stop. rewrite <- !app_assoc. do 4 f_equal.
    destruct exitCode as [code|]; [|done]. simpl.
    by destruct (Z.eqb_spec code 0) as [->|].
  - by rewrite !List.filter_app, Hf1, Hf2.
  - by left.
  - right. by left.
  - rewrite !elem_of_app, !elem_of_cons, elem_of_nil.
    intros [[|[|[]]]|[Hin|Hin]]; try done;
      [apply Hm1 in Hin|apply Hm2 in Hin]; done.
  - rewrite !elem_of_app, !elem_of_cons, elem_of_nil.
    intros [[|[|[]]]|[Hin|Hin]]; try done;
      [apply Hm1 in Hin|apply Hm2 in Hin]; done.
Qed.

(** When the API is disabled or starts, [run] reaches [stop] exactly
    when the initialisation of the chain context is rejected or its
    warm-up settles: it then stops both services and exits the process,
    once and as the last thing it does, with code 1 after a rejection
    and with code 0 after a warm-up that returned (one-shot mode); a
    service that fails to stop is logged and changes nothing of this.
    When the warm-up never settles (the block watcher is running),
    [run] never settles either: it stops no service and does not exit;
    the process is then ended by the handlers that [run] has installed,
    which stop both services and exit with code 0 on an interrupt and
    with code 1 on an unhandled rejection.  When the API does not
    start, [run] is rejected and never stops the services nor exits. *)
Theorem run_exits_with_code (disableApi : bool) :
  let steps := (run services disableApi).1 in
  (disableApi = true \/ (exists u, api_start services = JS.Normal u) ->
   (forall code : Z,
      code = 1 /\
      ((exists e, ChainContext_init services = JS.Throw e) \/
       (exists u e, ChainContext_init services = JS.Normal u /\
                    chainContext_warmUp services = Some (JS.Throw e))) \/
      code = 0 /\
      (exists u u', ChainContext_init services = JS.Normal u /\
                    chainContext_warmUp services = Some (JS.Normal u')) ->
      exists before,
        steps = before
                ++ [info_logged "Exiting watchtower..."; process_exit code] /\
        List.filter is_process_exit before = [] /\
        api_stop_called ∈ before /\ db_close_called ∈ before /\
        (api_start_called ∈ before <-> disableApi = false)) /\
   ((exists u, ChainContext_init services = JS.Normal u) ->
    chainContext_warmUp services = None ->
    (run services disableApi).2 = None /\
    List.filter is_process_exit steps = [] /\
    (api_stop_called ∉ steps) /\ (db_close_called ∉ steps) /\
    warmUp_called ∈ steps)) /\
  (forall e, disableApi = false -> api_start services = JS.Throw e ->
     (run services disableApi).2 = Some (JS.Throw e) /\
     List.filter is_process_exit steps = [] /\
     (api_stop_called ∉ steps) /\ (db_close_called ∉ steps)) /\
  (exists before,
     on_SIGINT services
     = before ++ [info_logged "Exiting watchtower..."; process_exit 0] /\
     List.filter is_process_exit before = [] /\
     api_stop_called ∈ before /\ db_close_called ∈ before) /\
  (exists before,
     on_unhandledRejection services
     = before ++ [info_logged "Exiting watchtower..."; process_exit 1] /\
     List.filter is_process_exit before = [] /\
     api_stop_called ∈ before /\ db_close_called ∈ before).
Proof.
  split; [|split; [|split]].
  - intros Hstart. unfold run.
    assert (Hstarted :
              (if negb disableApi
               then ([info_logged "Starting Rest API server...";
                      api_start_called], api_start services)
               else ([], JS.Normal tt))
              = (if negb disableApi
                 then [info_logged "Starting Rest API server...";
                       api_start_called]
                 else [], JS.Normal tt)).
    { destruct disableApi; simpl; [done|].
      destruct Hstart as [|[[] ->]]; done. }
    rewrite Hstarted. clear Hstarted Hstart. split.
    + intros code Hcode.
      destruct (stop_steps (Some code))
        as (b & Hstop & Hf & Ha & Hd & Hs & Hw).
      simpl in Hstop.
      assert (Hrun :
                (let '(steps, exitCode) :=
                   match ChainContext_init services with
                   | JS.Throw _ =>
                       ((if negb disableApi
                         then [info_logged "Starting Rest API server...";
                               api_start_called]
                         else [])
                        ++ [init_called; error_logged RUN_ERROR], Some 1)
                   | JS.Normal _ =>
                       match chainContext_warmUp services with
                       | Some (JS.Throw _) =>
                           ((if negb disableApi
                             then [info_logged "Starting Rest API server...";
                                   api_start_called]
                             else [])
                            ++ [init_called; warmUp_called;
                                error_logged RUN_ERROR], Some 1)
                       | Some (JS.Normal _) =>
                           ((if negb disableApi
                             then [info_logged "Starting Rest API server...";
                                   api_start_called]
                             else [])
                            ++ [init_called; warmUp_called], Some 0)
                       | None =>
                           ((if negb disableApi
                             then [info_logged "Starting Rest API server...";
                                   api_start_called]
                             else [])
                            ++ [init_called; warmUp_called], None)
                       end
                   end in
                 match exitCode with
                 | Some exitCode =>
                     (steps ++ stop services (Some exitCode),
                      Some (JS.Normal tt))
                 | None => (steps, None)
                 end).1
                = ((if negb disableApi
                    then [info_logged "Starting Rest API server...";
                          api_start_called]
                    else [])
                   ++ match ChainContext_init services with
                      | JS.Throw _ => [init_called; error_logged RUN_ERROR]
                      | JS.Normal _ =>
                          match chainContext_warmUp services with
                          | Some (JS.Throw _) =>
                              [init_called; warmUp_called;
                               error_logged RUN_ERROR]
                          | _ => [init_called; warmUp_called]
                          end
                      end)
                  ++ stop services (Some code)).
      { destruct Hcode as [[-> [[e ->]|(u & e & -> & ->)]]
                          |[-> (u & u' & -> & ->)]]; reflexivity. }
      cbv beta iota zeta delta [fst] in Hrun |- *.
      rewrite Hrun, Hstop.
      eexists. split; [rewrite app_assoc; reflexivity|].
      rewrite List.filter_app, Hf, app_nil_r.
      split.
      { destruct disableApi; simpl;
          destruct (ChainContext_init services) as [[]|?];
          try destruct (chainContext_warmUp services) as [[[]|?]|];
          reflexivity. }
      rewrite !elem_of_app.
      split; [by right|]. split; [by right|].
      split.
      * intros [[Hin|Hin]|Hin]; [| |by destruct (Hs Hin)].
        -- destruct disableApi; simpl in Hin; [|done].
           by apply elem_of_nil in Hin.
        -- exfalso.
           destruct (ChainContext_init services) as [[]|?];
             try destruct (chainContext_warmUp services) as [[[]|?]|];
             repeat (apply elem_of_cons in Hin as [Hin|Hin]; [done|]);
             by apply elem_of_nil in Hin.
      * intros ->. left. left. simpl. right. by left.
    + intros [u Hinit] Hwarm. rewrite Hinit, Hwarm.
      destruct u. cbv beta iota zeta delta [fst snd].
      split; [done|].
      rewrite !elem_of_app, !elem_of_cons, !elem_of_nil.
      destruct disableApi; simpl;
        rewrite ?elem_of_cons, ?elem_of_nil;
        (split; [done|]);
        (split; [|split]); try tauto;
        intros Hin;
        repeat match type of Hin with
               | _ \/ _ => destruct Hin as [Hin|Hin]
               end; done.
  - intros e -> Hstart. unfold run. simpl. rewrite Hstart. simpl.
    rewrite !elem_of_cons, !elem_of_nil.
    repeat split; try done; intros Hin;
      repeat match type of Hin with
             | _ \/ _ => destruct Hin as [Hin|Hin]
             end; done.
  - destruct (stop_steps None) as (b & Hstop & Hf & Ha & Hd & _).
    exists (info_logged "Caught interrupt signal." :: b).
    unfold on_SIGINT. rewrite Hstop. simpl. rewrite Hf.
    split; [done|]. split; [done|]. split; by right.
  - destruct (stop_steps (Some 1)) as (b & Hstop & Hf & Ha & Hd & _).
    exists (error_logged "Unhandled promise rejection" :: b).
    unfold on_unhandledRejection. rewrite Hstop. simpl. rewrite Hf.
    split; [done|]. split; [done|]. split; by right.
Qed.

End RunAndStop.

(** ** The properties at sample inputs *)

(** Alice has an order; a [ConditionalOrderCreated] log of hers adds a
    second one, built from the params object that the decoder creates. *)
Lemma registerNewOrder_created_always_adds_witness :
  Events.fresh 1 SampleRegistry.one_order /\
  Model.Map_get SampleRegistry.alice
    (Model.ownerOrders
       (Events._registerNewOrder SampleEvents.codec
          (SampleEvents.created "0x02") SampleRegistry.one_order 1).1.1)
  = Some [SampleRegistry.order 0 "0x01" None;
          {| Model.ref := 2; Model.tx := "0xbb";
             Model.params := SampleRegistry.params_at 1 "0x02";
             Model.proof := None; Model.orders := [];
             Model.composableCow := SampleEvents.contract;
             Model.pollResult := None |}].
Proof.
  assert (Hfresh : Events.fresh 1 SampleRegistry.one_order).
  { repeat constructor; simpl; lia. }
  split; [exact Hfresh|].
  destruct (registerNewOrder_created_always_adds SampleEvents.codec
              (SampleEvents.created "0x02") SampleRegistry.one_order 1
              SampleRegistry.alice _ eq_refl eq_refl Hfresh)
    as (_ & Hget & _).
  exact Hget.
Defined.

(** Alice has merkle orders under two roots; after a [MerkleRootSet] log
    with the second root, her orders with a proof are all under it. *)
Lemma registerNewOrder_merkle_root_witness :
  NoDup (Model.ref <$> Events.orders_of SampleRegistry.alice
                         SampleRegistry.merkle_orders) /\
  Events.all_under_root SampleRegistry.alice SampleRegistry.root2
    (Events._registerNewOrder SampleEvents.codec
       (SampleEvents.merkleRootSet SampleRegistry.root2)
       SampleRegistry.merkle_orders 5).1.1.
Proof.
  assert (Hnd : NoDup (Model.ref <$> Events.orders_of SampleRegistry.alice
                                       SampleRegistry.merkle_orders)).
  { apply (bool_decide_unpack _). vm_compute. exact I. }
  split; [exact Hnd|].
  destruct (registerNewOrder_merkle_root SampleEvents.codec
              (SampleEvents.merkleRootSet SampleRegistry.root2)
              SampleRegistry.merkle_orders 5 SampleRegistry.alice
              SampleRegistry.root2 _ eq_refl eq_refl eq_refl)
    as (Hroot & _).
  - intros s [= <-]. exact Hnd.
  - exact Hroot.
Defined.

(** Two chains are registered under their ids; the report lists Gnosis
    chain as syncing and not healthy. *)
Lemma static_health_lists_chains_witness :
  (forall id chain, SampleHealth.chains_ !! id = Some chain ->
                    ChainContext.chainId chain = id) /\
  ChainContext.chains (ChainContext.static_health SampleHealth.chains_) !! 100
  = Some {| ChainContext.health_sync := ChainContext.SYNCING;
            ChainContext.health_chainId := 100;
            ChainContext.health_lastProcessedBlock := None;
            ChainContext.isHealthy_ := false |}.
Proof.
  assert (Hids : forall id chain, SampleHealth.chains_ !! id = Some chain ->
                                  ChainContext.chainId chain = id).
  { intros id chain. unfold SampleHealth.chains_.
    rewrite lookup_insert_Some, lookup_singleton_Some.
    intros [[<- <-]|[_ [<- <-]]]; reflexivity. }
  split; [exact Hids|].
  rewrite (proj2 (static_health_lists_chains SampleHealth.chains_ Hids) 100).
  unfold SampleHealth.chains_. rewrite lookup_insert_eq. reflexivity.
Defined.

(** Gnosis chain is initialised beside a Mainnet that is in sync. *)
Lemma init_registers_syncing_chain_witness :
  Lifecycle.init (JS.Normal 100)
    (fun _ _ => JS.Normal SampleHealth.empty_registry)
    SampleHealth.options {[1 := SampleHealth.mainnet]}
  = (SampleHealth.chains_, JS.Normal SampleHealth.gnosis) /\
  ChainContext.static_isHealthy SampleHealth.chains_ = false.
Proof.
  split; [reflexivity|].
  destruct (init_registers_syncing_chain (JS.Normal 100)
              (fun _ _ => JS.Normal SampleHealth.empty_registry)
              SampleHealth.options {[1 := SampleHealth.mainnet]}
              SampleHealth.chains_ SampleHealth.gnosis eq_refl)
    as (_ & _ & _ & _ & Hhealth & _).
  exact Hhealth.
Defined.

(** A page up to block 10000000 with events in two blocks, without a
    list of owners. *)
Lemma warmUpPage_ends_at_toBlock_witness :
  exists w' new processed,
    ChainContext.warmUpPage
      (Sample.env Sample.block
         [Sample.event 9999999 "0xa1"; Sample.event 10000000 "0xa2"]
         true true)
      9995001 (ChainContext.at_number 10000000) (Sample.block 10000000)
      (Sample.world 1)
    = (w', JS.Normal (Some (ChainContext.blockToRegistryBlock
                              (Sample.block 10000000)))) /\
    ChainContext.effects w' = new /\
    ChainContext.cursor_numbers new = processed ++ [10000000] /\
    NoDup processed /\
    (forall n, n ∈ processed <->
               exists e, e ∈ [Sample.event 9999999 "0xa1";
                              Sample.event 10000000 "0xa2"]
                         /\ ChainContext.blockNumber e = n) /\
    ChainContext.blockHeight (ChainContext.metrics w') = 10000000.
Proof.
  destruct (warmUpPage_ends_at_toBlock
              (Sample.env Sample.block
                 [Sample.event 9999999 "0xa1"; Sample.event 10000000 "0xa2"]
                 true true)
              Sample.block (Sample.block 10000000)
              [Sample.event 9999999 "0xa1"; Sample.event 10000000 "0xa2"]
              9995001 (ChainContext.at_number 10000000)
              (Sample.block 10000000) (Sample.world 1))
    as (Hpage & Hfetched & _).
  - reflexivity.
  - reflexivity.
  - reflexivity.
  - reflexivity.
  - intros tx. by eexists.
  - reflexivity.
  - destruct (Hpage _ (Hfetched eq_refl))
      as (w' & new & processed & Hrun & Heff & Hcur & Hnodup & Hmem & _
          & Hheight).
    exists w', new, processed.
    split; [exact Hrun|]. split; [exact Heff|]. split; [exact Hcur|].
    split; [exact Hnodup|]. split; [exact Hmem|exact Hheight].
Defined.

(** Block 120 has three events; the receipt of the second one is not
    answered. *)
Lemma receipt_failure_skips_the_rest_witness :
  exists w',
    ChainContext.processBlockAndPersist SampleFailures.lost_receipt 120
      ([Sample.event 120 "0xa1"]
       ++ Sample.event 120 "0xbad" :: [Sample.event 120 "0xa3"])
      None (Sample.world 1)
    = (w', JS.Normal (Some (ChainContext.blockToRegistryBlock
                              (Sample.block 120)))) /\
    ChainContext.lastProcessedBlock
      (ChainContext.registry (ChainContext.context w'))
    = Some (ChainContext.blockToRegistryBlock (Sample.block 120)).
Proof.
  destruct (receipt_failure_skips_the_rest SampleFailures.lost_receipt 120
              (Sample.block 120) [Sample.event 120 "0xa1"]
              (Sample.event 120 "0xbad") [Sample.event 120 "0xa3"]
              None (Sample.world 1) "timeout")
    as (w' & new & r & Hdone & _ & _ & _ & _ & _ & _ & Hcursor).
  - reflexivity.
  - apply Forall_cons_2; [by eexists|apply Forall_nil_2].
  - reflexivity.
  - reflexivity.
  - exists w'. split; [exact Hdone|exact Hcursor].
Defined.

(** Block 120 is processed while the store rejects every write. *)
Lemma write_failure_reaches_the_caller_witness :
  (ChainContext.processBlockAndPersist SampleFailures.store_down 120
     [Sample.event 120 "0xa1"] None (Sample.world 1)).2
  = JS.Throw "IO error" /\
  ChainContext.cursors_written
    (ChainContext.effects
       (ChainContext.processBlockAndPersist SampleFailures.store_down 120
          [Sample.event 120 "0xa1"] None (Sample.world 1)).1)
  = [].
Proof.
  destruct (write_failure_reaches_the_caller SampleFailures.store_down 120
              (Sample.block 120) [Sample.event 120 "0xa1"] None
              (Sample.world 1) "IO error" eq_refl (fun _ => eq_refl))
    as (Hthrown & _ & Hcursors & _).
  split; [exact Hthrown|exact Hcursors].
Defined.

(** The params object at reference 1 is added for Alice, and once
    more. *)
Lemma add_same_params_object_once_witness :
  length (Events.orders_of SampleRegistry.alice
            (AddContract.add "0xbb" SampleRegistry.alice
               (SampleRegistry.params_at 1 "0x02") None SampleEvents.contract
               SampleRegistry.one_order 2).1) = 2%nat /\
  AddContract.add "0xdd" SampleRegistry.alice
    (SampleRegistry.params_at 1 "0x02")
    (SampleRegistry.merkle SampleRegistry.root1) SampleEvents.contract
    (AddContract.add "0xbb" SampleRegistry.alice
       (SampleRegistry.params_at 1 "0x02") None SampleEvents.contract
       SampleRegistry.one_order 2).1
    (AddContract.add "0xbb" SampleRegistry.alice
       (SampleRegistry.params_at 1 "0x02") None SampleEvents.contract
       SampleRegistry.one_order 2).2
  = AddContract.add "0xbb" SampleRegistry.alice
      (SampleRegistry.params_at 1 "0x02") None SampleEvents.contract
      SampleRegistry.one_order 2.
Proof.
  split; [reflexivity|].
  apply (add_same_params_object_once "0xbb" "0xdd" SampleRegistry.alice
           (SampleRegistry.params_at 1 "0x02") None
           (SampleRegistry.merkle SampleRegistry.root1)
           SampleEvents.contract SampleEvents.contract
           SampleRegistry.one_order 2).
  intros s c [= <-] Hc.
  apply list_elem_of_singleton in Hc as ->. simpl. lia.
Defined.

(** Alice's merkle orders are flushed with the first root, twice. *)
Lemma flush_then_flush_witness :
  NoDup (Model.ref <$> Events.orders_of SampleRegistry.alice
                         SampleRegistry.merkle_orders) /\
  AddContract.flush SampleRegistry.alice SampleRegistry.root1
    (AddContract.flush SampleRegistry.alice SampleRegistry.root1
       SampleRegistry.merkle_orders)
  = AddContract.flush SampleRegistry.alice SampleRegistry.root1
      SampleRegistry.merkle_orders.
Proof.
  assert (Hnd : NoDup (Model.ref <$> Events.orders_of SampleRegistry.alice
                                       SampleRegistry.merkle_orders)).
  { apply (bool_decide_unpack _). vm_compute. exact I. }
  split; [exact Hnd|].
  apply (flush_then_flush SampleRegistry.alice SampleRegistry.root1
           SampleRegistry.root2 SampleRegistry.merkle_orders).
  intros s [= <-]. exact Hnd.
Defined.

(** A registry with a polled order, an empty set, a date and a cursor
    is written and read back. *)
Lemma write_then_load_reads_back_witness :
  exists storage' r' heap',
    Model.write (H := Numerals.platform) SampleRegistry.polled ∅
    = JS.Normal storage' /\
    Model.load (H := Numerals.platform) storage' "1" (JS.Int 0) 1
    = JS.Normal (r', heap') /\
    Model.registry_value_eq r' SampleRegistry.polled /\
    Model.ownerOrders_read_back (Model.ownerOrders r')
      (Model.ownerOrders SampleRegistry.polled).
Proof.
  destruct (write_then_load_reads_back (H0 := numerals_laws)
              SampleRegistry.polled ∅ (JS.Int 0) 1)
    as (storage' & r' & heap' & Hwrite & Hload & Heq & Hback & _).
  - split; [reflexivity|]. split; [|split; [|discriminate]].
    + apply (bool_decide_unpack _). vm_compute. exact I.
    + repeat apply Forall_cons_2; try apply Forall_nil_2.
      split; [|reflexivity].
      apply (bool_decide_unpack _). vm_compute. exact I.
  - by exists storage', r', heap'.
Defined.

(** The store of chain 1 holds [yesterday] as the date of the last
    notified error. *)
Lemma corrupt_date_blocks_writes_witness :
  Model.load (H := Numerals.platform) SampleCorruptStore.storage "1"
    (JS.Int 0) 0
  = JS.Normal (Model.new_Registry [] "1" (Some Model.InvalidDate) None, 0%nat)
  /\
  exists e,
    Model.write (H := Numerals.platform)
      (Model.new_Registry [] "1" (Some Model.InvalidDate) None)
      SampleCorruptStore.storage
    = JS.Throw e.
Proof.
  assert (Hload : Model.load (H := Numerals.platform)
                    SampleCorruptStore.storage "1" (JS.Int 0) 0
                  = JS.Normal (Model.new_Registry [] "1"
                                 (Some Model.InvalidDate) None, 0%nat))
    by (vm_compute; reflexivity).
  split; [exact Hload|].
  destruct (corrupt_date_blocks_writes (H := Numerals.platform)
              SampleCorruptStore.storage "1" (JS.Int 0) 0 0 "yesterday" _
              eq_refl eq_refl eq_refl Hload) as [_ Hwrite].
  apply Hwrite. reflexivity.
Defined.

(** A [Set] that holds a [Map] and a string, and [NaN] beside it. *)
Lemma replacer_reviver_round_trip_witness :
  (exists tree,
     JSON.stringify Model.replacer
       (JSON.VSet [JSON.VMap [(JSON.VStr "a",
                               JSON.VArr [JSON.VNum 1; JSON.VNull])];
                   JSON.VStr "b"])
     = Some (Some tree) /\
     JSON.parse Model._reviver tree
     = Some (JSON.VSet [JSON.VMap [(JSON.VStr "a",
                                    JSON.VArr [JSON.VNum 1; JSON.VNull])];
                        JSON.VStr "b"])) /\
  (exists tree,
     JSON.stringify Model.replacer
       (JSON.VArr [JSON.VSet [JSON.VMap [(JSON.VStr "a",
                                          JSON.VArr [JSON.VNum 1;
                                                     JSON.VNull])];
                              JSON.VStr "b"];
                   JSON.VNonFinite JSON.NotANumber])
     = Some (Some tree) /\
     JSON.parse Model._reviver tree
     = Some (JSON.VArr [JSON.VSet [JSON.VMap [(JSON.VStr "a",
                                               JSON.VArr [JSON.VNum 1;
                                                          JSON.VNull])];
                                   JSON.VStr "b"];
                        JSON.VNull])).
Proof.
  destruct (replacer_reviver_round_trip
              (JSON.VSet [JSON.VMap [(JSON.VStr "a",
                                      JSON.VArr [JSON.VNum 1; JSON.VNull])];
                          JSON.VStr "b"])) as [Hback Hnull].
  - reflexivity.
  - split; [exact Hback|]. exact (proj2 (Hnull JSON.NotANumber)).
Defined.
